(** * ASB: a bit-level CSS codec

    Shallow embedding of the ASB sources ([bitbuf.js], [puffman.js],
    [css-eater.js], [utils.js]) and the properties of its bit stream,
    Huffman coder and structural codec.

    JavaScript numbers that the program uses as integers are modelled as [Z];
    the 32-bit conversions of the bitwise operators and the 8-bit wrap of
    [Uint8Array] stores are written out.  Strings are sequences of one-octet
    characters ([string]), which covers the ASCII text the codec is fed.
    Mutable objects are threaded explicitly: the bit buffer through a
    state-and-exception monad, the stylesheet tree, which [groupBlocks]
    updates in place, through [groupBlocks] and [dump].  Loops without a
    bound in the source take a bound ([fuel]) here and report when it runs
    out. *)

From Stdlib Require Import ZArith Lia List Ascii String.
From stdpp Require Import base option list strings gmap.

Local Open Scope Z_scope.

(** ** JavaScript primitives *)

Module Js.

(** Errors the modelled code can throw: the explicit [Error] of
    [BitBuf.get], whose message carries the index, and the [TypeError] of
    a property access on [null] or [undefined]. *)
Inductive Err : Type :=
| IndexError (index : Z)
| TypeError.

(** Outcome of a call.  [OutOfFuel] is not a JavaScript outcome: it marks
    a loop or recursion cut by the bound of the embedding. *)
Inductive Res (A : Type) : Type :=
| Ok (a : A)
| Throw (e : Err)
| OutOfFuel.
Arguments Ok {A} a.
Arguments Throw {A} e.
Arguments OutOfFuel {A}.

(** A computation over a mutable object of type [S]: the object survives
    an exception, as it does in JavaScript. *)
Definition M (S A : Type) : Type := S -> Res A * S.

Definition ret {S A} (a : A) : M S A := fun s => (Ok a, s).

Definition bind {S A B} (m : M S A) (f : A -> M S B) : M S B :=
  fun s =>
    match m s with
    | (Ok a, s') => f a s'
    | (Throw e, s') => (Throw e, s')
    | (OutOfFuel, s') => (OutOfFuel, s')
    end.

Definition throw {S A} (e : Err) : M S A := fun s => (Throw e, s).
Definition out_of_fuel {S A} : M S A := fun s => (OutOfFuel, s).
Definition gets {S A} (f : S -> A) : M S A := fun s => (Ok (f s), s).
Definition modify {S} (f : S -> S) : M S unit := fun s => (Ok tt, f s).

(** [ToInt32]: the conversion every bitwise operator applies first. *)
Definition to_int32 (z : Z) : Z := (z + 2 ^ 31) mod 2 ^ 32 - 2 ^ 31.

(** [a & b], [a | b], [a << n], [a >> n]. *)
Definition and (a b : Z) : Z := Z.land (to_int32 a) (to_int32 b).
Definition or (a b : Z) : Z := Z.lor (to_int32 a) (to_int32 b).
Definition shl (a n : Z) : Z :=
  to_int32 (Z.shiftl (to_int32 a) (Z.land (to_int32 n) 31)).
Definition shr (a n : Z) : Z :=
  Z.shiftr (to_int32 a) (Z.land (to_int32 n) 31).

(** [a[i]] on an array: [undefined] (here [None]) out of range. *)
Definition index {A} (l : list A) (i : Z) : option A :=
  if i <? 0 then None else l !! Z.to_nat i.

(** [a[i] = v] on a typed array: ignored out of range. *)
Definition store {A} (l : list A) (i : Z) (v : A) : list A :=
  if i <? 0 then l else <[Z.to_nat i := v]> l.

(** [for (let i = from; ...; i += 1) body(i)], [n] iterations. *)
Fixpoint for_loop {S} (n : nat) (i : Z) (body : Z -> M S unit) : M S unit :=
  match n with
  | O => ret tt
  | S n' => bind (body i) (fun _ => for_loop n' (i + 1) body)
  end.

(** Characters and their codes. *)
Definition code (c : ascii) : Z := Z.of_N (N_of_ascii c).
Definition char (o : Z) : ascii := ascii_of_N (Z.to_N o).

(** [s.charCodeAt(0)]: [NaN] (here [None]) on the empty string. *)
Definition charCodeAt0 (s : string) : option Z :=
  match s with
  | EmptyString => None
  | String c _ => Some (code c)
  end.

(** [a.join(sep)]. *)
Fixpoint join (sep : string) (l : list string) : string :=
  match l with
  | [] => EmptyString
  | [x] => x
  | x :: rest => x +:+ sep +:+ join sep rest
  end.

End Js.

Notation "x <- m ;; k" := (Js.bind m (fun x => k))
  (at level 100, m at next level, right associativity).
Notation "m ;;; k" := (Js.bind m (fun _ => k))
  (at level 100, right associativity).

(** ** bitbuf.js *)

Module BitBuf.

Definition CHUNK_SIZE : Z := 1024.
Definition OCTET_SIZE : Z := 8.

(** The object: [chunks] is an array of [Uint8Array]s. *)
Record t : Type := mk { chunks : list (list Z); length : Z; pos : Z }.

(** [new BitBuf()]. *)
Definition new : t := mk [] 0 0.

Definition set_chunks (c : list (list Z)) (b : t) : t := mk c (length b) (pos b).
Definition set_length (n : Z) (b : t) : t := mk (chunks b) n (pos b).
Definition set_pos (p : Z) (b : t) : t := mk (chunks b) (length b) p.

Definition getCoordinates (index : Z) : Z * Z * Z :=
  let chunkIndex := index / (CHUNK_SIZE * OCTET_SIZE) in
  let octetIndex := index / OCTET_SIZE - chunkIndex * CHUNK_SIZE in
  let bitIndex :=
    index - (chunkIndex * CHUNK_SIZE * OCTET_SIZE + octetIndex * OCTET_SIZE) in
  (chunkIndex, octetIndex, bitIndex).

(** [new Uint8Array(CHUNK_SIZE)]. *)
Definition new_chunk : list Z := replicate (Z.to_nat CHUNK_SIZE) 0.

(** The loop pushes one fresh chunk for every [i] from [chunks.length] to
    [index]; the result [this.chunks[index]] is [undefined] for a negative
    index. *)
Definition getChunk (index : Z) : Js.M t (option (list Z)) :=
  fun b =>
    let missing := Z.to_nat (index + 1 - Z.of_nat (List.length (chunks b))) in
    let b' := set_chunks (chunks b ++ replicate missing new_chunk) b in
    (Js.Ok (Js.index (chunks b') index), b').

(** [chunk[octetIndex]] read for a bitwise operator: [undefined] counts
    as 0. *)
Definition octet_of (chunk : list Z) (octetIndex : Z) : Z :=
  default 0 (Js.index chunk octetIndex).

Definition push (bit : Z) : Js.M t unit :=
  len <- Js.gets length ;;
  let '(chunkIndex, octetIndex, bitIndex) := getCoordinates len in
  chunk <- getChunk chunkIndex ;;
  match chunk with
  | None => Js.throw Js.TypeError
  | Some chunk =>
      let v := Js.or (octet_of chunk octetIndex)
                     (Js.shl (Js.and bit 1) bitIndex) in
      Js.modify (fun b =>
        set_chunks (Js.store (chunks b) chunkIndex
                      (Js.store chunk octetIndex (v mod 256))) b) ;;;
      Js.modify (fun b => set_length (length b + 1) b)
  end.

Definition get (index : Z) : Js.M t Z :=
  len <- Js.gets length ;;
  if index + 1 >? len then Js.throw (Js.IndexError index)
  else
    let '(chunkIndex, octetIndex, bitIndex) := getCoordinates index in
    chunk <- getChunk chunkIndex ;;
    match chunk with
    | None => Js.throw Js.TypeError
    | Some chunk =>
        Js.ret (Js.and (Js.shr (octet_of chunk octetIndex) bitIndex) 1)
    end.

Definition writeOctet (octet : Z) : Js.M t unit :=
  Js.for_loop (Z.to_nat OCTET_SIZE) 0 (fun i => push (Js.shr octet i)).

(** The body of the loop of [readOctet], with the accumulator explicit. *)
Fixpoint readOctet_loop (n : nat) (i : Z) (octet : Z) : Js.M t Z :=
  match n with
  | O => Js.ret octet
  | S n' =>
      p <- Js.gets pos ;;
      bit <- get (p + i) ;;
      readOctet_loop n' (i + 1) (Js.or octet (Js.shl bit i))
  end.

Definition readOctet : Js.M t Z :=
  octet <- readOctet_loop (Z.to_nat OCTET_SIZE) 0 0 ;;
  Js.modify (fun b => set_pos (pos b + OCTET_SIZE) b) ;;;
  Js.ret octet.

Definition readBit : Js.M t Z :=
  p <- Js.gets pos ;;
  octet <- get p ;;
  Js.modify (fun b => set_pos (pos b + 1) b) ;;;
  Js.ret octet.

Definition hasMore (b : t) : bool := pos b <? length b.

(** [buf.slice(start, end)] for [0 <= start <= end]. *)
Definition slice (buf : list Z) (start stop : Z) : list Z :=
  take (Z.to_nat (stop - start)) (drop (Z.to_nat start) buf).

(** The loop of [fromBuffer]: one slice for every [i] below [buf.length],
    in steps of [CHUNK_SIZE]; [fuel] bounds the turns. *)
Fixpoint fromBuffer_loop (fuel : nat) (i : Z) (buf : list Z) : list (list Z) :=
  match fuel with
  | O => []
  | S fuel' =>
      if i <? Z.of_nat (List.length buf) then
        slice buf i (i + CHUNK_SIZE) :: fromBuffer_loop fuel' (i + CHUNK_SIZE) buf
      else []
  end.

(** A buffer of [n] octets needs fewer than [n + 1] turns. *)
Definition fromBuffer (buf : list Z) : Js.M t unit :=
  Js.modify (fun b =>
    mk (chunks b ++ fromBuffer_loop (List.length buf) 0 buf)
       (Z.of_nat (List.length buf) * OCTET_SIZE) (pos b)).

(** [Math.ceil(a / b)] for integers [a] and [b > 0]. *)
Definition ceil_div (a b : Z) : Z := - ((- a) / b).

(** [Buffer.concat(this.chunks, n)]: the octets of the chunks one after the
    other, cut after [n] octets, or filled with zeros up to [n]. *)
Definition toBuffer (b : t) : list Z :=
  resize (Z.to_nat (ceil_div (length b) OCTET_SIZE)) 0 (concat (chunks b)).

(** How many whole octets lie between the read position and the end: a
    loop that reads one octet per turn runs at most one turn more. *)
Definition octets_left (b : t) : nat := Z.to_nat ((length b - pos b) / OCTET_SIZE).

(** Modelled from the spec: [writeString], which [StringEater.dump] and
    [Node.serialize] call and [bitbuf.js] does not define.  It writes each
    character of [s] as one octet and no terminator. *)
Fixpoint writeString (s : string) : Js.M t unit :=
  match s with
  | EmptyString => Js.ret tt
  | String c rest => writeOctet (Js.code c) ;;; writeString rest
  end.

(** The string whose characters are the given octets, one character per
    octet.  It stands for [new Buffer(data).toString()] too, which decodes
    UTF-8: on octets below 128 that is this map. *)
Definition decode (data : list Z) : string :=
  string_of_list_ascii (map Js.char data).

(** Modelled from the spec: [readString], which [Node.unserialize] calls
    and [bitbuf.js] does not define.  It reads octets until one equals
    the delimiter and returns the string of the octets before it; the
    delimiter is consumed. *)
Fixpoint readString_loop (fuel : nat) (delimiter : Z) (data : list Z)
  : Js.M t string :=
  match fuel with
  | O => Js.out_of_fuel
  | S fuel' =>
      octet <- readOctet ;;
      if octet =? delimiter then Js.ret (decode data)
      else readString_loop fuel' delimiter (data ++ [octet])
  end.

(** Modelled from the spec: [readString(delimiter)] itself, the loop above
    started with no octet read; the stream has at most [octets_left] whole
    octets to give. *)
Definition readString (delimiter : Z) : Js.M t string :=
  fun b => readString_loop (S (octets_left b)) delimiter [] b.

End BitBuf.

(** ** puffman.js and utils.js *)

Module Puffman.

Definition NULL_NODE : Z := 0.
Definition NULL_TOKEN : Z := 1.
Definition SPLIT : Z := 3.

(** [class Node]: [null] children and [null] tokens are [None]. *)
#[warnings="-register-all"]
Inductive Node : Type :=
  mkNode (left right : option Node) (token : option string) (occurrences : Z).

Definition left (n : Node) : option Node := let 'mkNode l _ _ _ := n in l.
Definition right (n : Node) : option Node := let 'mkNode _ r _ _ := n in r.
Definition token (n : Node) : option string := let 'mkNode _ _ t _ := n in t.
Definition occurrences (n : Node) : Z := let 'mkNode _ _ _ o := n in o.

(** [new Node({token, occurrences})]. *)
Definition newNode (token : option string) (occurrences : Z) : Node :=
  mkNode None None token occurrences.

(** [Node.serialize]: the inner [buildString], on a node and on a
    possibly [null] child. *)
Fixpoint buildString_node (node : Node) : Js.M BitBuf.t unit :=
  let '(mkNode l r tok _) := node in
  match tok with
  | None => BitBuf.writeOctet NULL_TOKEN
  | Some tok => BitBuf.writeString tok
  end ;;;
  BitBuf.writeOctet SPLIT ;;;
  match l with
  | None => BitBuf.writeOctet NULL_NODE ;;; BitBuf.writeOctet SPLIT
  | Some l => buildString_node l
  end ;;;
  match r with
  | None => BitBuf.writeOctet NULL_NODE ;;; BitBuf.writeOctet SPLIT
  | Some r => buildString_node r
  end.

Definition buildString (node : option Node) : Js.M BitBuf.t unit :=
  match node with
  | None => BitBuf.writeOctet NULL_NODE ;;; BitBuf.writeOctet SPLIT
  | Some node => buildString_node node
  end.

Definition serialize (this : Node) : Js.M BitBuf.t unit :=
  buildString (Some this).

(** [val.charCodeAt(0) === c]; [NaN] equals nothing. *)
Definition first_code_is (val : string) (c : Z) : bool :=
  match Js.charCodeAt0 val with
  | Some o => o =? c
  | None => false
  end.

(** [Node.unserialize]: the inner [buildTree]; [fuel] bounds the depth of
    the recursion. *)
Fixpoint unserialize_buildTree (fuel : nat) : Js.M BitBuf.t (option Node) :=
  match fuel with
  | O => Js.out_of_fuel
  | S fuel' =>
      val <- BitBuf.readString SPLIT ;;
      if first_code_is val NULL_NODE then Js.ret None
      else
        let tok := if negb (first_code_is val NULL_TOKEN) then Some val else None in
        l <- unserialize_buildTree fuel' ;;
        r <- unserialize_buildTree fuel' ;;
        Js.ret (Some (mkNode l r tok 0))
  end.

Definition Node_unserialize (fuel : nat) : Js.M BitBuf.t (option Node) :=
  unserialize_buildTree fuel.

(** [class Puffman].  [tokenOccurrences] is an object used as a map: its
    keys in the order [Object.keys] lists them, which for keys that are
    not array indices is the order of their first assignment.  [tree] is
    [null] or [undefined] when [None].  Tokens are taken to be neither
    array indices nor names that [Object.prototype] defines, for which a
    plain object does not behave as a map. *)
Record t : Type := mk {
  tokenOccurrences : list (string * Z);
  tree : option Node;
  mapToBin : gmap string string
}.

Definition new : t := mk [] None ∅.

Definition set_tokenOccurrences (o : list (string * Z)) (p : t) : t :=
  mk o (tree p) (mapToBin p).
Definition set_tree (n : option Node) (p : t) : t :=
  mk (tokenOccurrences p) n (mapToBin p).
Definition set_mapToBin (m : gmap string string) (p : t) : t :=
  mk (tokenOccurrences p) (tree p) m.

(** [obj[key]] and [obj[key] = v] on the object. *)
Fixpoint obj_get (o : list (string * Z)) (key : string) : option Z :=
  match o with
  | [] => None
  | (k, v) :: rest => if String.eqb k key then Some v else obj_get rest key
  end.

Fixpoint obj_set (o : list (string * Z)) (key : string) (v : Z)
  : list (string * Z) :=
  match o with
  | [] => [(key, v)]
  | (k, w) :: rest =>
      if String.eqb k key then (k, v) :: rest else (k, w) :: obj_set rest key v
  end.

Definition see (token : string) : Js.M t unit :=
  Js.modify (fun p =>
    let o := tokenOccurrences p in
    let o := match obj_get o token with
             | None => obj_set o token 0
             | Some _ => o
             end in
    set_tokenOccurrences (obj_set o token (default 0 (obj_get o token) + 1)) p).

(** [items(obj)]: the pairs in the order of [Object.keys]. *)
Definition items (o : list (string * Z)) : list (string * Z) := o.

(** [base.sort((a, b) => b.occurrences - a.occurrences)]: the sort is
    stable, so it is the insertion of every element, from the last to the
    first, in front of the first element it does not have to follow. *)
Fixpoint sort_insert (a : Node) (l : list Node) : list Node :=
  match l with
  | [] => [a]
  | b :: rest =>
      if occurrences b - occurrences a <=? 0 then a :: l
      else b :: sort_insert a rest
  end.

Definition sort (base : list Node) : list Node := foldr sort_insert [] base.

(** [base.pop()]: the last element ([undefined] if there is none) and
    the array without it. *)
Definition pop (base : list Node) : option Node * list Node :=
  (last base, removelast base).

(** The [while (base.length > 1)] loop of [buildTree]. *)
Fixpoint buildTree_loop (fuel : nat) (base : list Node)
  : Js.Res (list Node) :=
  if 1 <? Z.of_nat (List.length base) then
    match fuel with
    | O => Js.OutOfFuel
    | S fuel' =>
        let base := sort base in
        let '(l, base) := pop base in
        match l with
        | None => Js.Throw Js.TypeError
        | Some ln =>
            let '(r, base) := pop base in
            match r with
            | None => Js.Throw Js.TypeError
            | Some rn =>
                let n := mkNode l r None (0 + occurrences ln + occurrences rn) in
                buildTree_loop fuel' (base ++ [n])
            end
        end
    end
  else Js.Ok base.

(** Every turn of the loop shortens [base] by one. *)
Definition buildTree : Js.M t unit :=
  fun p =>
    let base :=
      map (fun '(token, occurrences) => newNode (Some token) occurrences)
          (items (tokenOccurrences p)) in
    match buildTree_loop (List.length base) base with
    | Js.Ok base => (Js.Ok tt, set_tree (head base) p)
    | Js.Throw e => (Js.Throw e, p)
    | Js.OutOfFuel => (Js.OutOfFuel, p)
    end.

(** [buildMapToBin]: the inner [walk]. *)
Fixpoint walk (node : Node) (prefix : string) : Js.M t unit :=
  let '(mkNode l r tok _) := node in
  match tok with
  | Some tok =>
      Js.modify (fun p => set_mapToBin (<[tok := prefix]> (mapToBin p)) p)
  | None =>
      match l with
      | None => Js.throw Js.TypeError
      | Some l => walk l (prefix +:+ "0")
      end ;;;
      match r with
      | None => Js.throw Js.TypeError
      | Some r => walk r (prefix +:+ "1")
      end
  end.

Definition buildMapToBin : Js.M t unit :=
  fun p =>
    match tree p with
    | None => (Js.Throw Js.TypeError, p)
    | Some root => walk root "" p
    end.

(** [findToken(next)], from the node the walk has reached; the first call
    is on [this.tree]. *)
Fixpoint findToken_from {S} (fuel : nat) (next : Js.M S Z) (node : option Node)
  : Js.M S string :=
  match fuel with
  | O => Js.out_of_fuel
  | S fuel' =>
      dir <- next ;;
      match node with
      | None => Js.throw Js.TypeError
      | Some n =>
          let node := if dir =? 0 then left n else right n in
          match node with
          | None => Js.throw Js.TypeError
          | Some n' =>
              match token n' with
              | Some tok => Js.ret tok
              | None => findToken_from fuel' next node
              end
          end
      end
  end.

Definition findToken {S} (fuel : nat) (next : Js.M S Z) (p : t) : Js.M S string :=
  findToken_from fuel next (tree p).

Definition unserialize (fuel : nat) (p : t) : Js.M BitBuf.t t :=
  n <- Node_unserialize fuel ;;
  Js.ret (set_tree n p).

End Puffman.

(** ** css-eater.js *)

Module CssEater.

(** The escape token: the literal ['\e'] of the source, which JavaScript
    reads as the one-character string [e]. *)
Definition ESC : string := "e".

Definition nl : string := String (ascii_of_nat 10) EmptyString.

(** The tree of the [css] parser, as far as the codec looks at it.  A
    declaration is a [declaration] node or something else (a comment); a
    top-level node is a [rule], a [media] node, or any other node, which
    carries what [css.stringify] with [compress] renders it to.  A media
    node is taken to hold rules only: a tree with a comment or another
    at-rule among the children of a media node is not one of these. *)
Inductive Declaration : Type :=
| Decl (property value : string)
| DeclOther.

Record Rule : Type := mkRule {
  selectors : list string;
  declarations : list Declaration
}.

Inductive AstNode : Type :=
| ARule (rule : Rule)
| AMedia (media : string) (rules : list Rule)
| AOther (stringified : string).

(** [ast.stylesheet.rules]: the nodes are objects, addressed by their
    index in the array. *)
Definition Ast : Type := list AstNode.

(** An element of the array [groupBlocks] returns: an object the function
    created, or the [media] node of the tree itself. *)
Inductive Block : Type :=
| BNew (media : string) (rules : list Rule)
| BAst (node : nat)
| BRaw (contents : string).

Inductive BlockKind : Type := KEnd | KMedia | KRaw.

(** The state the eaters share: the buffer, and the coder of [Prop]. *)
Record Eaters : Type := mkEaters {
  bitbuf : BitBuf.t;
  puffman : Puffman.t
}.

Definition buildEaters (bitbuf : BitBuf.t) : Eaters :=
  mkEaters bitbuf Puffman.new.

Definition on_bitbuf {A} (m : Js.M BitBuf.t A) : Js.M Eaters A :=
  fun e => let '(r, b) := m (bitbuf e) in (r, mkEaters b (puffman e)).

Definition on_puffman {A} (m : Js.M Puffman.t A) : Js.M Eaters A :=
  fun e => let '(r, p) := m (puffman e) in (r, mkEaters (bitbuf e) p).

(** [for (const x of l) body(x)]. *)
Fixpoint for_of {S A} (l : list A) (body : A -> Js.M S unit) : Js.M S unit :=
  match l with
  | [] => Js.ret tt
  | x :: rest => body x ;;; for_of rest body
  end.

(** *** StringEater and its subclasses *)

Fixpoint StringEater_eat_loop (fuel : nat) (data : list Z)
  : Js.M BitBuf.t string :=
  match fuel with
  | O => Js.out_of_fuel
  | S fuel' =>
      octet <- BitBuf.readOctet ;;
      if negb (octet =? 0) then StringEater_eat_loop fuel' (data ++ [octet])
      else Js.ret (BitBuf.decode data)
  end.

Definition StringEater_eat : Js.M Eaters string :=
  on_bitbuf (fun b =>
    StringEater_eat_loop (S (BitBuf.octets_left b)) [] b).

Definition StringEater_dump (s : string) : Js.M Eaters unit :=
  on_bitbuf (BitBuf.writeString s ;;; BitBuf.writeOctet 0).

(** *** BlockType *)

Definition BlockType_eat : Js.M Eaters BlockKind :=
  b1 <- on_bitbuf BitBuf.readBit ;;
  b2 <- on_bitbuf BitBuf.readBit ;;
  if negb (b1 =? 0) then Js.ret KEnd
  else if negb (b2 =? 0) then Js.ret KMedia
  else Js.ret KRaw.

Definition BlockType_dump (type : BlockKind) : Js.M Eaters unit :=
  match type with
  | KEnd => on_bitbuf (BitBuf.push 1)
  | _ => on_bitbuf (BitBuf.push 0)
  end ;;;
  match type with
  | KMedia => on_bitbuf (BitBuf.push 1)
  | _ => on_bitbuf (BitBuf.push 0)
  end.

(** *** groupBlocks *)

(** [latest.rules.push(rule)] when [latest] is an empty-query media
    block: on an object of [blocks], or through it on the tree. *)
Definition push_to_latest (rule : Rule) (blocks : list Block) (ast : Ast)
  : option (list Block * Ast) :=
  match last blocks with
  | Some (BNew media rules) =>
      if String.eqb media "" then
        Some (removelast blocks ++ [BNew media (rules ++ [rule])], ast)
      else None
  | Some (BAst i) =>
      match ast !! i with
      | Some (AMedia media rules) =>
          if String.eqb media "" then
            Some (blocks, <[i := AMedia media (rules ++ [rule])]> ast)
          else None
      | _ => None
      end
  | _ => None
  end.

Definition groupBlocks_step (i : nat) (st : list Block * Ast)
  : list Block * Ast :=
  let '(blocks, ast) := st in
  match ast !! i with
  | Some (ARule rule) =>
      match push_to_latest rule blocks ast with
      | Some st' => st'
      | None => (blocks ++ [BNew "" [rule]], ast)
      end
  | Some (AMedia _ _) => (blocks ++ [BAst i], ast)
  | Some (AOther contents) =>
      if String.eqb contents "" then (blocks, ast)
      else (blocks ++ [BRaw contents], ast)
  | None => (blocks, ast)
  end.

(** The blocks, and the tree as the call leaves it. *)
Definition groupBlocks (ast : Ast) : list Block * Ast :=
  fold_left (fun st i => groupBlocks_step i st) (seq 0 (List.length ast)) ([], ast).

(** A block as the loops over [blocks] read it, after [groupBlocks] has
    returned. *)
Inductive BlockView : Type :=
| VMedia (media : string) (rules : list Rule)
| VRaw (contents : string).

Definition view (ast : Ast) (block : Block) : option BlockView :=
  match block with
  | BNew media rules => Some (VMedia media rules)
  | BRaw contents => Some (VRaw contents)
  | BAst i =>
      match ast !! i with
      | Some (AMedia media rules) => Some (VMedia media rules)
      | _ => None
      end
  end.

(** *** Prop *)

Definition Prop_loadFromAst (ast : Ast) : Js.M Eaters Ast :=
  let '(blocks, ast) := groupBlocks ast in
  for_of blocks (fun block =>
    match view ast block with
    | None => Js.throw Js.TypeError
    | Some (VMedia _ rules) =>
        for_of rules (fun rule =>
          for_of (declarations rule) (fun declaration =>
            match declaration with
            | DeclOther => Js.ret tt
            | Decl property _ => on_puffman (Puffman.see property)
            end) ;;;
          on_puffman (Puffman.see ESC))
    | Some (VRaw _) => Js.ret tt
    end) ;;;
  on_puffman Puffman.buildTree ;;;
  on_puffman Puffman.buildMapToBin ;;;
  Js.ret ast.

Definition Prop_loadFromPreamble (fuel : nat) : Js.M Eaters unit :=
  fun e =>
    let '(r, b) := Puffman.unserialize fuel (puffman e) (bitbuf e) in
    match r with
    | Js.Ok p => (Js.Ok tt, mkEaters b p)
    | Js.Throw err => (Js.Throw err, mkEaters b (puffman e))
    | Js.OutOfFuel => (Js.OutOfFuel, mkEaters b (puffman e))
    end.

Definition Prop_serializePreamble : Js.M Eaters unit :=
  tree <- Js.gets (fun e => Puffman.tree (puffman e)) ;;
  match tree with
  | None => Js.throw Js.TypeError
  | Some tree => on_bitbuf (Puffman.serialize tree)
  end.

(** [for (const bit of bin) push(bit === '1' ? 1 : 0)]. *)
Fixpoint push_bits (bin : string) : Js.M BitBuf.t unit :=
  match bin with
  | EmptyString => Js.ret tt
  | String bit rest =>
      BitBuf.push (if Ascii.eqb bit "1" then 1 else 0) ;;; push_bits rest
  end.

Definition Prop_dump (token : string) : Js.M Eaters unit :=
  bin <- Js.gets (fun e => Puffman.mapToBin (puffman e) !! token) ;;
  match bin with
  | None => Js.throw Js.TypeError
  | Some bin => on_bitbuf (push_bits bin)
  end.

Definition Prop_eat (fuel : nat) : Js.M Eaters string :=
  p <- Js.gets puffman ;;
  Puffman.findToken fuel (on_bitbuf BitBuf.readBit) p.

(** *** dump *)

Definition dump_rule (rule : Rule) : Js.M Eaters unit :=
  for_of (selectors rule) StringEater_dump ;;;
  StringEater_dump ESC ;;;
  for_of (declarations rule) (fun declaration =>
    match declaration with
    | DeclOther => Js.ret tt
    | Decl property value => Prop_dump property ;;; StringEater_dump value
    end) ;;;
  Prop_dump ESC.

Definition dump_block (ast : Ast) (block : Block) : Js.M Eaters unit :=
  match view ast block with
  | None => Js.throw Js.TypeError
  | Some (VMedia media rules) =>
      BlockType_dump KMedia ;;;
      StringEater_dump media ;;;
      for_of rules dump_rule ;;;
      StringEater_dump ESC
  | Some (VRaw contents) =>
      BlockType_dump KRaw ;;;
      StringEater_dump contents
  end.

(** The body of [dump], on the eaters [buildEaters] made; it returns the
    tree as the two calls of [groupBlocks] leave it. *)
Definition dump_with (ast : Ast) : Js.M Eaters Ast :=
  ast <- Prop_loadFromAst ast ;;
  Prop_serializePreamble ;;;
  let '(blocks, ast) := groupBlocks ast in
  for_of blocks (dump_block ast) ;;;
  BlockType_dump KEnd ;;;
  Js.ret ast.

Definition dump (ast : Ast) (bitbuf : BitBuf.t) : Js.Res Ast * BitBuf.t :=
  let '(r, e) := dump_with ast (buildEaters bitbuf) in (r, CssEater.bitbuf e).

(** *** restore *)

(** [while ((sel = selector.eat()) !== '\e') selectors.push(sel)]. *)
Fixpoint restore_selectors (fuel : nat) (selectors : list string)
  : Js.M Eaters (list string) :=
  match fuel with
  | O => Js.out_of_fuel
  | S fuel' =>
      sel <- StringEater_eat ;;
      if negb (String.eqb sel ESC) then restore_selectors fuel' (selectors ++ [sel])
      else Js.ret selectors
  end.

(** [while ((p = prop.eat()) !== '\e') props.push({p, v: value.eat()})]. *)
Fixpoint restore_props (fuel : nat) (props : list (string * string))
  : Js.M Eaters (list (string * string)) :=
  match fuel with
  | O => Js.out_of_fuel
  | S fuel' =>
      p <- Prop_eat (S fuel') ;;
      if negb (String.eqb p ESC) then
        v <- StringEater_eat ;;
        restore_props fuel' (props ++ [(p, v)])
      else Js.ret props
  end.

Definition rule_text (selectors : list string) (props : list (string * string))
  : string :=
  (Js.join ("," +:+ nl) selectors +:+ " {" +:+ nl) +:+
  (Js.join (";" +:+ nl) (map (fun '(p, v) => "  " +:+ p +:+ ": " +:+ v) props)
     +:+ ";") +:+
  (nl +:+ "}").

(** The [while (true)] loop over the rules of a media block. *)
Fixpoint restore_rules (fuel : nat) (rules : list string)
  : Js.M Eaters (list string) :=
  match fuel with
  | O => Js.out_of_fuel
  | S fuel' =>
      selectors <- restore_selectors (S fuel') [] ;;
      if (List.length selectors =? 0)%nat then Js.ret rules
      else
        props <- restore_props (S fuel') [] ;;
        restore_rules fuel' (rules ++ [rule_text selectors props])
  end.

Definition media_text (media : string) (rules : list string) : string :=
  let out := "" in
  let out := if String.eqb media "" then out
             else out +:+ ("@media " +:+ media +:+ " {" +:+ nl) in
  let out := out +:+ Js.join (nl +:+ nl) rules in
  if String.eqb media "" then out else out +:+ (nl +:+ "}" +:+ nl).

(** The [while (bitbuf.hasMore())] loop over the blocks. *)
Fixpoint restore_blocks (fuel : nat) (blocks : list string)
  : Js.M Eaters (list string) :=
  match fuel with
  | O => Js.out_of_fuel
  | S fuel' =>
      more <- Js.gets (fun e => BitBuf.hasMore (bitbuf e)) ;;
      if more then
        type <- BlockType_eat ;;
        match type with
        | KMedia =>
            media <- StringEater_eat ;;
            rules <- restore_rules (S fuel') [] ;;
            restore_blocks fuel' (blocks ++ [media_text media rules])
        | KRaw =>
            contents <- StringEater_eat ;;
            restore_blocks fuel' (blocks ++ [contents])
        | KEnd => Js.ret blocks
        end
      else Js.ret blocks
  end.

Definition restore_with (fuel : nat) : Js.M Eaters string :=
  Prop_loadFromPreamble fuel ;;;
  blocks <- restore_blocks fuel [] ;;
  Js.ret (Js.join nl blocks).

(** [fuel] bounds the depth of the preamble tree and the turns of each
    loop. *)
Definition restore (fuel : nat) (bitbuf : BitBuf.t) : Js.Res string * BitBuf.t :=
  let '(r, e) := restore_with fuel (buildEaters bitbuf) in (r, CssEater.bitbuf e).

End CssEater.

(** ** The command line tool *)

Module Cli.

(** [compress], from the tree [css.parse] made of the input file to the
    bytes written to the output file. *)
Definition compress (ast : CssEater.Ast) : Js.Res (list Z) :=
  let '(r, bitbuf) := CssEater.dump ast BitBuf.new in
  match r with
  | Js.Ok _ => Js.Ok (BitBuf.toBuffer bitbuf)
  | Js.Throw e => Js.Throw e
  | Js.OutOfFuel => Js.OutOfFuel
  end.

(** [decompress], from the bytes of the input file to the text written
    to the output file. *)
Definition decompress (fuel : nat) (content : list Z) : Js.Res string :=
  let '(_, bitbuf) := BitBuf.fromBuffer content BitBuf.new in
  (CssEater.restore fuel bitbuf).1.

End Cli.

(** * Vocabulary of the properties *)

(** ** The bits a buffer stores *)

(** Octet number [k] of the storage, 0 where no chunk holds it. *)
Definition stored_octet (chunks : list (list Z)) (k : Z) : Z :=
  match chunks !! Z.to_nat (k / 1024) with
  | Some c => default 0 (c !! Z.to_nat (k mod 1024))
  | None => 0
  end.

(** Bit number [j] of the storage. *)
Definition bit_at (b : BitBuf.t) (j : Z) : Z :=
  Z.b2z (Z.testbit (stored_octet (BitBuf.chunks b) (j / 8)) (j mod 8)).

Definition octets_ok (c : list Z) : Prop := Forall (fun o => 0 <= o < 256) c.

(** What every buffer satisfies, however it was filled: typed arrays hold
    octets, and the chunks reach the length. *)
Record readable (b : BitBuf.t) : Prop := mk_readable {
  rd_pos : 0 <= BitBuf.pos b;
  rd_octets : Forall octets_ok (BitBuf.chunks b);
  rd_cover : BitBuf.length b <= 8192 * Z.of_nat (List.length (BitBuf.chunks b))
}.

Definition chunk_ok (c : list Z) : Prop :=
  List.length c = 1024%nat /\ octets_ok c.

(** The buffers that [new BitBuf()], the writers and the readers produce:
    full chunks of octets that reach the written length, and no bit set
    beyond it. *)
Record wf (b : BitBuf.t) : Prop := mk_wf {
  wf_pos : 0 <= BitBuf.pos b;
  wf_length : 0 <= BitBuf.length b;
  wf_chunks : Forall chunk_ok (BitBuf.chunks b);
  wf_cover : BitBuf.length b <= 8192 * Z.of_nat (List.length (BitBuf.chunks b));
  wf_zero : forall j, BitBuf.length b <= j -> bit_at b j = 0
}.

(** The octet whose bits are the eight stored from bit [p] on, the first
    one lowest. *)
Definition octet_at (b : BitBuf.t) (p : Z) : Z :=
  fold_right (fun i acc => Z.lor (Z.shiftl (bit_at b (p + Z.of_nat i)) (Z.of_nat i)) acc)
             0 (seq 0 8).

(** ** Octets in the stream *)

(** The octets [l] are stored from bit [p] on, below the length. *)
Fixpoint octets_from (b : BitBuf.t) (p : Z) (l : list Z) : Prop :=
  match l with
  | [] => True
  | o :: rest =>
      p + 8 <= BitBuf.length b /\ octet_at b p = o /\ octets_from b (p + 8) rest
  end.

(** Writing a list of octets one after the other. *)
Fixpoint writeOctets (l : list Z) : Js.M BitBuf.t unit :=
  match l with
  | [] => Js.ret tt
  | o :: rest => BitBuf.writeOctet o ;;; writeOctets rest
  end.

(** The octets of the characters of a string. *)
Definition codes (s : string) : list Z := map Js.code (list_ascii_of_string s).

Definition is_octet (o : Z) : Prop := 0 <= o < 256.

(** ** Huffman trees *)

(** A token the preamble can carry: not empty, and none of its octets is
    one of the three reserved values. *)
Definition token_ok (tok : string) : Prop :=
  tok <> EmptyString /\
  Forall (fun o => o <> Puffman.NULL_NODE /\ o <> Puffman.NULL_TOKEN /\ o <> Puffman.SPLIT)
         (codes tok).

(** The trees whose internal nodes have no token and two children and
    whose leaves have a token satisfying [P] and no child. *)
Inductive shaped (P : string -> Prop) : Puffman.Node -> Prop :=
| shaped_leaf tok occ :
    P tok -> shaped P (Puffman.mkNode None None (Some tok) occ)
| shaped_internal l r occ :
    shaped P l -> shaped P r ->
    shaped P (Puffman.mkNode (Some l) (Some r) None occ).

Definition huffman_tree : Puffman.Node -> Prop := shaped token_ok.

(** The same tree without the occurrence counts, which the preamble does
    not carry. *)
Fixpoint forget_occurrences (n : Puffman.Node) : Puffman.Node :=
  let '(Puffman.mkNode l r tok _) := n in
  Puffman.mkNode
    (match l with Some l => Some (forget_occurrences l) | None => None end)
    (match r with Some r => Some (forget_occurrences r) | None => None end)
    tok 0.

Fixpoint depth (n : Puffman.Node) : nat :=
  let '(Puffman.mkNode l r _ _) := n in
  S (Nat.max (match l with Some l => depth l | None => 0%nat end)
             (match r with Some r => depth r | None => 0%nat end)).

(** The octets of the preamble of a tree. *)
Fixpoint preamble (n : Puffman.Node) : list Z :=
  let '(Puffman.mkNode l r tok _) := n in
  (match tok with None => [Puffman.NULL_TOKEN] | Some tok => codes tok end) ++
  [Puffman.SPLIT] ++
  (match l with
   | None => [Puffman.NULL_NODE] ++ [Puffman.SPLIT]
   | Some l => preamble l
   end) ++
  (match r with
   | None => [Puffman.NULL_NODE] ++ [Puffman.SPLIT]
   | Some r => preamble r
   end).

(** The computation [m] writes the octets [l] and does nothing else. *)
Definition writes (m : Js.M BitBuf.t unit) (l : list Z) : Prop :=
  forall b, m b = writeOctets l b.

(** ** Codes *)

(** The pairs of token and bit string that [walk] records, in its
    order. *)
Fixpoint walk_codes (n : Puffman.Node) (prefix : string) : list (string * string) :=
  let '(Puffman.mkNode l r tok _) := n in
  match tok with
  | Some tok => [(tok, prefix)]
  | None =>
      (match l with Some l => walk_codes l (prefix +:+ "0") | None => [] end) ++
      (match r with Some r => walk_codes r (prefix +:+ "1") | None => [] end)
  end.

(** The tokens at the leaves. *)
Fixpoint leaf_tokens (n : Puffman.Node) : list string :=
  let '(Puffman.mkNode l r tok _) := n in
  match tok with
  | Some tok => [tok]
  | None =>
      (match l with Some l => leaf_tokens l | None => [] end) ++
      (match r with Some r => leaf_tokens r | None => [] end)
  end.

(** [c1] is a prefix of [c2]; every string is a prefix of itself. *)
Definition is_prefix (c1 c2 : string) : Prop := exists s, c2 = c1 +:+ s.

Definition full_tree : Puffman.Node -> Prop := shaped (fun _ => True).

(** Recording a list of codes in the map, as the assignments of [walk]
    do. *)
Definition record_codes (m : gmap string string) (l : list (string * string))
  : gmap string string :=
  foldl (fun m kv => <[kv.1 := kv.2]> m) m l.

(** ** Bits in the stream *)

(** The bits [l] are stored from bit [p] on, below the length. *)
Fixpoint bits_from (b : BitBuf.t) (p : Z) (l : list Z) : Prop :=
  match l with
  | [] => True
  | x :: rest =>
      p + 1 <= BitBuf.length b /\ bit_at b p = x /\ bits_from b (p + 1) rest
  end.

(** Pushing a list of bits one after the other. *)
Fixpoint pushBits (l : list Z) : Js.M BitBuf.t unit :=
  match l with
  | [] => Js.ret tt
  | x :: rest => BitBuf.push x ;;; pushBits rest
  end.

(** The eight bits of an octet, the lowest first. *)
Definition octet_bits (o : Z) : list Z :=
  map (fun i => Z.b2z (Z.testbit o (Z.of_nat i))) (seq 0 8).

(** ** Observations and weights *)

(** [see] called on every token of a list, the first one first. *)
Definition see_all (tokens : list string) : Js.M Puffman.t unit :=
  CssEater.for_of tokens Puffman.see.

(** How often a token occurs in a list. *)
Fixpoint occurrences_of (tok : string) (tokens : list string) : Z :=
  match tokens with
  | [] => 0
  | t :: rest =>
      (if String.eqb t tok then 1 else 0) + occurrences_of tok rest
  end.

(** Every internal node counts what its two children count. *)
Inductive weighted : Puffman.Node -> Prop :=
| weighted_leaf tok occ : weighted (Puffman.mkNode None None (Some tok) occ)
| weighted_internal l r occ :
    weighted l -> weighted r ->
    occ = Puffman.occurrences l + Puffman.occurrences r ->
    weighted (Puffman.mkNode (Some l) (Some r) None occ).

Definition sum_occurrences (base : list Puffman.Node) : Z :=
  foldr Z.add 0 (map Puffman.occurrences base).

(** The counts at the leaves of a tree, added up. *)
Fixpoint leaf_weight (n : Puffman.Node) : Z :=
  let '(Puffman.mkNode l r tok occ) := n in
  match tok with
  | Some _ => occ
  | None =>
      (match l with Some l => leaf_weight l | None => 0 end) +
      (match r with Some r => leaf_weight r | None => 0 end)
  end.

(** The bits [Prop.dump] pushes for a code: 1 for the character [1], 0 for
    any other. *)
Definition code_bits (c : string) : list Z :=
  map (fun bit => if Ascii.eqb bit "1" then 1 else 0) (list_ascii_of_string c).

(** The bits of a list of octets. *)
Definition octets_bits (l : list Z) : list Z := concat (map octet_bits l).

(** The computation [m] of the codec pushes the bits [bits] and does
    nothing else, when the coder of [Prop] is [P]. *)
Definition emits (P : Puffman.t) (m : Js.M CssEater.Eaters unit) (bits : list Z)
  : Prop :=
  forall b,
    m (CssEater.mkEaters b P)
    = let '(r, b') := pushBits bits b in (r, CssEater.mkEaters b' P).

(** The computation [m] of the codec, when the coder of [Prop] is [P] and
    the bits [bits] are stored from the read position on, returns [x],
    moves the read position behind these bits and does nothing else. *)
Definition parses {A} (P : Puffman.t) (m : Js.M CssEater.Eaters A)
    (bits : list Z) (x : A) : Prop :=
  forall b rest,
    readable b -> bits_from b (BitBuf.pos b) (bits ++ rest) ->
    m (CssEater.mkEaters b P)
    = (Js.Ok x,
       CssEater.mkEaters
         (BitBuf.set_pos (BitBuf.pos b + Z.of_nat (List.length bits)) b) P).

(** The two bits of a block type. *)
Definition kind_bits (type : CssEater.BlockKind) : list Z :=
  match type with
  | CssEater.KEnd => [1; 0]
  | CssEater.KMedia => [0; 1]
  | CssEater.KRaw => [0; 0]
  end.

(** A string without the character of code 0. *)
Definition no_nul (s : string) : Prop := Forall (fun o => o <> 0) (codes s).

(** ** Blocks *)

(** A block of an empty media query, which holds plain rules. *)
Definition is_blank (v : CssEater.BlockView) : bool :=
  match v with
  | CssEater.VMedia media _ => String.eqb media ""
  | CssEater.VRaw _ => false
  end.

(** The blocks of a list of nodes: a rule joins the block before it when
    that block has the empty query, and opens such a block otherwise. *)
Definition group_step (views : list CssEater.BlockView) (node : CssEater.AstNode)
  : list CssEater.BlockView :=
  match node with
  | CssEater.ARule rule =>
      match last views with
      | Some (CssEater.VMedia media rules) =>
          if String.eqb media "" then
            removelast views ++ [CssEater.VMedia media (rules ++ [rule])]
          else views ++ [CssEater.VMedia "" [rule]]
      | _ => views ++ [CssEater.VMedia "" [rule]]
      end
  | CssEater.AMedia media rules => views ++ [CssEater.VMedia media rules]
  | CssEater.AOther contents =>
      if String.eqb contents "" then views
      else views ++ [CssEater.VRaw contents]
  end.

Definition group (ast : CssEater.Ast) : list CssEater.BlockView :=
  fold_left group_step ast [].

(** The nodes a block stands for. *)
Definition nodes_of (v : CssEater.BlockView) : list CssEater.AstNode :=
  match v with
  | CssEater.VMedia media rules =>
      if String.eqb media "" then map CssEater.ARule rules
      else [CssEater.AMedia media rules]
  | CssEater.VRaw contents => [CssEater.AOther contents]
  end.

(** The nodes that get a block: all but those rendered to nothing. *)
Definition kept (node : CssEater.AstNode) : bool :=
  match node with
  | CssEater.AOther contents => negb (String.eqb contents "")
  | _ => true
  end.

(** No two blocks of the empty query follow each other. *)
Fixpoint separated (views : list CssEater.BlockView) : Prop :=
  match views with
  | [] => True
  | v1 :: rest =>
      match rest with
      | [] => True
      | v2 :: _ => is_blank v1 && is_blank v2 = false
      end /\ separated rest
  end.

(** ** Style sheets *)

(** The pairs of property and value of the [declaration] nodes of a list
    of declarations. *)
Definition decl_props (declarations : list CssEater.Declaration)
  : list (string * string) :=
  flat_map (fun declaration =>
              match declaration with
              | CssEater.Decl property value => [(property, value)]
              | CssEater.DeclOther => []
              end) declarations.

Definition props (rule : CssEater.Rule) : list (string * string) :=
  decl_props (CssEater.declarations rule).

(** The tokens [loadFromAst] observes for a rule. *)
Definition rule_tokens (rule : CssEater.Rule) : list string :=
  map fst (props rule) ++ [CssEater.ESC].

Definition view_rules (v : CssEater.BlockView) : list CssEater.Rule :=
  match v with
  | CssEater.VMedia _ rules => rules
  | CssEater.VRaw _ => []
  end.

Definition tokens_of (views : list CssEater.BlockView) : list string :=
  flat_map rule_tokens (flat_map view_rules views).

Definition node_rules (node : CssEater.AstNode) : list CssEater.Rule :=
  match node with
  | CssEater.ARule rule => [rule]
  | CssEater.AMedia _ rules => rules
  | CssEater.AOther _ => []
  end.

(** The rules of a tree, those of its media nodes included. *)
Definition ast_rules (ast : CssEater.Ast) : list CssEater.Rule :=
  flat_map node_rules ast.

(** What [dump] writes for a block. *)
Definition dump_view (v : CssEater.BlockView) : Js.M CssEater.Eaters unit :=
  match v with
  | CssEater.VMedia media rules =>
      CssEater.BlockType_dump CssEater.KMedia ;;;
      CssEater.StringEater_dump media ;;;
      CssEater.for_of rules CssEater.dump_rule ;;;
      CssEater.StringEater_dump CssEater.ESC
  | CssEater.VRaw contents =>
      CssEater.BlockType_dump CssEater.KRaw ;;;
      CssEater.StringEater_dump contents
  end.

(** The text [restore] builds for a rule, a block and a style sheet. *)
Definition rule_css (rule : CssEater.Rule) : string :=
  CssEater.rule_text (CssEater.selectors rule) (props rule).

Definition block_css (v : CssEater.BlockView) : string :=
  match v with
  | CssEater.VMedia media rules => CssEater.media_text media (map rule_css rules)
  | CssEater.VRaw contents => contents
  end.

Definition stylesheet_css (ast : CssEater.Ast) : string :=
  Js.join CssEater.nl (map block_css (group ast)).

(** The style sheets the codec carries: no string holds the character of
    code 0, no selector and no property is the escape token, a property
    can stand in the preamble, and every rule has a selector. *)
Definition selector_ok (s : string) : Prop := no_nul s /\ s <> CssEater.ESC.

Definition decl_ok (declaration : CssEater.Declaration) : Prop :=
  match declaration with
  | CssEater.Decl property value =>
      token_ok property /\ property <> CssEater.ESC /\ no_nul value
  | CssEater.DeclOther => True
  end.

Definition rule_ok (rule : CssEater.Rule) : Prop :=
  CssEater.selectors rule <> [] /\
  Forall selector_ok (CssEater.selectors rule) /\
  Forall decl_ok (CssEater.declarations rule).

Definition node_ok (node : CssEater.AstNode) : Prop :=
  match node with
  | CssEater.ARule rule => rule_ok rule
  | CssEater.AMedia media rules => no_nul media /\ Forall rule_ok rules
  | CssEater.AOther contents => no_nul contents
  end.

Definition view_ok (v : CssEater.BlockView) : Prop :=
  match v with
  | CssEater.VMedia media rules => no_nul media /\ Forall rule_ok rules
  | CssEater.VRaw contents => no_nul contents
  end.

(** The token has a code in the map of [P], which is a code of the
    tree [t]. *)
Definition coded (P : Puffman.t) (t : Puffman.Node) (tok : string) : Prop :=
  exists c, Puffman.mapToBin P !! tok = Some c /\ (tok, c) ∈ walk_codes t "".

(** What the writer [w] pushes when the coder is [P], the reader [r]
    reads back as [x] when the coder is [P'], in as many turns as there
    are bits. *)
Definition round_trips {A} (P P' : Puffman.t) (w : Js.M CssEater.Eaters unit)
    (r : nat -> Js.M CssEater.Eaters A) (x : A) : Prop :=
  exists bits,
    bits <> [] /\ Forall (fun x => 0 <= x <= 1) bits /\ emits P w bits /\
    forall fuel, (List.length bits <= fuel)%nat -> parses P' (r fuel) bits x.

(** ** Reading *)

(** The outcome of a reader on the buffer [b]: not the end of the fuel,
    and, when it is a value, a buffer that differs from [b] in the read
    position only, which moved by [k] bits at least and not behind the
    end. *)
Definition reads {A} (k : Z) (b : BitBuf.t) (out : Js.Res A * BitBuf.t) : Prop :=
  out.1 <> Js.OutOfFuel /\
  forall x, out.1 = Js.Ok x ->
    exists q, out.2 = BitBuf.set_pos q b /\
              BitBuf.pos b + k <= q <= BitBuf.length b.

(** The same for a reader of the codec, which leaves the coder [P]. *)
Definition reads_on {A} (k : Z) (b : BitBuf.t) (P : Puffman.t)
    (out : Js.Res A * CssEater.Eaters) : Prop :=
  out.1 <> Js.OutOfFuel /\
  forall x, out.1 = Js.Ok x ->
    exists q, out.2 = CssEater.mkEaters (BitBuf.set_pos q b) P /\
              BitBuf.pos b + k <= q <= BitBuf.length b.

(** More fuel than unread bits, and some. *)
Definition enough (fuel : nat) (b : BitBuf.t) : Prop :=
  Z.max 0 (BitBuf.length b - BitBuf.pos b) < Z.of_nat fuel.

(** ** Keys and texts the model is exact for *)

(** The names [Object.prototype] defines: on an object made with [{}]
    these are not free keys. *)
Definition prototype_names : list string :=
  ["constructor"; "__defineGetter__"; "__defineSetter__"; "hasOwnProperty";
   "__lookupGetter__"; "__lookupSetter__"; "isPrototypeOf";
   "propertyIsEnumerable"; "toString"; "valueOf"; "__proto__";
   "toLocaleString"]%string.

Definition is_digit (c : ascii) : bool :=
  (48 <=? Js.code c) && (Js.code c <=? 57).

(** A key a plain object keeps as a map does, in the order of the first
    assignment: no name of [Object.prototype], and no digit in front, so
    that it is no array index, which [Object.keys] would list first. *)
Definition plain_key (tok : string) : Prop :=
  (tok ∉ prototype_names) /\
  match tok with
  | EmptyString => True
  | String c _ => is_digit c = false
  end.

(** An octet that is one character of ASCII, for which UTF-8 decoding
    gives that character. *)
Definition ascii_octet (o : Z) : Prop := o < 128.

(** A text of ASCII characters without the character of code 0. *)
Definition ascii_text (s : string) : Prop :=
  Forall (fun o => o <> 0 /\ ascii_octet o) (codes s).

(** The style sheets the round trip is stated for: rules and other
    nodes at the top level and no media node, texts of ASCII, properties
    that are plain keys. *)
Definition plain_decl (declaration : CssEater.Declaration) : Prop :=
  match declaration with
  | CssEater.Decl property value =>
      token_ok property /\ plain_key property /\ ascii_text property /\
      property <> CssEater.ESC /\ ascii_text value
  | CssEater.DeclOther => True
  end.

Definition plain_rule (rule : CssEater.Rule) : Prop :=
  CssEater.selectors rule <> [] /\
  Forall (fun s => ascii_text s /\ s <> CssEater.ESC) (CssEater.selectors rule) /\
  Forall plain_decl (CssEater.declarations rule).

Definition plain_node (node : CssEater.AstNode) : Prop :=
  match node with
  | CssEater.ARule rule => plain_rule rule
  | CssEater.AMedia _ _ => False
  | CssEater.AOther contents => ascii_text contents
  end.

(** * Properties *)

(** Comparisons of the code, as propositions for [lia]. *)
Ltac bools :=
  repeat match goal with
  | H : (_ <=? _) = true |- _ => apply Z.leb_le in H
  | H : (_ <=? _) = false |- _ => apply Z.leb_gt in H
  | H : (_ <? _) = true |- _ => apply Z.ltb_lt in H
  | H : (_ <? _) = false |- _ => apply Z.ltb_ge in H
  | H : (_ =? _) = true |- _ => apply Z.eqb_eq in H
  | H : (_ =? _) = false |- _ => apply Z.eqb_neq in H
  | H : (_ >? _) = true |- _ => rewrite Z.gtb_ltb in H
  | H : (_ >? _) = false |- _ => rewrite Z.gtb_ltb in H
  end.

Ltac blia := bools; lia.

(** ** Bitwise operators on small operands *)

Section JsFacts.

Lemma to_int32_small (z : Z) : - 2 ^ 31 <= z < 2 ^ 31 -> Js.to_int32 z = z.
Proof.
  intros H. unfold Js.to_int32.
  rewrite Z.mod_small; lia.
Qed.

Lemma land_31_small (n : Z) : 0 <= n < 32 -> Z.land n 31 = n.
Proof.
  intros H. change 31 with (Z.ones 5).
  rewrite Z.land_ones by lia. apply Z.mod_small. simpl. lia.
Qed.

Lemma shr_small (a n : Z) :
  - 2 ^ 31 <= a < 2 ^ 31 -> 0 <= n < 32 -> Js.shr a n = Z.shiftr a n.
Proof.
  intros Ha Hn. unfold Js.shr.
  rewrite (to_int32_small a), (to_int32_small n) by lia.
  now rewrite land_31_small.
Qed.

Lemma to_int32_mod2 (z : Z) : Js.to_int32 z mod 2 = z mod 2.
Proof.
  unfold Js.to_int32.
  Z.to_euclidean_division_equations. lia.
Qed.

Lemma and_1 (x : Z) : Js.and x 1 = x mod 2.
Proof.
  unfold Js.and. rewrite (to_int32_small 1) by lia.
  change 1 with (Z.ones 1). rewrite Z.land_ones by lia.
  change (2 ^ 1) with 2. apply to_int32_mod2.
Qed.

Lemma testbit_mod2 (x : Z) : Z.b2z (Z.testbit x 0) = x mod 2.
Proof. apply Z.bit0_mod. Qed.

End JsFacts.

(** ** The storage of the buffer *)

Section Storage.

Lemma getCoordinates_eq (i : Z) :
  0 <= i -> BitBuf.getCoordinates i = (i / 8 / 1024, (i / 8) mod 1024, i mod 8).
Proof.
  intros Hi. unfold BitBuf.getCoordinates, BitBuf.CHUNK_SIZE, BitBuf.OCTET_SIZE.
  change (1024 * 8) with (8 * 1024). rewrite <- Z.div_div by lia.
  repeat f_equal; Z.to_euclidean_division_equations; lia.
Qed.

Lemma stored_octet_range (chunks : list (list Z)) (k : Z) :
  Forall octets_ok chunks -> 0 <= stored_octet chunks k < 256.
Proof.
  intros Hc. unfold stored_octet.
  destruct (chunks !! Z.to_nat (k / 1024)) as [c|] eqn:E; [|lia].
  destruct (c !! Z.to_nat (k mod 1024)) as [o|] eqn:E'; simpl; [|lia].
  eapply Forall_lookup_1 in E; [|exact Hc].
  eapply Forall_lookup_1 in E'; [|exact E]. exact E'.
Qed.

Lemma chunks_octets_ok (chunks : list (list Z)) :
  Forall chunk_ok chunks -> Forall octets_ok chunks.
Proof. intros H. eapply Forall_impl; [exact H|]. now intros c [_ Hc]. Qed.

Lemma wf_readable (b : BitBuf.t) : wf b -> readable b.
Proof.
  intros [Hp Hl Hc Hcov Hz]. split; [exact Hp| |exact Hcov].
  now apply chunks_octets_ok.
Qed.

Lemma bit_at_range (b : BitBuf.t) (j : Z) : 0 <= bit_at b j <= 1.
Proof. unfold bit_at. destruct (Z.testbit _ _); simpl; lia. Qed.

Lemma get_bit (o k : Z) :
  0 <= o < 256 -> 0 <= k < 8 ->
  Js.and (Js.shr o k) 1 = Z.b2z (Z.testbit o k).
Proof.
  intros Ho Hk. rewrite and_1, shr_small by lia.
  rewrite <- testbit_mod2, Z.shiftr_spec by lia. reflexivity.
Qed.

Lemma set_chunks_id (b : BitBuf.t) :
  BitBuf.set_chunks (BitBuf.chunks b ++ []) b = b.
Proof. destruct b. unfold BitBuf.set_chunks. simpl. now rewrite app_nil_r. Qed.

Lemma get_ok (b : BitBuf.t) (j : Z) :
  readable b -> 0 <= j < BitBuf.length b ->
  BitBuf.get j b = (Js.Ok (bit_at b j), b).
Proof.
  intros [Hp Hc Hcov] Hj.
  unfold BitBuf.get, Js.bind, Js.gets.
  destruct (j + 1 >? BitBuf.length b) eqn:E; [lia|].
  rewrite getCoordinates_eq by lia.
  unfold BitBuf.getChunk.
  assert (Hlt : (Z.to_nat (j / 8 / 1024) < List.length (BitBuf.chunks b))%nat).
  { apply Nat2Z.inj_lt. rewrite Z2Nat.id by (Z.to_euclidean_division_equations; lia).
    Z.to_euclidean_division_equations; lia. }
  replace (Z.to_nat (j / 8 / 1024 + 1 - Z.of_nat (List.length (BitBuf.chunks b))))
    with 0%nat by lia.
  simpl replicate. rewrite !set_chunks_id.
  unfold Js.index. destruct (j / 8 / 1024 <? 0) eqn:E2;
    [Z.to_euclidean_division_equations; lia|].
  destruct (lookup_lt_is_Some_2 _ _ Hlt) as [c Hcl].
  rewrite Hcl. unfold Js.ret. f_equal. f_equal.
  unfold bit_at, stored_octet. rewrite Hcl.
  unfold BitBuf.octet_of, Js.index.
  destruct ((j / 8) mod 1024 <? 0) eqn:E3;
    [Z.to_euclidean_division_equations; lia|].
  apply get_bit.
  - pose proof (stored_octet_range (BitBuf.chunks b) (j / 8) Hc) as Hr.
    unfold stored_octet in Hr. now rewrite Hcl in Hr.
  - Z.to_euclidean_division_equations; lia.
Qed.

Lemma new_chunk_ok : chunk_ok BitBuf.new_chunk.
Proof.
  split.
  - unfold BitBuf.new_chunk. now rewrite length_replicate.
  - unfold BitBuf.new_chunk. apply Forall_replicate. lia.
Qed.

Lemma new_chunk_lookup (m : nat) : default 0 (BitBuf.new_chunk !! m) = 0.
Proof.
  destruct (BitBuf.new_chunk !! m) as [o|] eqn:E; [|reflexivity].
  unfold BitBuf.new_chunk in E. apply lookup_replicate in E as [-> _]. reflexivity.
Qed.

(** Growing the array by fresh chunks stores nothing. *)
Lemma stored_octet_grow (chunks : list (list Z)) (m : nat) (k : Z) :
  stored_octet (chunks ++ replicate m BitBuf.new_chunk) k = stored_octet chunks k.
Proof.
  unfold stored_octet.
  destruct (decide (Z.to_nat (k / 1024) < List.length chunks)%nat) as [Hlt|Hge].
  - now rewrite lookup_app_l.
  - rewrite lookup_app_r by lia.
    rewrite (lookup_ge_None_2 chunks) by lia.
    destruct (replicate m BitBuf.new_chunk !! _) as [c|] eqn:E; [|reflexivity].
    apply lookup_replicate in E as [-> _]. apply new_chunk_lookup.
Qed.

Lemma grow_ok (chunks : list (list Z)) (m : nat) :
  Forall chunk_ok chunks -> Forall chunk_ok (chunks ++ replicate m BitBuf.new_chunk).
Proof.
  intros H. apply Forall_app. split; [exact H|].
  apply Forall_replicate, new_chunk_ok.
Qed.

(** The store of [push]: octet [k] changes, no other does. *)
Lemma stored_octet_store (chunks : list (list Z)) (chunk : list Z) (k v k' : Z) :
  0 <= k -> 0 <= k' ->
  chunks !! Z.to_nat (k / 1024) = Some chunk ->
  List.length chunk = 1024%nat ->
  stored_octet
    (Js.store chunks (k / 1024) (Js.store chunk (k mod 1024) v)) k'
  = if k' =? k then v else stored_octet chunks k'.
Proof.
  intros Hk Hk' Hc Hlen. unfold Js.store.
  destruct (k / 1024 <? 0) eqn:E1; [Z.to_euclidean_division_equations; lia|].
  destruct (k mod 1024 <? 0) eqn:E2; [Z.to_euclidean_division_equations; lia|].
  unfold stored_octet.
  pose proof (lookup_lt_Some _ _ _ Hc) as Hlt.
  destruct (decide (k' / 1024 = k / 1024)) as [Heq|Hne].
  - rewrite Heq, list_lookup_insert_eq by exact Hlt. rewrite Hc.
    destruct (decide (k' mod 1024 = k mod 1024)) as [Heq'|Hne'].
    + rewrite Heq', list_lookup_insert_eq
        by (rewrite Hlen; Z.to_euclidean_division_equations; lia).
      replace (k' =? k) with true
        by (symmetry; apply Z.eqb_eq; Z.to_euclidean_division_equations; lia).
      reflexivity.
    + rewrite list_lookup_insert_ne
        by (intros Hx; apply Hne'; apply Z2Nat.inj in Hx;
            Z.to_euclidean_division_equations; lia).
      replace (k' =? k) with false
        by (symmetry; apply Z.eqb_neq; congruence).
      reflexivity.
  - rewrite list_lookup_insert_ne
      by (intros Hx; apply Hne; apply Z2Nat.inj in Hx;
          Z.to_euclidean_division_equations; lia).
    replace (k' =? k) with false
      by (symmetry; apply Z.eqb_neq; congruence).
    reflexivity.
Qed.

Lemma store_ok (chunks : list (list Z)) (chunk : list Z) (ci oi v : Z) :
  Forall chunk_ok chunks -> chunk_ok chunk -> 0 <= v < 256 ->
  Forall chunk_ok (Js.store chunks ci (Js.store chunk oi v)).
Proof.
  intros Hc [Hlen Hr] Hv. unfold Js.store.
  destruct (ci <? 0); [exact Hc|].
  apply Forall_insert; [exact Hc|].
  destruct (oi <? 0); [now split|].
  split; [now rewrite length_insert|].
  apply Forall_insert; [exact Hr|exact Hv].
Qed.

Lemma store_length {A} (l : list A) (i : Z) (x : A) :
  List.length (Js.store l i x) = List.length l.
Proof. unfold Js.store. destruct (i <? 0); [reflexivity|apply length_insert]. Qed.

Lemma testbit_small_high (o i : Z) : 0 <= o < 256 -> 8 <= i -> Z.testbit o i = false.
Proof.
  intros Ho Hi. rewrite <- (Z.mod_small o (2 ^ 8)) by (simpl; lia).
  apply Z.mod_pow2_bits_high. lia.
Qed.

Lemma testbit_bit (bit m : Z) :
  0 <= bit <= 1 -> Z.testbit bit m = (m =? 0) && (bit =? 1).
Proof.
  intros Hb. assert (bit = 0 \/ bit = 1) as [-> | ->] by lia.
  - rewrite Z.bits_0. now destruct (m =? 0).
  - destruct (m =? 0) eqn:E.
    + apply Z.eqb_eq in E. now subst.
    + apply Z.eqb_neq in E. simpl.
      destruct (Z.lt_ge_cases m 0) as [Hn|Hp]; [now apply Z.testbit_neg_r|].
      change 1 with (Z.ones 1). apply Z.ones_spec_high. lia.
Qed.

(** Or-ing one shifted bit into an octet stays within the octet. *)
Lemma or_shl_bit (o bit k : Z) :
  0 <= o < 256 -> 0 <= bit <= 1 -> 0 <= k < 8 ->
  Js.or o (Js.shl bit k) = Z.lor o (Z.shiftl bit k) /\
  0 <= Z.lor o (Z.shiftl bit k) < 256.
Proof.
  intros Ho Hb Hk.
  assert (Hs : 0 <= Z.shiftl bit k < 256).
  { rewrite Z.shiftl_mul_pow2 by lia.
    assert (0 < 2 ^ k <= 2 ^ 7) by (split; [apply Z.pow_pos_nonneg|apply Z.pow_le_mono_r]; lia).
    change (2 ^ 7) with 128 in *. nia. }
  unfold Js.shl, Js.or.
  rewrite (to_int32_small bit), (to_int32_small k), land_31_small by lia.
  rewrite (to_int32_small (Z.shiftl _ _)), (to_int32_small o) by lia.
  rewrite (to_int32_small (Z.shiftl _ _)) by lia.
  split; [reflexivity|].
  assert (Hm : Z.lor o (Z.shiftl bit k) mod 2 ^ 8 = Z.lor o (Z.shiftl bit k)).
  { apply Z.bits_inj'. intros i Hi.
    destruct (Z.lt_ge_cases i 8) as [Hlt|Hge].
    - now rewrite Z.mod_pow2_bits_low by lia.
    - rewrite Z.mod_pow2_bits_high by lia.
      rewrite Z.lor_spec, !testbit_small_high by lia. reflexivity. }
  rewrite <- Hm. apply Z.mod_pos_bound. reflexivity.
Qed.

(** The octet [push] stores: the old one with bit [k] or-ed in. *)
Lemma push_value (o x k : Z) :
  0 <= o < 256 -> 0 <= k < 8 ->
  let v := Js.or o (Js.shl (Js.and x 1) k) in
  v = Z.lor o (Z.shiftl (x mod 2) k) /\ 0 <= v < 256.
Proof.
  intros Ho Hk v. subst v. rewrite and_1.
  assert (Hb : 0 <= x mod 2 <= 1) by (Z.to_euclidean_division_equations; lia).
  destruct (or_shl_bit o (x mod 2) k Ho Hb Hk) as [-> Hr]. now split.
Qed.

Lemma push_value_bit (o x k i : Z) :
  0 <= k -> 0 <= i ->
  Z.testbit (Z.lor o (Z.shiftl (x mod 2) k)) i
  = Z.testbit o i || ((i =? k) && (x mod 2 =? 1)).
Proof.
  intros Hk Hi.
  assert (Hb : 0 <= x mod 2 <= 1) by (Z.to_euclidean_division_equations; lia).
  rewrite Z.lor_spec, Z.shiftl_spec, (testbit_bit (x mod 2)) by lia.
  f_equal. f_equal.
  destruct (i =? k) eqn:E; [apply Z.eqb_eq in E|apply Z.eqb_neq in E].
  - apply Z.eqb_eq. lia.
  - apply Z.eqb_neq. lia.
Qed.

(** [push] on a well-formed buffer: it appends the lowest bit of its
    argument and changes no stored bit. *)
Lemma push_spec (x : Z) (b : BitBuf.t) :
  wf b ->
  exists b', BitBuf.push x b = (Js.Ok tt, b') /\ wf b' /\
    BitBuf.length b' = BitBuf.length b + 1 /\ BitBuf.pos b' = BitBuf.pos b /\
    forall j, 0 <= j ->
      bit_at b' j = if j =? BitBuf.length b then x mod 2 else bit_at b j.
Proof.
  intros [Hp Hl Hc Hcov Hz].
  unfold BitBuf.push, Js.bind, Js.gets.
  rewrite getCoordinates_eq by lia.
  unfold BitBuf.getChunk.
  set (len := BitBuf.length b) in *.
  set (missing := Z.to_nat (len / 8 / 1024 + 1 - Z.of_nat (List.length (BitBuf.chunks b)))).
  set (chunks' := BitBuf.chunks b ++ replicate missing BitBuf.new_chunk).
  assert (Hc' : Forall chunk_ok chunks') by now apply grow_ok.
  assert (Hci : 0 <= len / 8 / 1024) by (Z.to_euclidean_division_equations; lia).
  assert (Hlt : (Z.to_nat (len / 8 / 1024) < List.length chunks')%nat).
  { subst chunks' missing. rewrite length_app, length_replicate. lia. }
  destruct (lookup_lt_is_Some_2 _ _ Hlt) as [chunk Hchunk].
  assert (Hok : chunk_ok chunk) by (eapply Forall_lookup_1; eauto).
  change (BitBuf.chunks (BitBuf.set_chunks chunks' b)) with chunks'.
  unfold Js.index. destruct (len / 8 / 1024 <? 0) eqn:E; [lia|].
  rewrite Hchunk. unfold Js.modify.
  set (o := BitBuf.octet_of chunk ((len / 8) mod 1024)).
  assert (Ho : o = stored_octet (BitBuf.chunks b) (len / 8)).
  { rewrite <- (stored_octet_grow _ missing). fold chunks'.
    unfold stored_octet. rewrite Hchunk. subst o.
    unfold BitBuf.octet_of, Js.index.
    destruct ((len / 8) mod 1024 <? 0) eqn:E2;
      [Z.to_euclidean_division_equations; lia|reflexivity]. }
  assert (Hor : 0 <= o < 256)
    by (rewrite Ho; now apply stored_octet_range, chunks_octets_ok).
  assert (Hk : 0 <= len mod 8 < 8) by (Z.to_euclidean_division_equations; lia).
  destruct (push_value o x (len mod 8) Hor Hk) as [Hv Hvr].
  rewrite (Z.mod_small _ 256) by exact Hvr.
  set (v := Js.or o (Js.shl (Js.and x 1) (len mod 8))) in *.
  change (BitBuf.chunks (BitBuf.set_chunks chunks' b)) with chunks'.
  set (chunks'' := Js.store chunks' (len / 8 / 1024)
                     (Js.store chunk ((len / 8) mod 1024) v)).
  assert (Hoct : forall k', 0 <= k' ->
            stored_octet chunks'' k'
            = if k' =? len / 8 then v else stored_octet (BitBuf.chunks b) k').
  { intros k' Hk'. subst chunks''.
    rewrite stored_octet_store;
      [|Z.to_euclidean_division_equations; lia|exact Hk'|exact Hchunk|apply Hok].
    subst chunks'. now rewrite stored_octet_grow. }
  eexists. split; [reflexivity|].
  assert (Hbits : forall j, 0 <= j ->
            bit_at (BitBuf.mk chunks'' (len + 1) (BitBuf.pos b)) j
            = if j =? len then x mod 2 else bit_at b j).
  { intros j Hj. unfold bit_at. simpl BitBuf.chunks.
    rewrite Hoct by (Z.to_euclidean_division_equations; lia).
    destruct (j / 8 =? len / 8) eqn:E8;
      [apply Z.eqb_eq in E8|apply Z.eqb_neq in E8].
    - rewrite Hv, push_value_bit by (Z.to_euclidean_division_equations; lia).
      destruct (j =? len) eqn:Ej; [apply Z.eqb_eq in Ej|apply Z.eqb_neq in Ej].
      + subst j. rewrite Z.eqb_refl.
        pose proof (Hz len ltac:(lia)) as Hz0. unfold bit_at in Hz0.
        rewrite <- Ho in Hz0.
        destruct (Z.testbit o (len mod 8)); [discriminate|].
        assert (x mod 2 = 0 \/ x mod 2 = 1) as [-> | ->]
          by (Z.to_euclidean_division_equations; lia); reflexivity.
      + replace (j mod 8 =? len mod 8) with false
          by (symmetry; apply Z.eqb_neq; Z.to_euclidean_division_equations; lia).
        rewrite E8, <- Ho. simpl. now rewrite orb_false_r.
    - replace (j =? len) with false
        by (symmetry; apply Z.eqb_neq; intros ->; now apply E8).
      reflexivity. }
  split; [|split; [reflexivity|split; [reflexivity|exact Hbits]]].
  split; simpl.
  - exact Hp.
  - lia.
  - now apply store_ok.
  - subst chunks''. rewrite store_length. subst chunks' missing.
    rewrite length_app, length_replicate.
    Z.to_euclidean_division_equations; lia.
  - intros j Hj. rewrite Hbits by lia.
    replace (j =? len) with false by (symmetry; apply Z.eqb_neq; lia).
    apply Hz. lia.
Qed.

Lemma wf_new : wf BitBuf.new.
Proof.
  split; simpl; try lia; [constructor|].
  intros j _. unfold bit_at, stored_octet. simpl.
  now rewrite Z.bits_0.
Qed.

Lemma wf_set_pos (p : Z) (b : BitBuf.t) : wf b -> 0 <= p -> wf (BitBuf.set_pos p b).
Proof. intros [Hp Hl Hc Hcov Hz] Hp'. split; simpl; auto. Qed.

Lemma readable_new : readable BitBuf.new.
Proof. apply wf_readable, wf_new. Qed.

Lemma bit_at_set_pos (p : Z) (b : BitBuf.t) (j : Z) :
  bit_at (BitBuf.set_pos p b) j = bit_at b j.
Proof. reflexivity. Qed.

Lemma octet_at_set_pos (p : Z) (b : BitBuf.t) (q : Z) :
  octet_at (BitBuf.set_pos p b) q = octet_at b q.
Proof. reflexivity. Qed.

End Storage.

(** ** Octets *)

Section Octets.

(** The loop of [writeOctet], from any turn on. *)
Lemma write_bits_spec (v : Z) (n : nat) :
  forall (i0 : Z) (b : BitBuf.t),
  wf b ->
  exists b',
    Js.for_loop n i0 (fun i => BitBuf.push (Js.shr v i)) b = (Js.Ok tt, b') /\
    wf b' /\
    BitBuf.length b' = BitBuf.length b + Z.of_nat n /\
    BitBuf.pos b' = BitBuf.pos b /\
    forall j, 0 <= j ->
      bit_at b' j =
        if (BitBuf.length b <=? j) && (j <? BitBuf.length b + Z.of_nat n)
        then Js.shr v (i0 + (j - BitBuf.length b)) mod 2
        else bit_at b j.
Proof.
  induction n as [|n IH]; intros i0 b Hwf.
  - exists b. simpl. split_and!; try lia; try exact Hwf; try reflexivity.
    intros j Hj. destruct (BitBuf.length b <=? j) eqn:E1; simpl; [|reflexivity].
    destruct (j <? BitBuf.length b + Z.of_nat 0) eqn:E2; [blia|reflexivity].
  - destruct (push_spec (Js.shr v i0) b Hwf) as (b1 & Hpush & Hwf1 & Hl1 & Hp1 & Hb1).
    destruct (IH (i0 + 1) b1 Hwf1) as (b2 & Hloop & Hwf2 & Hl2 & Hp2 & Hb2).
    exists b2. cbn [Js.for_loop]. unfold Js.bind at 1. rewrite Hpush, Hloop.
    split_and!; try lia; try exact Hwf2; try reflexivity.
    intros j Hj. rewrite Hb2, Hb1, Hl1 by lia.
    destruct (BitBuf.length b + 1 <=? j) eqn:E1;
      destruct (j <? BitBuf.length b + 1 + Z.of_nat n) eqn:E2;
      destruct (BitBuf.length b <=? j) eqn:E3;
      destruct (j <? BitBuf.length b + Z.of_nat (S n)) eqn:E4;
      destruct (j =? BitBuf.length b) eqn:E5;
      simpl; try blia; try reflexivity.
    + f_equal. f_equal. lia.
    + f_equal. f_equal. blia.
Qed.

Lemma shr_bit (v i : Z) :
  0 <= v < 256 -> 0 <= i < 8 -> Js.shr v i mod 2 = Z.b2z (Z.testbit v i).
Proof.
  intros Hv Hi. rewrite shr_small by lia.
  rewrite <- testbit_mod2, Z.shiftr_spec by lia. reflexivity.
Qed.

(** [writeOctet] on a well-formed buffer appends the eight low bits of the
    octet, the lowest first. *)
Lemma writeOctet_spec (v : Z) (b : BitBuf.t) :
  wf b -> 0 <= v < 256 ->
  exists b',
    BitBuf.writeOctet v b = (Js.Ok tt, b') /\ wf b' /\
    BitBuf.length b' = BitBuf.length b + 8 /\
    BitBuf.pos b' = BitBuf.pos b /\
    (forall j, 0 <= j < BitBuf.length b -> bit_at b' j = bit_at b j) /\
    (forall i, 0 <= i < 8 ->
       bit_at b' (BitBuf.length b + i) = Z.b2z (Z.testbit v i)).
Proof.
  intros Hwf Hv.
  destruct (write_bits_spec v 8 0 b Hwf) as (b' & Hw & Hwf' & Hl & Hp & Hb).
  exists b'. pose proof (wf_length b Hwf) as Hlen.
  split_and!; try assumption.
  - intros j Hj. rewrite Hb by lia.
    destruct (BitBuf.length b <=? j) eqn:E; [blia|reflexivity].
  - intros i Hi. rewrite Hb by lia.
    destruct (BitBuf.length b <=? BitBuf.length b + i) eqn:E1; [|blia].
    destruct (BitBuf.length b + i <? BitBuf.length b + Z.of_nat 8) eqn:E2; [|blia].
    simpl. replace (0 + (BitBuf.length b + i - BitBuf.length b)) with i by lia.
    now apply shr_bit.
Qed.

(** The sum the loop of [readOctet] builds over the turns [i], ...,
    [i + n - 1]. *)
Lemma readOctet_loop_ok (b : BitBuf.t) (n : nat) :
  readable b ->
  forall (i : nat) (acc : Z),
  (i + n <= 8)%nat -> 0 <= acc < 256 ->
  BitBuf.pos b + Z.of_nat (i + n) <= BitBuf.length b ->
  exists r,
    BitBuf.readOctet_loop n (Z.of_nat i) acc b = (Js.Ok r, b) /\
    0 <= r < 256 /\
    r = Z.lor acc
          (fold_right (fun i acc => Z.lor (Z.shiftl (bit_at b (BitBuf.pos b + Z.of_nat i))
                                       (Z.of_nat i)) acc) 0 (seq i n)).
Proof.
  intros Hwf. pose proof (rd_pos b Hwf) as Hpos.
  induction n as [|n IH]; intros i acc Hin Hacc Hlen.
  - exists acc. simpl. rewrite Z.lor_0_r. auto.
  - cbn [BitBuf.readOctet_loop]. unfold Js.bind at 1, Js.gets at 1.
    unfold Js.bind at 1. rewrite get_ok by (try exact Hwf; lia).
    pose proof (bit_at_range b (BitBuf.pos b + Z.of_nat i)) as Hbit.
    destruct (or_shl_bit acc (bit_at b (BitBuf.pos b + Z.of_nat i)) (Z.of_nat i))
      as [Hor Hr]; [lia..|].
    rewrite Hor.
    replace (Z.of_nat i + 1) with (Z.of_nat (S i)) by lia.
    destruct (IH (S i) _ ltac:(lia) Hr ltac:(lia)) as (r & Hloop & Hrr & Hreq).
    exists r. split; [exact Hloop|]. split; [exact Hrr|].
    rewrite Hreq. simpl seq. simpl fold_right. now rewrite Z.lor_assoc.
Qed.

(** A read that would pass the written length throws at the first bit
    that is not there and leaves the buffer as it was. *)
Lemma readOctet_loop_fail (b : BitBuf.t) (n : nat) :
  readable b ->
  forall (i acc : Z),
  0 <= i -> (0 < n)%nat ->
  BitBuf.length b < BitBuf.pos b + i + Z.of_nat n ->
  BitBuf.readOctet_loop n i acc b
  = (Js.Throw (Js.IndexError (Z.max (BitBuf.pos b + i) (BitBuf.length b))), b).
Proof.
  intros Hwf. pose proof (rd_pos b Hwf) as Hpos.
  induction n as [|n IH]; intros i acc Hi Hn Hlen; [lia|].
  cbn [BitBuf.readOctet_loop]. unfold Js.bind at 1, Js.gets at 1.
  unfold Js.bind at 1.
  destruct (Z.lt_ge_cases (BitBuf.pos b + i) (BitBuf.length b)) as [Hlt|Hge].
  - rewrite get_ok by (try exact Hwf; lia).
    rewrite IH by lia. f_equal. f_equal. f_equal. lia.
  - unfold BitBuf.get, Js.bind, Js.gets.
    destruct (BitBuf.pos b + i + 1 >? BitBuf.length b) eqn:E; [|blia].
    unfold Js.throw. f_equal. f_equal. f_equal. lia.
Qed.

Lemma readOctet_ok (b : BitBuf.t) :
  readable b -> BitBuf.pos b + 8 <= BitBuf.length b ->
  BitBuf.readOctet b
  = (Js.Ok (octet_at b (BitBuf.pos b)), BitBuf.set_pos (BitBuf.pos b + 8) b).
Proof.
  intros Hwf Hlen. unfold BitBuf.readOctet.
  destruct (readOctet_loop_ok b 8 Hwf 0 0) as (r & Hloop & _ & Hr);
    [lia|lia|simpl; lia|].
  unfold Js.bind at 1. change (Z.to_nat BitBuf.OCTET_SIZE) with 8%nat.
  change (Z.of_nat 0) with 0 in Hloop. rewrite Hloop.
  unfold Js.bind, Js.modify, Js.ret. rewrite Hr, Z.lor_0_l. reflexivity.
Qed.

Lemma readOctet_fail (b : BitBuf.t) :
  readable b -> BitBuf.length b < BitBuf.pos b + 8 ->
  BitBuf.readOctet b
  = (Js.Throw (Js.IndexError (Z.max (BitBuf.pos b) (BitBuf.length b))), b).
Proof.
  intros Hwf Hlen. unfold BitBuf.readOctet.
  unfold Js.bind at 1. change (Z.to_nat BitBuf.OCTET_SIZE) with 8%nat.
  rewrite readOctet_loop_fail by (try exact Hwf; lia).
  now rewrite Z.add_0_r.
Qed.

Lemma readBit_ok (b : BitBuf.t) :
  readable b -> BitBuf.pos b < BitBuf.length b ->
  BitBuf.readBit b
  = (Js.Ok (bit_at b (BitBuf.pos b)), BitBuf.set_pos (BitBuf.pos b + 1) b).
Proof.
  intros Hwf Hlen. pose proof (rd_pos b Hwf) as Hpos.
  unfold BitBuf.readBit. unfold Js.bind at 1, Js.gets at 1.
  unfold Js.bind at 1. rewrite get_ok by (try exact Hwf; lia).
  reflexivity.
Qed.

Lemma readBit_fail (b : BitBuf.t) :
  BitBuf.length b <= BitBuf.pos b ->
  BitBuf.readBit b = (Js.Throw (Js.IndexError (BitBuf.pos b)), b).
Proof.
  intros Hlen. unfold BitBuf.readBit, BitBuf.get, Js.bind, Js.gets.
  destruct (BitBuf.pos b + 1 >? BitBuf.length b) eqn:E; [reflexivity|blia].
Qed.

(** An octet is the sum of its eight low bits. *)
Lemma octet_of_bits (b : BitBuf.t) (p v : Z) :
  0 <= v < 256 ->
  (forall i, 0 <= i < 8 -> bit_at b (p + i) = Z.b2z (Z.testbit v i)) ->
  octet_at b p = v.
Proof.
  intros Hv Hb. unfold octet_at. simpl seq. simpl fold_right.
  rewrite !Hb by lia.
  change (Z.of_nat 0) with 0; change (Z.of_nat 1) with 1;
    change (Z.of_nat 2) with 2; change (Z.of_nat 3) with 3;
    change (Z.of_nat 4) with 4; change (Z.of_nat 5) with 5;
    change (Z.of_nat 6) with 6; change (Z.of_nat 7) with 7.
  apply Z.bits_inj'. intros t Ht.
  rewrite !Z.lor_spec, !Z.shiftl_spec, Z.bits_0 by lia.
  assert (Hbit : forall x m, Z.testbit (Z.b2z x) m = (m =? 0) && (Z.b2z x =? 1)).
  { intros x m. apply testbit_bit. destruct x; simpl; lia. }
  rewrite !Hbit.
  destruct (Z.lt_ge_cases t 8) as [Hlt|Hge].
  - assert (t = 0 \/ t = 1 \/ t = 2 \/ t = 3 \/ t = 4 \/ t = 5 \/ t = 6 \/ t = 7)
      as Ht8 by lia.
    repeat (destruct Ht8 as [-> | Ht8]); try subst t; simpl;
      match goal with |- _ = ?x => destruct x end; reflexivity.
  - rewrite (testbit_small_high v t) by lia.
    repeat match goal with
    | |- context [(?a =? 0)] =>
        replace (a =? 0) with false by (symmetry; apply Z.eqb_neq; lia)
    end.
    reflexivity.
Qed.

End Octets.

(** ** The claims on octets and bits *)

(** C7: for every [v] with [0 <= v <= 255], [writeOctet(v)] on a stream
    whose read position is at its end stores the bits of [v] lowest first
    (the first bit written, and the first bit a [readBit] returns, is bit 0
    of [v]), and [readOctet()] then returns [v] and moves the position by
    eight. *)
Theorem writeOctet_readOctet (b : BitBuf.t) (v : Z) :
  wf b -> BitBuf.pos b = BitBuf.length b -> 0 <= v <= 255 ->
  exists b1,
    BitBuf.writeOctet v b = (Js.Ok tt, b1) /\
    (forall i, 0 <= i < 8 ->
       bit_at b1 (BitBuf.length b + i) = Z.b2z (Z.testbit v i)) /\
    BitBuf.readBit b1
      = (Js.Ok (Z.b2z (Z.testbit v 0)), BitBuf.set_pos (BitBuf.pos b + 1) b1) /\
    BitBuf.readOctet b1 = (Js.Ok v, BitBuf.set_pos (BitBuf.pos b + 8) b1).
Proof.
  intros Hwf Hpos Hv.
  destruct (writeOctet_spec v b Hwf ltac:(lia)) as (b1 & Hw & Hwf1 & Hl1 & Hp1 & _ & Hbits).
  exists b1. split_and!; [exact Hw|exact Hbits| |].
  - rewrite readBit_ok by (try apply wf_readable, Hwf1; lia).
    rewrite Hp1, Hpos. rewrite <- (Z.add_0_r (BitBuf.length b)) at 1.
    rewrite Hbits by lia. reflexivity.
  - rewrite readOctet_ok by (try apply wf_readable, Hwf1; lia).
    rewrite Hp1. f_equal. f_equal.
    apply octet_of_bits; [lia|]. intros i Hi. rewrite Hpos. now apply Hbits.
Qed.

Lemma writeOctet_readOctet_65 :
  wf BitBuf.new /\ BitBuf.pos BitBuf.new = BitBuf.length BitBuf.new /\
  0 <= 65 <= 255 /\
  exists b1,
    BitBuf.writeOctet 65 BitBuf.new = (Js.Ok tt, b1) /\
    (forall i, 0 <= i < 8 ->
       bit_at b1 (BitBuf.length BitBuf.new + i) = Z.b2z (Z.testbit 65 i)) /\
    BitBuf.readBit b1
      = (Js.Ok (Z.b2z (Z.testbit 65 0)),
         BitBuf.set_pos (BitBuf.pos BitBuf.new + 1) b1) /\
    BitBuf.readOctet b1
      = (Js.Ok 65, BitBuf.set_pos (BitBuf.pos BitBuf.new + 8) b1).
Proof.
  split; [apply wf_new|]. split; [reflexivity|]. split; [lia|].
  apply (writeOctet_readOctet BitBuf.new 65); [apply wf_new|reflexivity|lia].
Defined.

(** C8: [readBit] returns the bit stored at the position and advances the
    position by one when the position is below the length; it throws the
    out-of-range error exactly when the position is at or past the length;
    [readOctet] throws the same error whenever fewer than eight unread bits
    remain. *)
Theorem read_out_of_range (b : BitBuf.t) :
  readable b ->
  (BitBuf.pos b < BitBuf.length b ->
     BitBuf.readBit b
     = (Js.Ok (bit_at b (BitBuf.pos b)), BitBuf.set_pos (BitBuf.pos b + 1) b)) /\
  (BitBuf.length b <= BitBuf.pos b <->
     exists b', BitBuf.readBit b = (Js.Throw (Js.IndexError (BitBuf.pos b)), b')) /\
  (BitBuf.length b <= BitBuf.pos b <->
     exists e b', BitBuf.readBit b = (Js.Throw e, b')) /\
  (BitBuf.length b - BitBuf.pos b < 8 ->
     exists index b',
       BitBuf.readOctet b = (Js.Throw (Js.IndexError index), b')).
Proof.
  intros Hwf. split_and!.
  - now apply readBit_ok.
  - split.
    + intros H. exists b. now apply readBit_fail.
    + intros [b' H]. destruct (Z.lt_ge_cases (BitBuf.pos b) (BitBuf.length b)) as [Hlt|Hge];
        [|lia]. rewrite readBit_ok in H by assumption. discriminate.
  - split.
    + intros H. eexists. exists b. now apply readBit_fail.
    + intros (e & b' & H).
      destruct (Z.lt_ge_cases (BitBuf.pos b) (BitBuf.length b)) as [Hlt|Hge];
        [|lia]. rewrite readBit_ok in H by assumption. discriminate.
  - intros H. eexists. exists b. apply readOctet_fail; [exact Hwf|lia].
Qed.

Lemma read_out_of_range_new :
  readable BitBuf.new /\
  ((BitBuf.pos BitBuf.new < BitBuf.length BitBuf.new ->
      BitBuf.readBit BitBuf.new
      = (Js.Ok (bit_at BitBuf.new (BitBuf.pos BitBuf.new)),
         BitBuf.set_pos (BitBuf.pos BitBuf.new + 1) BitBuf.new)) /\
   (BitBuf.length BitBuf.new <= BitBuf.pos BitBuf.new <->
      exists b', BitBuf.readBit BitBuf.new
                 = (Js.Throw (Js.IndexError (BitBuf.pos BitBuf.new)), b')) /\
   (BitBuf.length BitBuf.new <= BitBuf.pos BitBuf.new <->
      exists e b', BitBuf.readBit BitBuf.new = (Js.Throw e, b')) /\
   (BitBuf.length BitBuf.new - BitBuf.pos BitBuf.new < 8 ->
      exists index b',
        BitBuf.readOctet BitBuf.new = (Js.Throw (Js.IndexError index), b'))).
Proof.
  split; [apply readable_new|].
  exact (read_out_of_range BitBuf.new readable_new).
Defined.

(** C10: a [readBit] or [readOctet] that throws leaves the stream as it
    was: position, length and stored bits are those before the call. *)
Theorem failed_read_keeps_state (b b' : BitBuf.t) (e : Js.Err) :
  readable b ->
  (BitBuf.readBit b = (Js.Throw e, b') \/ BitBuf.readOctet b = (Js.Throw e, b')) ->
  b' = b /\ exists index, e = Js.IndexError index.
Proof.
  intros Hwf [H|H].
  - destruct (Z.lt_ge_cases (BitBuf.pos b) (BitBuf.length b)) as [Hlt|Hge].
    + rewrite readBit_ok in H by assumption. discriminate.
    + rewrite readBit_fail in H by assumption. injection H as <- <-. eauto.
  - destruct (Z.lt_ge_cases (BitBuf.length b) (BitBuf.pos b + 8)) as [Hlt|Hge].
    + rewrite readOctet_fail in H by assumption. injection H as <- <-. eauto.
    + rewrite readOctet_ok in H by assumption. discriminate.
Qed.

Lemma failed_read_keeps_state_new :
  readable BitBuf.new /\
  (BitBuf.readBit BitBuf.new = (Js.Throw (Js.IndexError 0), BitBuf.new) \/
   BitBuf.readOctet BitBuf.new = (Js.Throw (Js.IndexError 0), BitBuf.new)) /\
  (BitBuf.new = BitBuf.new /\ exists index, Js.IndexError 0 = Js.IndexError index).
Proof.
  split; [apply readable_new|]. split; [left; reflexivity|].
  apply (failed_read_keeps_state BitBuf.new BitBuf.new (Js.IndexError 0) readable_new).
  left. reflexivity.
Defined.

(** ** Sequences of octets and strings *)

Section Strings.

Lemma bind_assoc {S A B C} (m : Js.M S A) (f : A -> Js.M S B) (g : B -> Js.M S C) (s : S) :
  Js.bind (Js.bind m f) g s = Js.bind m (fun a => Js.bind (f a) g) s.
Proof.
  unfold Js.bind. destruct (m s) as [[a|e|] s']; reflexivity.
Qed.

Lemma octet_at_ext (b b' : BitBuf.t) (p : Z) :
  (forall i, 0 <= i < 8 -> bit_at b' (p + i) = bit_at b (p + i)) ->
  octet_at b' p = octet_at b p.
Proof.
  intros H. unfold octet_at. simpl seq. simpl fold_right.
  rewrite !H by lia. reflexivity.
Qed.

(** What lies below the length survives every later write. *)
Lemma octets_from_mono (b b' : BitBuf.t) (l : list Z) :
  BitBuf.length b <= BitBuf.length b' ->
  (forall j, 0 <= j < BitBuf.length b -> bit_at b' j = bit_at b j) ->
  forall p, 0 <= p -> octets_from b p l -> octets_from b' p l.
Proof.
  intros Hlen Hbits. induction l as [|o l IH]; intros p Hp H; [exact I|].
  destruct H as (Hle & Ho & Hrest). simpl. split_and!.
  - lia.
  - rewrite <- Ho. apply octet_at_ext. intros i Hi. apply Hbits. lia.
  - apply IH; [lia|exact Hrest].
Qed.

Lemma octets_from_app (b : BitBuf.t) (l1 l2 : list Z) :
  forall p,
  octets_from b p (l1 ++ l2) <->
  octets_from b p l1 /\ octets_from b (p + 8 * Z.of_nat (List.length l1)) l2.
Proof.
  induction l1 as [|o l1 IH]; intros p; simpl.
  - replace (p + 8 * Z.of_nat 0) with p by lia. tauto.
  - rewrite IH.
    replace (p + 8 + 8 * Z.of_nat (List.length l1))
      with (p + 8 * Z.of_nat (S (List.length l1))) by lia.
    tauto.
Qed.

Lemma octets_from_set_pos (b : BitBuf.t) (q p : Z) (l : list Z) :
  octets_from (BitBuf.set_pos q b) p l <-> octets_from b p l.
Proof.
  revert p. induction l as [|o l IH]; intros p; simpl; [tauto|].
  rewrite IH. reflexivity.
Qed.

Lemma writeOctets_app (l1 l2 : list Z) (b : BitBuf.t) :
  writeOctets (l1 ++ l2) b = (writeOctets l1 ;;; writeOctets l2) b.
Proof.
  revert b. induction l1 as [|o l1 IH]; intros b; simpl.
  - reflexivity.
  - rewrite bind_assoc. unfold Js.bind.
    destruct (BitBuf.writeOctet o b) as [[[]|e|] b1]; try reflexivity.
    rewrite IH. reflexivity.
Qed.

(** Writing octets appends them and keeps what was written before. *)
Lemma writeOctets_spec (l : list Z) :
  forall b, wf b -> Forall is_octet l ->
  exists b',
    writeOctets l b = (Js.Ok tt, b') /\ wf b' /\
    BitBuf.length b' = BitBuf.length b + 8 * Z.of_nat (List.length l) /\
    BitBuf.pos b' = BitBuf.pos b /\
    (forall j, 0 <= j < BitBuf.length b -> bit_at b' j = bit_at b j) /\
    octets_from b' (BitBuf.length b) l.
Proof.
  induction l as [|o l IH]; intros b Hwf Hl.
  - exists b. simpl. split_and!; auto; lia.
  - apply Forall_cons in Hl as [Ho Hl].
    destruct (writeOctet_spec o b Hwf Ho) as (b1 & Hw & Hwf1 & Hl1 & Hp1 & Hold1 & Hnew1).
    destruct (IH b1 Hwf1 Hl) as (b2 & Hw2 & Hwf2 & Hl2 & Hp2 & Hold2 & Hnew2).
    pose proof (wf_length b Hwf) as Hlen.
    exists b2. simpl. unfold Js.bind. rewrite Hw, Hw2.
    split_and!; auto; try lia.
    + intros j Hj. rewrite Hold2 by lia. now apply Hold1.
    + rewrite <- (octet_of_bits b1 (BitBuf.length b) o Ho Hnew1).
      apply octet_at_ext. intros i Hi. apply Hold2. lia.
    + now rewrite <- Hl1.
Qed.

Lemma code_is_octet (c : ascii) : is_octet (Js.code c).
Proof.
  unfold is_octet, Js.code. pose proof (N_ascii_bounded c). lia.
Qed.

Lemma codes_are_octets (s : string) : Forall is_octet (codes s).
Proof.
  unfold codes. apply Forall_map, Forall_forall. intros c _. apply code_is_octet.
Qed.

Lemma char_code (c : ascii) : Js.char (Js.code c) = c.
Proof. unfold Js.char, Js.code. now rewrite N2Z.id, ascii_N_embedding. Qed.

Lemma decode_codes (s : string) : BitBuf.decode (codes s) = s.
Proof.
  unfold BitBuf.decode, codes. rewrite map_map.
  rewrite (map_ext _ id) by (intros c; apply char_code).
  rewrite map_id. apply string_of_list_ascii_of_string.
Qed.

Lemma writeString_octets (s : string) (b : BitBuf.t) :
  BitBuf.writeString s b = writeOctets (codes s) b.
Proof.
  revert b. induction s as [|c s IH]; intros b; [reflexivity|].
  simpl. unfold Js.bind.
  destruct (BitBuf.writeOctet (Js.code c) b) as [[[]|e|] b1]; try reflexivity.
  apply IH.
Qed.

Lemma readable_set_pos (q : Z) (b : BitBuf.t) :
  readable b -> 0 <= q -> readable (BitBuf.set_pos q b).
Proof. intros [Hp Hc Hcov] Hq. split; simpl; auto. Qed.

Lemma octets_from_length (b : BitBuf.t) (l : list Z) :
  forall p, octets_from b p l -> l <> [] ->
  p + 8 * Z.of_nat (List.length l) <= BitBuf.length b.
Proof.
  induction l as [|o l IH]; intros p H Hne; [congruence|].
  destruct H as (Hle & _ & Hrest). destruct l as [|o' l].
  - simpl. lia.
  - specialize (IH (p + 8) Hrest ltac:(congruence)).
    simpl List.length in *. lia.
Qed.

(** The loop of [readString] on a field that lies in the stream. *)
Lemma readString_loop_spec (d : Z) (l : list Z) :
  forall (fuel : nat) (data : list Z) (b : BitBuf.t),
  readable b ->
  octets_from b (BitBuf.pos b) (l ++ [d]) ->
  Forall (fun o => o <> d) l ->
  (List.length l < fuel)%nat ->
  BitBuf.readString_loop fuel d data b
  = (Js.Ok (BitBuf.decode (data ++ l)),
     BitBuf.set_pos (BitBuf.pos b + 8 * (Z.of_nat (List.length l) + 1)) b).
Proof.
  induction l as [|o l IH]; intros fuel data b Hrd Hfrom Hne Hfuel;
    (destruct fuel as [|fuel]; [simpl in Hfuel; lia|]);
    pose proof (rd_pos b Hrd) as Hpos;
    destruct Hfrom as (Hle & Ho & Hrest);
    cbn [BitBuf.readString_loop]; unfold Js.bind;
    rewrite readOctet_ok by assumption; rewrite Ho.
  - rewrite Z.eqb_refl, app_nil_r. reflexivity.
  - apply Forall_cons in Hne as [Hod Hne].
    replace (o =? d) with false by (symmetry; now apply Z.eqb_neq).
    rewrite IH; try assumption.
    + rewrite <- app_assoc. simpl. f_equal. unfold BitBuf.set_pos. simpl.
      f_equal. lia.
    + apply readable_set_pos; [assumption|lia].
    + apply octets_from_set_pos. exact Hrest.
    + simpl in Hfuel. lia.
Qed.

Lemma readString_spec (d : Z) (l : list Z) (b : BitBuf.t) :
  readable b ->
  octets_from b (BitBuf.pos b) (l ++ [d]) ->
  Forall (fun o => o <> d) l ->
  BitBuf.readString d b
  = (Js.Ok (BitBuf.decode l),
     BitBuf.set_pos (BitBuf.pos b + 8 * (Z.of_nat (List.length l) + 1)) b).
Proof.
  intros Hrd Hfrom Hne. unfold BitBuf.readString.
  rewrite (readString_loop_spec d l); try assumption; [reflexivity|].
  pose proof (octets_from_length b (l ++ [d]) _ Hfrom) as Hlen.
  rewrite length_app in Hlen. simpl in Hlen.
  specialize (Hlen ltac:(now destruct l)).
  unfold BitBuf.octets_left, BitBuf.OCTET_SIZE.
  assert (Z.of_nat (List.length l) + 1 <= (BitBuf.length b - BitBuf.pos b) / 8)
    by (Z.to_euclidean_division_equations; lia).
  lia.
Qed.

End Strings.

(** C2: [writeString(s)] writes the characters of [s] as one octet each
    and nothing more; [readString(delimiter)] reads up to the first octet
    equal to the delimiter, returns the string of the octets before it and
    leaves the position behind the delimiter; so for a string none of whose
    characters has the delimiter's value, [writeString(s)],
    [writeOctet(delimiter)], [readString(delimiter)] returns [s]. *)
Theorem writeString_readString (b : BitBuf.t) (s : string) (d : Z) :
  wf b -> BitBuf.pos b = BitBuf.length b -> 0 <= d <= 255 ->
  Forall (fun o => o <> d) (codes s) ->
  exists b1 b2,
    BitBuf.writeString s b = (Js.Ok tt, b1) /\
    BitBuf.length b1 = BitBuf.length b + 8 * Z.of_nat (String.length s) /\
    octets_from b1 (BitBuf.length b) (codes s) /\
    BitBuf.writeOctet d b1 = (Js.Ok tt, b2) /\
    BitBuf.readString d b2 = (Js.Ok s, BitBuf.set_pos (BitBuf.length b2) b2).
Proof.
  intros Hwf Hpos Hd Hne. pose proof (wf_length b Hwf) as Hlen.
  destruct (writeOctets_spec (codes s) b Hwf (codes_are_octets s))
    as (b1 & Hw1 & Hwf1 & Hl1 & Hp1 & Hold1 & Hnew1).
  destruct (writeOctet_spec d b1 Hwf1 ltac:(lia))
    as (b2 & Hw2 & Hwf2 & Hl2 & Hp2 & Hold2 & Hnew2).
  assert (Hcl : List.length (codes s) = String.length s).
  { unfold codes. rewrite length_map. clear. induction s; simpl; auto. }
  exists b1, b2. split_and!.
  - now rewrite writeString_octets.
  - now rewrite <- Hcl.
  - exact Hnew1.
  - exact Hw2.
  - rewrite (readString_spec d (codes s)).
    + rewrite decode_codes. f_equal. f_equal. lia.
    + now apply wf_readable.
    + rewrite Hp2, Hp1, Hpos. apply octets_from_app. split.
      * apply (octets_from_mono b1); [lia|exact Hold2|lia|exact Hnew1].
      * simpl. rewrite <- Hl1. split_and!; [lia| |exact I].
        apply octet_of_bits; [lia|exact Hnew2].
    + exact Hne.
Qed.

Lemma writeString_readString_abc :
  wf BitBuf.new /\ BitBuf.pos BitBuf.new = BitBuf.length BitBuf.new /\
  0 <= 3 <= 255 /\ Forall (fun o => o <> 3) (codes "abc") /\
  exists b1 b2,
    BitBuf.writeString "abc" BitBuf.new = (Js.Ok tt, b1) /\
    BitBuf.length b1
      = BitBuf.length BitBuf.new + 8 * Z.of_nat (String.length "abc") /\
    octets_from b1 (BitBuf.length BitBuf.new) (codes "abc") /\
    BitBuf.writeOctet 3 b1 = (Js.Ok tt, b2) /\
    BitBuf.readString 3 b2 = (Js.Ok "abc"%string, BitBuf.set_pos (BitBuf.length b2) b2).
Proof.
  assert (H : Forall (fun o => o <> 3) (codes "abc"))
    by (repeat constructor; vm_compute; discriminate).
  split; [apply wf_new|]. split; [reflexivity|]. split; [lia|].
  split; [exact H|].
  apply (writeString_readString BitBuf.new "abc" 3 wf_new eq_refl ltac:(lia) H).
Defined.

(** ** The preamble *)

Section Preamble.

Lemma writes_bind (m1 m2 : Js.M BitBuf.t unit) (l1 l2 : list Z) :
  writes m1 l1 -> writes m2 l2 -> writes (m1 ;;; m2) (l1 ++ l2).
Proof.
  intros H1 H2 b. rewrite writeOctets_app. unfold Js.bind. rewrite H1.
  destruct (writeOctets l1 b) as [[[]|e|] b1]; try reflexivity. apply H2.
Qed.

Lemma writes_octet (o : Z) : writes (BitBuf.writeOctet o) [o].
Proof.
  intros b. simpl. unfold Js.bind, Js.ret.
  destruct (BitBuf.writeOctet o b) as [[[]|e|] b1]; reflexivity.
Qed.

Lemma writes_string (s : string) : writes (BitBuf.writeString s) (codes s).
Proof. intros b. apply writeString_octets. Qed.

Lemma serialize_writes (P : string -> Prop) (t : Puffman.Node) :
  shaped P t -> writes (Puffman.buildString_node t) (preamble t).
Proof.
  induction 1 as [tok occ _|l r occ _ IHl _ IHr];
    cbn [Puffman.buildString_node preamble];
    repeat first [apply writes_bind | apply writes_octet | apply writes_string
                 | assumption].
Qed.

Lemma preamble_octets (t : Puffman.Node) :
  shaped (fun _ => True) t -> Forall is_octet (preamble t).
Proof.
  induction 1 as [tok occ _|l r occ _ IHl _ IHr]; cbn [preamble];
    repeat first [apply Forall_app; split | apply Forall_cons; split
                 | apply Forall_nil | apply codes_are_octets | assumption
                 | (unfold is_octet, Puffman.SPLIT, Puffman.NULL_NODE,
                      Puffman.NULL_TOKEN; lia)].
Qed.

Lemma shaped_weaken (P Q : string -> Prop) (t : Puffman.Node) :
  (forall tok, P tok -> Q tok) -> shaped P t -> shaped Q t.
Proof. intros HPQ. induction 1; constructor; auto. Qed.

(** A field that holds the absent-node sentinel ends the recursion. *)
Lemma unserialize_null (fuel : nat) (b : BitBuf.t) (rest : list Z) :
  readable b ->
  octets_from b (BitBuf.pos b) ([Puffman.NULL_NODE; Puffman.SPLIT] ++ rest) ->
  Puffman.unserialize_buildTree (S fuel) b
  = (Js.Ok None, BitBuf.set_pos (BitBuf.pos b + 16) b).
Proof.
  intros Hrd Hfrom. cbn [Puffman.unserialize_buildTree]. unfold Js.bind.
  rewrite (readString_spec Puffman.SPLIT [Puffman.NULL_NODE]).
  - reflexivity.
  - exact Hrd.
  - apply octets_from_app in Hfrom as [H _]. exact H.
  - repeat constructor. discriminate.
Qed.

Lemma token_first_code (tok : string) :
  token_ok tok ->
  Puffman.first_code_is tok Puffman.NULL_NODE = false /\
  Puffman.first_code_is tok Puffman.NULL_TOKEN = false.
Proof.
  intros [Hne Hc]. destruct tok as [|c tok]; [congruence|].
  unfold codes in Hc. simpl in Hc. apply Forall_cons in Hc as [(H0 & H1 & _) _].
  unfold Puffman.first_code_is. simpl.
  split; now apply Z.eqb_neq.
Qed.

Lemma octets_from_at (b : BitBuf.t) (q p p' : Z) (l : list Z) :
  octets_from b p l -> p' = p -> octets_from (BitBuf.set_pos q b) p' l.
Proof. intros H ->. now apply octets_from_set_pos. Qed.

(** Reading back the preamble of a tree, whatever follows it. *)
Lemma unserialize_preamble (t : Puffman.Node) :
  huffman_tree t ->
  forall (fuel : nat) (b : BitBuf.t) (rest : list Z),
  (depth t < fuel)%nat ->
  readable b ->
  octets_from b (BitBuf.pos b) (preamble t ++ rest) ->
  Puffman.unserialize_buildTree fuel b
  = (Js.Ok (Some (forget_occurrences t)),
     BitBuf.set_pos (BitBuf.pos b + 8 * Z.of_nat (List.length (preamble t))) b).
Proof.
  induction 1 as [tok occ Htok|l r occ Hl IHl Hr IHr];
    intros fuel b rest Hfuel Hrd Hfrom;
    (destruct fuel as [|fuel]; [simpl in Hfuel; lia|]);
    pose proof (rd_pos b Hrd) as Hpos;
    cbn [Puffman.unserialize_buildTree preamble] in *; unfold Js.bind.
  - destruct fuel as [|fuel]; [simpl in Hfuel; lia|].
    assert (E : (codes tok ++ [Puffman.SPLIT]
                   ++ ([Puffman.NULL_NODE] ++ [Puffman.SPLIT])
                   ++ [Puffman.NULL_NODE] ++ [Puffman.SPLIT]) ++ rest
                = (codes tok ++ [Puffman.SPLIT])
                    ++ [Puffman.NULL_NODE; Puffman.SPLIT]
                    ++ [Puffman.NULL_NODE; Puffman.SPLIT] ++ rest)
      by (rewrite <- !app_assoc; reflexivity).
    rewrite E in Hfrom. clear E.
    apply octets_from_app in Hfrom as [Hfield Hnull1].
    pose proof Hnull1 as Hnull2.
    apply octets_from_app in Hnull2 as [_ Hnull2].
    rewrite length_app in Hnull1, Hnull2. simpl List.length in Hnull1, Hnull2.
    rewrite (readString_spec Puffman.SPLIT (codes tok)); try assumption;
      [|destruct Htok as [_ Hc]; eapply Forall_impl; [exact Hc|];
        now intros o (_ & _ & H3)].
    rewrite decode_codes.
    destruct (token_first_code tok Htok) as [-> ->]. cbn [negb].
    set (b1 := BitBuf.set_pos _ b).
    assert (Hrd1 : readable b1) by (apply readable_set_pos; [assumption|lia]).
    rewrite (unserialize_null fuel b1 ([Puffman.NULL_NODE; Puffman.SPLIT] ++ rest));
      [|exact Hrd1|eapply octets_from_at; [exact Hnull1|simpl; lia]].
    set (b2 := BitBuf.set_pos _ b1).
    assert (Hrd2 : readable b2) by (apply readable_set_pos; [assumption|simpl; lia]).
    rewrite (unserialize_null fuel b2 rest);
      [|exact Hrd2
       |do 2 (eapply octets_from_at; [|reflexivity]); fold b1; fold b2;
        replace (BitBuf.pos b2)
          with (BitBuf.pos b + 8 * Z.of_nat (List.length (codes tok) + 1)
                + 8 * Z.of_nat 2) by (simpl; lia);
        exact Hnull2].
    unfold Js.ret. f_equal. unfold b2, b1, BitBuf.set_pos. simpl. f_equal.
    rewrite !length_app. simpl. lia.
  - assert (E : ([Puffman.NULL_TOKEN] ++ [Puffman.SPLIT] ++ preamble l ++ preamble r)
                  ++ rest
                = [Puffman.NULL_TOKEN; Puffman.SPLIT]
                    ++ preamble l ++ preamble r ++ rest)
      by (rewrite <- !app_assoc; reflexivity).
    rewrite E in Hfrom. clear E.
    pose proof Hfrom as Hfield.
    change ([Puffman.NULL_TOKEN; Puffman.SPLIT] ++ preamble l ++ preamble r ++ rest)
      with (([Puffman.NULL_TOKEN] ++ [Puffman.SPLIT])
              ++ preamble l ++ preamble r ++ rest) in Hfield.
    apply octets_from_app in Hfield as [Hfield _].
    apply octets_from_app in Hfrom as [_ Hleft]. simpl List.length in Hleft.
    pose proof Hleft as Hright.
    apply octets_from_app in Hright as [_ Hright].
    rewrite (readString_spec Puffman.SPLIT [Puffman.NULL_TOKEN]); try assumption;
      [|repeat constructor; discriminate].
    change (Puffman.first_code_is (BitBuf.decode [Puffman.NULL_TOKEN]) Puffman.NULL_NODE)
      with false.
    change (Puffman.first_code_is (BitBuf.decode [Puffman.NULL_TOKEN]) Puffman.NULL_TOKEN)
      with true.
    cbn [negb].
    set (b1 := BitBuf.set_pos _ b).
    assert (Hrd1 : readable b1) by (apply readable_set_pos; [assumption|simpl; lia]).
    simpl in Hfuel.
    rewrite (IHl fuel b1 (preamble r ++ rest));
      [|lia|exact Hrd1|eapply octets_from_at; [exact Hleft|simpl; lia]].
    set (b2 := BitBuf.set_pos _ b1).
    assert (Hrd2 : readable b2) by (apply readable_set_pos; [assumption|simpl; lia]).
    rewrite (IHr fuel b2 rest);
      [|lia|exact Hrd2
       |do 2 (eapply octets_from_at; [|reflexivity]); fold b1; fold b2;
        replace (BitBuf.pos b2)
          with (BitBuf.pos b + 8 * Z.of_nat 2
                + 8 * Z.of_nat (List.length (preamble l))) by (simpl; lia);
        exact Hright].
    unfold Js.ret. f_equal. unfold b2, b1, BitBuf.set_pos. simpl. f_equal.
    rewrite !length_app. simpl. lia.
Qed.

(** Forgetting the counts keeps the shape and the codes of a tree. *)
Lemma forget_occurrences_shape (P : string -> Prop) (t : Puffman.Node) :
  shaped P t ->
  shaped P (forget_occurrences t) /\
  forall prefix, walk_codes (forget_occurrences t) prefix = walk_codes t prefix.
Proof.
  induction 1 as [tok occ Htok|l r occ _ [IHl1 IHl2] _ [IHr1 IHr2]];
    cbn [forget_occurrences walk_codes].
  - split; [now constructor|reflexivity].
  - split; [now constructor|]. intros prefix. now rewrite IHl2, IHr2.
Qed.

End Preamble.

(** A fresh stream into which the octets [l] were written. *)
Lemma written_stream (l : list Z) :
  Forall is_octet l ->
  let b := (writeOctets l BitBuf.new).2 in
  wf b /\ BitBuf.pos b = 0 /\
  BitBuf.length b = 8 * Z.of_nat (List.length l) /\
  octets_from b 0 l.
Proof.
  intros Hl.
  destruct (writeOctets_spec l BitBuf.new wf_new Hl)
    as (b' & Hw & Hwf & Hlen & Hpos & _ & Hfrom).
  rewrite Hw. simpl. auto.
Qed.

(** C3: for every Huffman tree whose internal nodes have two children and
    whose leaves carry a non-empty token without the octets 0x00, 0x01 and
    0x03, serializing the tree into a stream and deserializing from that
    stream returns the tree of the same shape with the same tokens at the
    leaves and no token at the internal nodes. *)
Theorem serialize_unserialize (t : Puffman.Node) (b : BitBuf.t) :
  huffman_tree t -> wf b -> BitBuf.pos b = BitBuf.length b ->
  exists b1,
    Puffman.serialize t b = (Js.Ok tt, b1) /\
    forall fuel, (depth t < fuel)%nat ->
      Puffman.Node_unserialize fuel b1
      = (Js.Ok (Some (forget_occurrences t)), BitBuf.set_pos (BitBuf.length b1) b1).
Proof.
  intros Ht Hwf Hpos.
  assert (Hoct : Forall is_octet (preamble t))
    by (apply preamble_octets; eapply shaped_weaken; [|exact Ht]; auto).
  destruct (writeOctets_spec (preamble t) b Hwf Hoct)
    as (b1 & Hw & Hwf1 & Hl1 & Hp1 & _ & Hfrom).
  exists b1. split.
  - unfold Puffman.serialize, Puffman.buildString.
    now rewrite (serialize_writes token_ok t Ht).
  - intros fuel Hfuel. unfold Puffman.Node_unserialize.
    rewrite (unserialize_preamble t Ht fuel b1 []); try assumption.
    + f_equal. f_equal. lia.
    + now apply wf_readable.
    + rewrite app_nil_r, Hp1, Hpos. exact Hfrom.
Qed.

Lemma token_ok_color : token_ok "color".
Proof.
  split; [discriminate|].
  repeat constructor; vm_compute; discriminate.
Qed.

Lemma token_ok_e : token_ok "e".
Proof.
  split; [discriminate|].
  repeat constructor; vm_compute; discriminate.
Qed.

Lemma serialize_unserialize_color :
  let t := Puffman.mkNode
             (Some (Puffman.mkNode None None (Some "e"%string) 1))
             (Some (Puffman.mkNode None None (Some "color"%string) 1)) None 2 in
  huffman_tree t /\ wf BitBuf.new /\
  BitBuf.pos BitBuf.new = BitBuf.length BitBuf.new /\
  exists b1,
    Puffman.serialize t BitBuf.new = (Js.Ok tt, b1) /\
    forall fuel, (depth t < fuel)%nat ->
      Puffman.Node_unserialize fuel b1
      = (Js.Ok (Some (forget_occurrences t)), BitBuf.set_pos (BitBuf.length b1) b1).
Proof.
  intros t.
  assert (Ht : huffman_tree t).
  { apply shaped_internal; apply shaped_leaf;
      [apply token_ok_e|apply token_ok_color]. }
  split; [exact Ht|]. split; [apply wf_new|]. split; [reflexivity|].
  apply (serialize_unserialize t BitBuf.new Ht wf_new eq_refl).
Defined.

(** ** Fields of the preamble *)

Lemma code_char (o : Z) : is_octet o -> Js.code (Js.char o) = o.
Proof.
  intros Ho. unfold Js.code, Js.char, is_octet in *.
  rewrite N_ascii_embedding by lia. lia.
Qed.

Lemma first_code_decode (field : list Z) (c : Z) :
  Forall is_octet field ->
  Puffman.first_code_is (BitBuf.decode field) c = true <-> head field = Some c.
Proof.
  intros Hf. destruct field as [|o field]; simpl.
  - split; discriminate.
  - apply Forall_cons in Hf as [Ho _].
    unfold Puffman.first_code_is. simpl. rewrite code_char by assumption.
    rewrite Z.eqb_eq. split; congruence.
Qed.

(** A field whose first octet is 0x00 is read as an absent node. *)
Lemma unserialize_absent (fuel : nat) (b : BitBuf.t) (field : list Z) :
  readable b ->
  Forall is_octet field ->
  Forall (fun o => o <> Puffman.SPLIT) field ->
  octets_from b (BitBuf.pos b) (field ++ [Puffman.SPLIT]) ->
  head field = Some Puffman.NULL_NODE ->
  Puffman.unserialize_buildTree (S fuel) b
  = (Js.Ok None,
     BitBuf.set_pos (BitBuf.pos b + 8 * (Z.of_nat (List.length field) + 1)) b).
Proof.
  intros Hrd Hoct Hne Hfrom Hhead.
  cbn [Puffman.unserialize_buildTree]. unfold Js.bind at 1.
  rewrite (readString_spec Puffman.SPLIT field) by assumption.
  apply (first_code_decode field _ Hoct) in Hhead.
  now rewrite Hhead.
Qed.

(** Any other field makes a node: the call goes on with the two children
    behind the field and returns the node of their results, whose token
    is null when the first octet is 0x01 and the field content
    otherwise. *)
Lemma unserialize_present (fuel : nat) (b : BitBuf.t) (field : list Z) :
  readable b ->
  Forall is_octet field ->
  Forall (fun o => o <> Puffman.SPLIT) field ->
  octets_from b (BitBuf.pos b) (field ++ [Puffman.SPLIT]) ->
  head field <> Some Puffman.NULL_NODE ->
  Puffman.unserialize_buildTree (S fuel) b
  = (l <- Puffman.unserialize_buildTree fuel ;;
     r <- Puffman.unserialize_buildTree fuel ;;
     Js.ret (Some (Puffman.mkNode l r
                     (if decide (head field = Some Puffman.NULL_TOKEN)
                      then None else Some (BitBuf.decode field)) 0)))
      (BitBuf.set_pos (BitBuf.pos b + 8 * (Z.of_nat (List.length field) + 1)) b).
Proof.
  intros Hrd Hoct Hne Hfrom Hhead.
  cbn [Puffman.unserialize_buildTree]. unfold Js.bind at 1.
  rewrite (readString_spec Puffman.SPLIT field) by assumption.
  destruct (Puffman.first_code_is (BitBuf.decode field) Puffman.NULL_NODE) eqn:E0.
  { apply (first_code_decode field _ Hoct) in E0. contradiction. }
  assert (Etok : (if negb (Puffman.first_code_is (BitBuf.decode field) Puffman.NULL_TOKEN)
                  then Some (BitBuf.decode field) else None)
                 = (if decide (head field = Some Puffman.NULL_TOKEN)
                    then None else Some (BitBuf.decode field))).
  { destruct (Puffman.first_code_is (BitBuf.decode field) Puffman.NULL_TOKEN) eqn:E1.
    - apply (first_code_decode field _ Hoct) in E1.
      destruct (decide _); [reflexivity|contradiction].
    - destruct (decide (head field = Some Puffman.NULL_TOKEN)) as [Hd|]; [|reflexivity].
      apply (first_code_decode field _ Hoct) in Hd. congruence. }
  cbv zeta. now rewrite Etok.
Qed.

Lemma decode_0_65 :
  BitBuf.decode [0; 65] <> String (Js.char Puffman.NULL_NODE) EmptyString.
Proof. vm_compute. discriminate. Qed.

(** The claim C4 as stated fails: a field that starts with the octet 0x00
    and goes on is read as an absent node too. *)
Lemma absent_field_counterexample :
  ~ (forall (fuel : nat) (b b1 : BitBuf.t) (val : string),
       BitBuf.readString Puffman.SPLIT b = (Js.Ok val, b1) ->
       ((Puffman.unserialize_buildTree (S fuel) b).1 = Js.Ok None
        <-> val = String (Js.char Puffman.NULL_NODE) EmptyString)).
Proof.
  intros H.
  generalize (written_stream [0; 65; 3]).
  generalize ((writeOctets [0; 65; 3] BitBuf.new).2). intros b Hb.
  destruct Hb as (Hwf & Hpos & Hlen & Hfrom).
  { repeat constructor; unfold is_octet; lia. }
  assert (Hrd : readable b) by now apply wf_readable.
  assert (Hoct : Forall is_octet [0; 65])
    by (repeat constructor; unfold is_octet; lia).
  assert (Hne : Forall (fun o => o <> Puffman.SPLIT) [0; 65])
    by (repeat constructor; discriminate).
  assert (Hfield : octets_from b (BitBuf.pos b) ([0; 65] ++ [Puffman.SPLIT]))
    by (rewrite Hpos; exact Hfrom).
  pose proof (readString_spec Puffman.SPLIT [0; 65] b Hrd Hfield Hne) as Hread.
  pose proof (unserialize_absent 0 b [0; 65] Hrd Hoct Hne Hfield eq_refl) as Habs.
  destruct (H 0%nat b _ _ Hread) as [Hval _].
  apply decode_0_65, Hval. now rewrite Habs.
Qed.

(** C4, amended: a delimited field is read as an absent node exactly when
    its first octet is 0x00, whatever follows.  For every other field a
    node is created: the call never returns the absent node; it goes on
    with the left and the right child behind the field, and when both are
    decoded it returns the node of the two, whose token is null exactly
    when the first octet of the field is 0x01 and is the whole field
    content in every other case (the empty field included); when a child
    is not decoded the call fails as the child did. *)
Theorem unserialize_field (fuel : nat) (b : BitBuf.t) (field : list Z) :
  readable b ->
  Forall is_octet field ->
  Forall (fun o => o <> Puffman.SPLIT) field ->
  octets_from b (BitBuf.pos b) (field ++ [Puffman.SPLIT]) ->
  let rest :=
    BitBuf.set_pos (BitBuf.pos b + 8 * (Z.of_nat (List.length field) + 1)) b in
  let token :=
    if decide (head field = Some Puffman.NULL_TOKEN)
    then None else Some (BitBuf.decode field) in
  (head field = Some Puffman.NULL_NODE ->
     Puffman.unserialize_buildTree (S fuel) b = (Js.Ok None, rest)) /\
  (head field <> Some Puffman.NULL_NODE ->
     (Puffman.unserialize_buildTree (S fuel) b).1 <> Js.Ok None /\
     (forall l b1 r b2,
        Puffman.unserialize_buildTree fuel rest = (Js.Ok l, b1) ->
        Puffman.unserialize_buildTree fuel b1 = (Js.Ok r, b2) ->
        Puffman.unserialize_buildTree (S fuel) b
        = (Js.Ok (Some (Puffman.mkNode l r token 0)), b2)) /\
     Puffman.unserialize_buildTree (S fuel) b
     = (l <- Puffman.unserialize_buildTree fuel ;;
        r <- Puffman.unserialize_buildTree fuel ;;
        Js.ret (Some (Puffman.mkNode l r token 0))) rest).
Proof.
  intros Hrd Hoct Hne Hfrom rest token. split.
  - now apply unserialize_absent.
  - intros Hhead.
    pose proof (unserialize_present fuel b field Hrd Hoct Hne Hfrom Hhead) as E.
    fold rest token in E. split_and!.
    + rewrite E. unfold Js.bind, Js.ret.
      destruct (Puffman.unserialize_buildTree fuel rest) as [[l|e|] b1];
        [|discriminate..].
      destruct (Puffman.unserialize_buildTree fuel b1) as [[r|e|] b2]; discriminate.
    + intros l b1 r b2 Hl Hr. rewrite E. unfold Js.bind, Js.ret.
      now rewrite Hl, Hr.
    + exact E.
Qed.

(** The field [A] followed by two absent children: the node with the
    token [A] and no child is returned. *)
Lemma unserialize_field_A :
  let b := (writeOctets [65; 3; 0; 3; 0; 3] BitBuf.new).2 in
  readable b /\ Forall is_octet [65] /\
  Forall (fun o => o <> Puffman.SPLIT) [65] /\
  octets_from b (BitBuf.pos b) ([65] ++ [Puffman.SPLIT]) /\
  head [65] <> Some Puffman.NULL_NODE /\
  Puffman.unserialize_buildTree 2 b
  = (Js.Ok (Some (Puffman.mkNode None None (Some "A"%string) 0)),
     BitBuf.set_pos 48 b).
Proof.
  generalize (written_stream [65; 3; 0; 3; 0; 3]).
  generalize ((writeOctets [65; 3; 0; 3; 0; 3] BitBuf.new).2). intros b Hb.
  destruct Hb as (Hwf & Hpos & Hlen & Hfrom).
  { repeat constructor; unfold is_octet; lia. }
  assert (H1 : readable b) by now apply wf_readable.
  assert (H2 : Forall is_octet [65]) by (repeat constructor; unfold is_octet; lia).
  assert (H3 : Forall (fun o => o <> Puffman.SPLIT) [65])
    by (repeat constructor; discriminate).
  assert (H4 : octets_from b (BitBuf.pos b) ([65] ++ [Puffman.SPLIT])).
  { rewrite Hpos. simpl in Hfrom. simpl. tauto. }
  assert (H5 : head [65] <> Some Puffman.NULL_NODE) by discriminate.
  cbv zeta.
  split; [exact H1|]. split; [exact H2|]. split; [exact H3|]. split; [exact H4|].
  split; [exact H5|].
  destruct (unserialize_field 1 b [65] H1 H2 H3 H4) as [_ Hnode].
  destruct (Hnode H5) as (_ & Hmade & _).
  assert (Hzero : Forall is_octet [0]) by (repeat constructor; unfold is_octet; lia).
  assert (Hsplit : Forall (fun o => o <> Puffman.SPLIT) [0])
    by (repeat constructor; discriminate).
  simpl in Hfrom. destruct Hfrom as (Ha & Hb & Hc & Hd & He & Hf & Hg & Hh & Hrest).
  rewrite Hpos in Hmade.
  rewrite (Hmade None (BitBuf.set_pos 32 b) None (BitBuf.set_pos 48 b)).
  - reflexivity.
  - rewrite (unserialize_absent 0 _ [0]); try assumption; try reflexivity.
    + apply readable_set_pos; [exact H1|simpl; lia].
    + apply octets_from_set_pos. simpl. tauto.
  - rewrite (unserialize_absent 0 _ [0]); try assumption; try reflexivity.
    all: try (apply readable_set_pos; [exact H1|simpl; lia]).
    all: try (apply octets_from_set_pos; simpl; tauto).
Defined.

(** ** The Huffman tree and its codes *)

Section Codes.

Lemma append_assoc (a b c : string) : (a +:+ b) +:+ c = a +:+ (b +:+ c).
Proof.
  induction a as [|x a IH]; [reflexivity|].
  change (String x ((a +:+ b) +:+ c) = String x (a +:+ (b +:+ c))). now f_equal.
Qed.

Lemma append_nil_r (a : string) : a +:+ "" = a.
Proof.
  induction a as [|x a IH]; [reflexivity|].
  change (String x (a +:+ "") = String x a). now f_equal.
Qed.

Lemma is_prefix_trans (a b c : string) : is_prefix a b -> is_prefix b c -> is_prefix a c.
Proof.
  intros [s ->] [s' ->]. exists (s +:+ s'). apply append_assoc.
Qed.

Lemma is_prefix_app (a b : string) : is_prefix a (a +:+ b).
Proof. now exists b. Qed.

(** Codes under the two children of a node never extend one another. *)
Lemma branches_differ (p c1 c2 : string) :
  is_prefix (p +:+ "0") c1 -> is_prefix (p +:+ "1") c2 ->
  ~ is_prefix c1 c2 /\ ~ is_prefix c2 c1.
Proof.
  intros [s1 ->] [s2 ->]. split; intros [s H]; rewrite !append_assoc in H;
    apply (inj (String.append p)) in H; simpl in H; discriminate.
Qed.

Lemma walk_codes_prefix (t : Puffman.Node) :
  full_tree t -> forall prefix tok c,
  (tok, c) ∈ walk_codes t prefix -> is_prefix prefix c.
Proof.
  induction 1 as [tok0 occ _|l r occ _ IHl _ IHr]; intros prefix tok c Hin;
    cbn [walk_codes] in Hin.
  - apply list_elem_of_singleton in Hin. injection Hin as _ ->. exists EmptyString.
    symmetry. apply append_nil_r.
  - apply elem_of_app in Hin as [Hin|Hin].
    + eapply is_prefix_trans; [apply is_prefix_app|]. eapply IHl, Hin.
    + eapply is_prefix_trans; [apply is_prefix_app|]. eapply IHr, Hin.
Qed.

(** The codes of two different tokens of a tree are prefix-free. *)
Lemma walk_codes_prefix_free (t : Puffman.Node) :
  full_tree t -> forall prefix tok1 c1 tok2 c2,
  (tok1, c1) ∈ walk_codes t prefix -> (tok2, c2) ∈ walk_codes t prefix ->
  tok1 <> tok2 -> ~ is_prefix c1 c2.
Proof.
  induction 1 as [tok0 occ _|l r occ Hl IHl Hr IHr];
    intros prefix tok1 c1 tok2 c2 H1 H2 Hne; cbn [walk_codes] in H1, H2.
  - apply list_elem_of_singleton in H1, H2. congruence.
  - apply elem_of_app in H1 as [H1|H1]; apply elem_of_app in H2 as [H2|H2].
    + eapply IHl; eauto.
    + apply (walk_codes_prefix l Hl) in H1. apply (walk_codes_prefix r Hr) in H2.
      now apply (branches_differ prefix c1 c2).
    + apply (walk_codes_prefix r Hr) in H1. apply (walk_codes_prefix l Hl) in H2.
      now apply (branches_differ prefix c2 c1).
    + eapply IHr; eauto.
Qed.

Lemma walk_codes_tokens (t : Puffman.Node) :
  full_tree t -> forall prefix, (walk_codes t prefix).*1 = leaf_tokens t.
Proof.
  induction 1 as [tok0 occ _|l r occ _ IHl _ IHr]; intros prefix;
    cbn [walk_codes leaf_tokens]; [reflexivity|].
  now rewrite fmap_app, IHl, IHr.
Qed.

(** [walk] on a full tree records the codes of the tree. *)
Lemma walk_spec (t : Puffman.Node) :
  full_tree t -> forall prefix p,
  Puffman.walk t prefix p
  = (Js.Ok tt,
     Puffman.set_mapToBin
       (record_codes (Puffman.mapToBin p) (walk_codes t prefix)) p).
Proof.
  induction 1 as [tok0 occ _|l r occ _ IHl _ IHr]; intros prefix p;
    cbn [Puffman.walk walk_codes].
  - reflexivity.
  - unfold Js.bind. rewrite IHl, IHr. unfold record_codes.
    rewrite foldl_app. reflexivity.
Qed.

Lemma record_codes_lookup (l : list (string * string)) :
  forall m tok c,
  record_codes m l !! tok = Some c -> (tok, c) ∈ l \/ m !! tok = Some c.
Proof.
  unfold record_codes.
  induction l as [|[k v] l IH]; intros m tok c H; simpl in H; [now right|].
  apply IH in H as [H|H]; [left; now right|].
  destruct (decide (k = tok)) as [->|Hne].
  - rewrite lookup_insert_eq in H. injection H as ->. left. now left.
  - rewrite lookup_insert_ne in H by assumption. now right.
Qed.

Lemma record_codes_dom (l : list (string * string)) :
  forall m tok,
  is_Some (record_codes m l !! tok) <-> tok ∈ l.*1 \/ is_Some (m !! tok).
Proof.
  unfold record_codes.
  induction l as [|[k v] l IH]; intros m tok; simpl.
  - split; [now right|]. intros [H|H]; [|exact H]. now apply elem_of_nil in H.
  - rewrite IH. rewrite elem_of_cons.
    destruct (decide (k = tok)) as [->|Hne].
    + rewrite lookup_insert_eq. split; [intros _; left; now left|].
      intros _. right. eauto.
    + rewrite lookup_insert_ne by assumption. split.
      * intros [H|H]; [left; now right|now right].
      * intros [[H|H]|H]; [congruence|now left|now right].
Qed.

Lemma sort_insert_perm (a : Puffman.Node) (l : list Puffman.Node) :
  Puffman.sort_insert a l ≡ₚ a :: l.
Proof.
  induction l as [|b l IH]; simpl; [reflexivity|].
  destruct (Puffman.occurrences b - Puffman.occurrences a <=? 0); [reflexivity|].
  rewrite IH. apply perm_swap.
Qed.

Lemma sort_perm (l : list Puffman.Node) : Puffman.sort l ≡ₚ l.
Proof.
  unfold Puffman.sort. induction l as [|a l IH]; simpl; [reflexivity|].
  rewrite sort_insert_perm. now constructor.
Qed.

Lemma pop_snoc (l : list Puffman.Node) :
  l <> [] -> exists x l', l = l' ++ [x] /\ Puffman.pop l = (Some x, l').
Proof.
  intros Hne. destruct l as [|a l] using rev_ind; [congruence|].
  exists a, l. split; [reflexivity|]. unfold Puffman.pop.
  now rewrite last_snoc, removelast_last.
Qed.

(** The loop of [buildTree] ends with one tree over the tokens it started
    from, shaped as the trees it started from. *)
Lemma buildTree_loop_spec (P : string -> Prop) (fuel : nat) :
  forall base : list Puffman.Node,
  (List.length base <= fuel)%nat -> base <> [] -> Forall (shaped P) base ->
  exists root,
    Puffman.buildTree_loop fuel base = Js.Ok [root] /\ shaped P root /\
    forall tok,
      tok ∈ leaf_tokens root <-> exists n, n ∈ base /\ tok ∈ leaf_tokens n.
Proof.
  induction fuel as [|fuel IH]; intros base Hfuel Hne Hfull.
  - destruct base; [congruence|simpl in Hfuel; lia].
  - destruct base as [|a [|b base]]; [congruence| |].
    + exists a. split; [reflexivity|]. apply Forall_cons in Hfull as [Ha _].
      split; [exact Ha|]. intros tok. split.
      * intros H. exists a. split; [now left|exact H].
      * intros (n & Hn & H). apply list_elem_of_singleton in Hn. now subst.
    + set (base0 := a :: b :: base) in *.
      assert (Hlen0 : (2 <= List.length base0)%nat) by (simpl; lia).
      pose proof (sort_perm base0) as Hperm.
      assert (Hslen : List.length (Puffman.sort base0) = List.length base0)
        by now rewrite Hperm.
      destruct (pop_snoc (Puffman.sort base0)) as (ln & rest1 & E1 & Hpop1).
      { intros E. rewrite E in Hslen. simpl in Hslen. lia. }
      assert (Hlen1 : S (List.length rest1) = List.length base0).
      { rewrite <- Hslen, E1, length_app. simpl. lia. }
      destruct (pop_snoc rest1) as (rn & rest2 & E2 & Hpop2).
      { intros E. rewrite E in Hlen1. simpl in Hlen1. lia. }
      assert (Hlen2 : S (S (List.length rest2)) = List.length base0).
      { rewrite <- Hlen1, E2, length_app. simpl. lia. }
      assert (Hfull' : Forall (shaped P) (rest2 ++ [rn] ++ [ln])).
      { rewrite app_assoc, <- E2, <- E1, Hperm. exact Hfull. }
      apply Forall_app in Hfull' as [Hf2 Hf1].
      apply Forall_app in Hf1 as [Hfr Hfl].
      rewrite Forall_singleton in Hfr, Hfl.
      set (n := Puffman.mkNode (Some ln) (Some rn) None
                  (0 + Puffman.occurrences ln + Puffman.occurrences rn)).
      destruct (IH (rest2 ++ [n])) as (root & Hloop & Hroot & Htok).
      { rewrite length_app. simpl. lia. }
      { now destruct rest2. }
      { apply Forall_app. split; [exact Hf2|].
        apply Forall_singleton.
        exact (shaped_internal P ln rn _ Hfl Hfr). }
      exists root. split; [|split; [exact Hroot|]].
      * cbn [Puffman.buildTree_loop].
        fold base0. rewrite Hpop1, Hpop2.
        replace (1 <? Z.of_nat (List.length base0)) with true
          by (symmetry; apply Z.ltb_lt; lia).
        exact Hloop.
      * intros tok. rewrite Htok. split.
        -- intros (m & Hm & Ht). apply elem_of_app in Hm as [Hm|Hm].
           ++ exists m. split; [|exact Ht]. rewrite <- Hperm, E1, E2.
              apply elem_of_app. left. apply elem_of_app. now left.
           ++ apply list_elem_of_singleton in Hm. subst m.
              cbn [leaf_tokens] in Ht. apply elem_of_app in Ht as [Ht|Ht].
              ** exists ln. split; [|exact Ht]. rewrite <- Hperm, E1.
                 apply elem_of_app. right. now left.
              ** exists rn. split; [|exact Ht]. rewrite <- Hperm, E1, E2.
                 apply elem_of_app. left. apply elem_of_app. right. now left.
        -- intros (m & Hm & Ht). rewrite <- Hperm, E1, E2 in Hm.
           apply elem_of_app in Hm as [Hm|Hm];
             [apply elem_of_app in Hm as [Hm|Hm]|].
           ++ exists m. split; [|exact Ht]. apply elem_of_app. now left.
           ++ apply list_elem_of_singleton in Hm. subst m.
              exists n. split; [apply elem_of_app; right; now left|].
              cbn [leaf_tokens]. apply elem_of_app. now right.
           ++ apply list_elem_of_singleton in Hm. subst m.
              exists n. split; [apply elem_of_app; right; now left|].
              cbn [leaf_tokens]. apply elem_of_app. now left.
Qed.

(** [buildTree] and [buildMapToBin] on a table with at least one token and
    an empty map: the tree is full, and the map holds the codes of the
    tree, one for every token of the table. *)
Lemma build_spec (p : Puffman.t) :
  Puffman.tokenOccurrences p <> [] -> Puffman.mapToBin p = ∅ ->
  exists root p1 p2,
    Puffman.buildTree p = (Js.Ok tt, p1) /\ Puffman.tree p1 = Some root /\
    full_tree root /\
    Puffman.buildMapToBin p1 = (Js.Ok tt, p2) /\
    Puffman.mapToBin p2 = record_codes ∅ (walk_codes root "") /\
    (forall tok, tok ∈ leaf_tokens root <-> tok ∈ (Puffman.tokenOccurrences p).*1).
Proof.
  intros Hne Hmap. unfold Puffman.buildTree, Puffman.items.
  set (base := map _ (Puffman.tokenOccurrences p)).
  destruct (buildTree_loop_spec (fun _ => True) (List.length base) base)
    as (root & Hloop & Hroot & Htok).
  - lia.
  - subst base. now destruct (Puffman.tokenOccurrences p).
  - subst base. apply Forall_forall. intros n Hn.
    apply list_elem_of_In, in_map_iff in Hn as ([tok occ] & <- & _).
    exact (shaped_leaf (fun _ => True) tok occ I).
  - rewrite Hloop. eexists root, _, _. split; [reflexivity|].
    split; [reflexivity|]. split; [exact Hroot|].
    unfold Puffman.buildMapToBin. simpl Puffman.tree. cbv iota.
    rewrite (walk_spec root Hroot). split; [reflexivity|].
    split; [simpl; now rewrite Hmap|].
    intros tok. rewrite Htok. subst base. split.
    + intros (n & Hn & Ht).
      apply list_elem_of_In, in_map_iff in Hn as ([k occ] & <- & Hin).
      cbn [leaf_tokens Puffman.newNode] in Ht. apply list_elem_of_singleton in Ht.
      subst tok. apply list_elem_of_fmap. exists (k, occ).
      split; [reflexivity|now apply list_elem_of_In].
    + intros Hin. apply list_elem_of_fmap in Hin as ([k occ] & -> & Hin).
      exists (Puffman.newNode (Some k) occ). split.
      * apply list_elem_of_In, in_map_iff. exists (k, occ).
        split; [reflexivity|now apply list_elem_of_In].
      * cbn [leaf_tokens Puffman.newNode]. now left.
Qed.

(** The tree [buildTree] makes of a table whose tokens satisfy [P] has
    leaves whose tokens satisfy [P]. *)
Lemma buildTree_shaped (P : string -> Prop) (p : Puffman.t) :
  Puffman.tokenOccurrences p <> [] ->
  Forall P (Puffman.tokenOccurrences p).*1 ->
  exists root p1,
    Puffman.buildTree p = (Js.Ok tt, p1) /\ Puffman.tree p1 = Some root /\
    shaped P root.
Proof.
  intros Hne HP. unfold Puffman.buildTree, Puffman.items.
  set (base := map _ (Puffman.tokenOccurrences p)).
  destruct (buildTree_loop_spec P (List.length base) base) as (root & Hloop & Hroot & _).
  - lia.
  - subst base. now destruct (Puffman.tokenOccurrences p).
  - subst base. apply Forall_forall. intros n Hn.
    apply list_elem_of_In, in_map_iff in Hn as ([tok occ] & <- & Hin).
    apply shaped_leaf. rewrite Forall_forall in HP. apply HP.
    apply list_elem_of_fmap. exists (tok, occ).
    split; [reflexivity|now apply list_elem_of_In].
  - rewrite Hloop. eexists root, _. split; [reflexivity|]. split; [reflexivity|].
    exact Hroot.
Qed.

(** The preamble of the tree that [buildTree] makes of a table of
    admissible tokens reads back as that tree. *)
Lemma built_tree_preamble (p : Puffman.t) (b : BitBuf.t) :
  Puffman.tokenOccurrences p <> [] ->
  Forall token_ok (Puffman.tokenOccurrences p).*1 ->
  wf b -> BitBuf.pos b = BitBuf.length b ->
  exists root p1 b1,
    Puffman.buildTree p = (Js.Ok tt, p1) /\ Puffman.tree p1 = Some root /\
    Puffman.serialize root b = (Js.Ok tt, b1) /\
    forall fuel, (depth root < fuel)%nat ->
      Puffman.Node_unserialize fuel b1
      = (Js.Ok (Some (forget_occurrences root)),
         BitBuf.set_pos (BitBuf.length b1) b1).
Proof.
  intros Hne Htok Hwf Hpos.
  destruct (buildTree_shaped token_ok p Hne Htok) as (root & p1 & Hb & Ht & Hroot).
  assert (Hoct : Forall is_octet (preamble root))
    by (apply preamble_octets; eapply shaped_weaken; [|exact Hroot]; auto).
  destruct (writeOctets_spec (preamble root) b Hwf Hoct)
    as (b1 & Hw & Hwf1 & Hl1 & Hp1 & _ & Hfrom).
  exists root, p1, b1. split_and!; try assumption.
  - unfold Puffman.serialize, Puffman.buildString.
    now rewrite (serialize_writes token_ok root Hroot).
  - intros fuel Hfuel. unfold Puffman.Node_unserialize.
    rewrite (unserialize_preamble root Hroot fuel b1 []); try assumption.
    + f_equal. f_equal. lia.
    + now apply wf_readable.
    + rewrite app_nil_r, Hp1, Hpos. exact Hfrom.
Qed.

End Codes.

(** C5: for every frequency table with at least two distinct tokens,
    [buildTree] and [buildMapToBin] succeed, every token of the table gets
    a code, and no token's code is a prefix of (in particular, equal to) a
    different token's code. *)
Theorem codes_prefix_free (p : Puffman.t) (t1 t2 : string) :
  t1 ∈ (Puffman.tokenOccurrences p).*1 ->
  t2 ∈ (Puffman.tokenOccurrences p).*1 ->
  t1 <> t2 ->
  Puffman.mapToBin p = ∅ ->
  exists p1 p2,
    Puffman.buildTree p = (Js.Ok tt, p1) /\
    Puffman.buildMapToBin p1 = (Js.Ok tt, p2) /\
    (forall tok,
       tok ∈ (Puffman.tokenOccurrences p).*1 <-> is_Some (Puffman.mapToBin p2 !! tok)) /\
    (forall a b ca cb,
       a <> b ->
       Puffman.mapToBin p2 !! a = Some ca ->
       Puffman.mapToBin p2 !! b = Some cb ->
       ~ is_prefix ca cb /\ ca <> cb).
Proof.
  intros H1 _ _ Hmap.
  destruct (build_spec p) as (root & p1 & p2 & Hb & Htree & Hfull & Hm & Hcodes & Htok).
  { intros E. rewrite E in H1. now apply elem_of_nil in H1. }
  { exact Hmap. }
  exists p1, p2. split; [exact Hb|]. split; [exact Hm|]. split.
  - intros tok. rewrite Hcodes, record_codes_dom, <- Htok.
    rewrite (walk_codes_tokens root Hfull). rewrite lookup_empty.
    split; [now left|]. intros [H|H]; [exact H|]. now destruct H.
  - intros a b ca cb Hab Ha Hb'. rewrite Hcodes in Ha, Hb'.
    apply record_codes_lookup in Ha as [Ha|Ha]; [|now rewrite lookup_empty in Ha].
    apply record_codes_lookup in Hb' as [Hb'|Hb']; [|now rewrite lookup_empty in Hb'].
    pose proof (walk_codes_prefix_free root Hfull "" a ca b cb Ha Hb' Hab) as Hpf.
    split; [exact Hpf|]. intros ->. apply Hpf. exists EmptyString.
    symmetry. apply append_nil_r.
Qed.

Lemma codes_prefix_free_color_e :
  let p := (Puffman.see "e" (Puffman.see "color" Puffman.new).2).2 in
  "color"%string ∈ (Puffman.tokenOccurrences p).*1 /\
  "e"%string ∈ (Puffman.tokenOccurrences p).*1 /\
  "color"%string <> "e"%string /\
  Puffman.mapToBin p = ∅ /\
  exists p1 p2,
    Puffman.buildTree p = (Js.Ok tt, p1) /\
    Puffman.buildMapToBin p1 = (Js.Ok tt, p2) /\
    (forall tok,
       tok ∈ (Puffman.tokenOccurrences p).*1 <-> is_Some (Puffman.mapToBin p2 !! tok)) /\
    (forall a b ca cb,
       a <> b ->
       Puffman.mapToBin p2 !! a = Some ca ->
       Puffman.mapToBin p2 !! b = Some cb ->
       ~ is_prefix ca cb /\ ca <> cb).
Proof.
  intros p.
  assert (H1 : "color"%string ∈ (Puffman.tokenOccurrences p).*1) by (now left).
  assert (H2 : "e"%string ∈ (Puffman.tokenOccurrences p).*1) by (right; now left).
  assert (H3 : "color"%string <> "e"%string) by discriminate.
  assert (H4 : Puffman.mapToBin p = ∅) by reflexivity.
  split; [exact H1|]. split; [exact H2|]. split; [exact H3|]. split; [exact H4|].
  exact (codes_prefix_free p "color" "e" H1 H2 H3 H4).
Defined.

(** C6, as the code has it: with exactly one token in the table,
    [buildTree] yields the one-leaf tree and [buildMapToBin] gives the
    token the empty code, but [findToken] never returns the token: it
    pulls a bit, steps to a child that is not there and throws. *)
Theorem single_token_not_decodable (tok : string) (occ : Z) :
  let p := Puffman.mk [(tok, occ)] None ∅ in
  exists p1 p2,
    Puffman.buildTree p = (Js.Ok tt, p1) /\
    Puffman.tree p1 = Some (Puffman.mkNode None None (Some tok) occ) /\
    Puffman.buildMapToBin p1 = (Js.Ok tt, p2) /\
    Puffman.mapToBin p2 !! tok = Some EmptyString /\
    forall (S : Type) (fuel : nat) (next : Js.M S Z) (s : S) (found : string),
      (Puffman.findToken fuel next p2 s).1 <> Js.Ok found.
Proof.
  intros p. eexists _, _. split; [reflexivity|]. split; [reflexivity|].
  split; [reflexivity|]. split; [apply lookup_insert_eq|].
  intros S fuel next s found. unfold Puffman.findToken. simpl Puffman.tree.
  destruct fuel as [|fuel]; simpl; [discriminate|].
  unfold Js.bind. destruct (next s) as [[dir|e|] s']; simpl; try discriminate.
  destruct (dir =? 0); discriminate.
Qed.

(** The stylesheet with the one rule [a {}]: its only token is the escape
    token, and what [dump] writes [restore] cannot read back. *)
Lemma empty_rule_not_restored :
  let ast := [CssEater.ARule (CssEater.mkRule ["a"%string] [])] in
  (CssEater.dump ast BitBuf.new).1 = Js.Ok ast /\
  (CssEater.restore 16 (CssEater.dump ast BitBuf.new).2).1 = Js.Throw Js.TypeError.
Proof. split; vm_compute; reflexivity. Qed.

(** ** The structural codec *)

(** C1: the stylesheet with the one rule [a { color: red }] is grouped
    into one media block with the empty query; [dump] into a fresh stream
    and [restore] from that stream give the text of the rule, with no
    media wrapper. *)
Theorem dump_restore_scenario :
  let rule := CssEater.mkRule ["a"%string] [CssEater.Decl "color" "red"] in
  let ast := [CssEater.ARule rule] in
  CssEater.groupBlocks ast = ([CssEater.BNew "" [rule]], ast) /\
  (CssEater.dump ast BitBuf.new).1 = Js.Ok ast /\
  (CssEater.restore 8 (CssEater.dump ast BitBuf.new).2).1
  = Js.Ok ("a {" +:+ CssEater.nl +:+ "  color: red;" +:+ CssEater.nl +:+ "}").
Proof. split_and!; vm_compute; reflexivity. Qed.

(** C9, as the code has it: [groupBlocks] appends a plain rule that
    follows a media node with the empty query to the rules of that node of
    the tree itself, and [dump] calls it twice; so a second [dump] of the
    same tree writes a longer stream than the first. *)
Theorem dump_twice_differs :
  let a := CssEater.mkRule ["a"%string] [CssEater.Decl "color" "red"] in
  let b := CssEater.mkRule ["b"%string] [CssEater.Decl "color" "blue"] in
  let ast := [CssEater.AMedia "" [a]; CssEater.ARule b] in
  let ast1 := [CssEater.AMedia "" [a; b; b]; CssEater.ARule b] in
  let ast2 := [CssEater.AMedia "" [a; b; b; b; b]; CssEater.ARule b] in
  (CssEater.dump ast BitBuf.new).1 = Js.Ok ast1 /\
  (CssEater.dump ast1 BitBuf.new).1 = Js.Ok ast2 /\
  BitBuf.length (CssEater.dump ast BitBuf.new).2 = 386 /\
  BitBuf.length (CssEater.dump ast1 BitBuf.new).2 = 534.
Proof. split_and!; vm_compute; reflexivity. Qed.

(** ** Loops that the length of the stream bounds *)

Section Totality.

Lemma octets_left_step (b : BitBuf.t) (fuel : nat) :
  BitBuf.pos b + 8 <= BitBuf.length b ->
  (BitBuf.octets_left b < S fuel)%nat ->
  (BitBuf.octets_left (BitBuf.set_pos (BitBuf.pos b + 8) b) < fuel)%nat.
Proof.
  unfold BitBuf.octets_left, BitBuf.OCTET_SIZE. simpl. intros Hle Hlt.
  assert (E : (BitBuf.length b - (BitBuf.pos b + 8)) / 8
              = (BitBuf.length b - BitBuf.pos b) / 8 - 1)
    by (Z.to_euclidean_division_equations; lia).
  assert (1 <= (BitBuf.length b - BitBuf.pos b) / 8)
    by (Z.to_euclidean_division_equations; lia).
  rewrite E. lia.
Qed.

(** The loop of [StringEater.eat] ends before the bound it is given. *)
Lemma StringEater_eat_loop_total (fuel : nat) :
  forall (b : BitBuf.t) (data : list Z),
  readable b -> (BitBuf.octets_left b < fuel)%nat ->
  (CssEater.StringEater_eat_loop fuel data b).1 <> Js.OutOfFuel.
Proof.
  induction fuel as [|fuel IH]; intros b data Hrd Hfuel; [lia|].
  pose proof (rd_pos b Hrd) as Hpos.
  cbn [CssEater.StringEater_eat_loop]. unfold Js.bind.
  destruct (Z.le_gt_cases (BitBuf.pos b + 8) (BitBuf.length b)) as [Hle|Hgt].
  - rewrite readOctet_ok by assumption.
    destruct (negb (octet_at b (BitBuf.pos b) =? 0)); [|discriminate].
    apply IH; [apply readable_set_pos; [assumption|lia]|].
    now apply octets_left_step.
  - rewrite readOctet_fail by (try assumption; lia). discriminate.
Qed.

(** So does the loop of [readString]. *)
Lemma readString_total (d : Z) (b : BitBuf.t) :
  readable b -> (BitBuf.readString d b).1 <> Js.OutOfFuel.
Proof.
  intros Hrd. unfold BitBuf.readString.
  assert (H : forall fuel b data, readable b -> (BitBuf.octets_left b < fuel)%nat ->
            (BitBuf.readString_loop fuel d data b).1 <> Js.OutOfFuel).
  { clear. induction fuel as [|fuel IH]; intros b data Hrd Hfuel; [lia|].
    pose proof (rd_pos b Hrd) as Hpos.
    cbn [BitBuf.readString_loop]. unfold Js.bind.
    destruct (Z.le_gt_cases (BitBuf.pos b + 8) (BitBuf.length b)) as [Hle|Hgt].
    - rewrite readOctet_ok by assumption.
      destruct (octet_at b (BitBuf.pos b) =? d); [discriminate|].
      apply IH; [apply readable_set_pos; [assumption|lia]|].
      now apply octets_left_step.
    - rewrite readOctet_fail by (try assumption; lia). discriminate. }
  apply H; [exact Hrd|lia].
Qed.

(** The loop of [buildTree] ends within the length of its array. *)
Lemma buildTree_total (p : Puffman.t) :
  (Puffman.buildTree p).1 <> Js.OutOfFuel.
Proof.
  unfold Puffman.buildTree, Puffman.items.
  set (base := map _ (Puffman.tokenOccurrences p)).
  assert (H : forall fuel base, (List.length base <= fuel)%nat ->
            Puffman.buildTree_loop fuel base <> Js.OutOfFuel).
  { clear. induction fuel as [|fuel IH]; intros base Hlen.
    - destruct base; [discriminate|simpl in Hlen; lia].
    - cbn [Puffman.buildTree_loop].
      destruct (1 <? Z.of_nat (List.length base)) eqn:E; [|discriminate].
      pose proof (sort_perm base) as Hperm.
      destruct (pop_snoc (Puffman.sort base)) as (ln & rest1 & E1 & ->).
      { intros E0. apply (f_equal List.length) in E0. rewrite Hperm in E0.
        simpl in E0. blia. }
      assert (Hl1 : S (List.length rest1) = List.length base).
      { rewrite <- Hperm, E1, length_app. simpl. lia. }
      destruct (pop_snoc rest1) as (rn & rest2 & E2 & ->).
      { intros E0. rewrite E0 in Hl1. simpl in Hl1. blia. }
      apply IH. rewrite length_app. simpl.
      rewrite E2, length_app in Hl1. simpl in Hl1. lia. }
  specialize (H (List.length base) base ltac:(lia)).
  destruct (Puffman.buildTree_loop (List.length base) base); simpl; congruence.
Qed.

(** A buffer loaded with [fromBuffer] has chunks that reach its length. *)
Lemma fromBuffer_loop_cover (buf : list Z) (fuel : nat) :
  forall i, 0 <= i ->
  Z.of_nat (List.length buf) - i <= Z.of_nat fuel ->
  Z.of_nat (List.length buf) - i
  <= 1024 * Z.of_nat (List.length (BitBuf.fromBuffer_loop fuel i buf)).
Proof.
  induction fuel as [|fuel IH]; intros i Hi Hfuel; [simpl; lia|].
  cbn [BitBuf.fromBuffer_loop].
  destruct (i <? Z.of_nat (List.length buf)) eqn:E; [|simpl; blia].
  cbn [List.length]. unfold BitBuf.CHUNK_SIZE.
  specialize (IH (i + 1024) ltac:(lia) ltac:(lia)). lia.
Qed.

Lemma fromBuffer_loop_octets (buf : list Z) (fuel : nat) :
  Forall is_octet buf ->
  forall i, Forall octets_ok (BitBuf.fromBuffer_loop fuel i buf).
Proof.
  intros Hbuf. induction fuel as [|fuel IH]; intros i; [constructor|].
  cbn [BitBuf.fromBuffer_loop].
  destruct (i <? Z.of_nat (List.length buf)); [|constructor].
  constructor; [|apply IH].
  unfold BitBuf.slice, octets_ok. now apply Forall_take, Forall_drop.
Qed.

Lemma fromBuffer_readable (buf : list Z) :
  Forall is_octet buf -> readable (BitBuf.fromBuffer buf BitBuf.new).2.
Proof.
  intros Hbuf. split; simpl.
  - lia.
  - now apply fromBuffer_loop_octets.
  - pose proof (fromBuffer_loop_cover buf (List.length buf) 0 ltac:(lia) ltac:(lia)).
    unfold BitBuf.OCTET_SIZE. lia.
Qed.

End Totality.

(** ** The tree under [groupBlocks] *)

Section Grouping.

(** No media node of the tree has the empty query. *)
Variable ast : CssEater.Ast.
Hypothesis no_blank_media :
  forall i rules, ast !! i <> Some (CssEater.AMedia "" rules).

Lemma push_to_latest_keeps_ast (rule : CssEater.Rule) (blocks blocks' : list CssEater.Block)
    (ast' : CssEater.Ast) :
  CssEater.push_to_latest rule blocks ast = Some (blocks', ast') -> ast' = ast.
Proof.
  unfold CssEater.push_to_latest.
  destruct (last blocks) as [[media rules|i|contents]|]; try discriminate.
  - destruct (String.eqb media ""); [|discriminate]. now intros [= _ <-].
  - destruct (ast !! i) as [[r|media rules|c]|] eqn:E; try discriminate.
    destruct (String.eqb media "") eqn:Em; [|discriminate].
    apply String.eqb_eq in Em. subst media. now apply no_blank_media in E.
Qed.

Lemma groupBlocks_step_keeps_ast (i : nat) (blocks : list CssEater.Block) :
  (CssEater.groupBlocks_step i (blocks, ast)).2 = ast.
Proof.
  unfold CssEater.groupBlocks_step.
  destruct (ast !! i) as [[rule|media rules|contents]|]; try reflexivity.
  - destruct (CssEater.push_to_latest rule blocks ast) as [[blocks' ast']|] eqn:E;
      [|reflexivity].
    simpl. eapply push_to_latest_keeps_ast, E.
  - destruct (String.eqb contents ""); reflexivity.
Qed.

(** Then [groupBlocks] leaves the tree as it was. *)
Lemma groupBlocks_keeps_ast : (CssEater.groupBlocks ast).2 = ast.
Proof.
  unfold CssEater.groupBlocks.
  generalize (seq 0 (List.length ast)) ([] : list CssEater.Block).
  intros l. induction l as [|i l IH]; intros blocks; [reflexivity|].
  cbn [fold_left].
  pose proof (groupBlocks_step_keeps_ast i blocks) as E.
  destruct (CssEater.groupBlocks_step i (blocks, ast)) as [blocks' ast'].
  simpl in E. subst ast'. apply IH.
Qed.

Lemma bind_ok_inv {S A B} (m : Js.M S A) (f : A -> Js.M S B) (s s' : S) (x : B) :
  Js.bind m f s = (Js.Ok x, s') ->
  exists a s1, m s = (Js.Ok a, s1) /\ f a s1 = (Js.Ok x, s').
Proof.
  unfold Js.bind. destruct (m s) as [[a|e|] s1]; try discriminate. eauto.
Qed.

(** And a [dump] that returns hands the tree back unchanged, so that a
    second [dump] of it starts from the same tree. *)
Lemma dump_keeps_ast (b b' : BitBuf.t) (ast' : CssEater.Ast) :
  CssEater.dump ast b = (Js.Ok ast', b') -> ast' = ast.
Proof.
  unfold CssEater.dump.
  destruct (CssEater.dump_with ast (CssEater.buildEaters b)) as [r e] eqn:E.
  intros [= -> _]. unfold CssEater.dump_with in E.
  apply bind_ok_inv in E as (ast1 & e1 & Hload & E).
  assert (ast1 = ast) as ->.
  { unfold CssEater.Prop_loadFromAst in Hload.
    pose proof groupBlocks_keeps_ast as Hk.
    destruct (CssEater.groupBlocks ast) as [blocks a1]. simpl in Hk. subst a1.
    apply bind_ok_inv in Hload as (? & ? & _ & Hload).
    apply bind_ok_inv in Hload as (? & ? & _ & Hload).
    apply bind_ok_inv in Hload as (? & ? & _ & Hload).
    now injection Hload as <- _. }
  apply bind_ok_inv in E as (? & e2 & _ & E).
  pose proof groupBlocks_keeps_ast as Hk.
  destruct (CssEater.groupBlocks ast) as [blocks a1]. simpl in Hk. subst a1.
  apply bind_ok_inv in E as (? & ? & _ & E).
  apply bind_ok_inv in E as (? & ? & _ & E).
  now injection E as <- _.
Qed.

End Grouping.

(** * Further properties of the code *)

(** ** bitbuf.js: coordinates, [push], [get], octets *)

(** X1: for a bit index that is not negative, [getCoordinates] gives a
    chunk index that is not negative, an octet index within a chunk and a
    bit index within an octet, and the three give the index back. *)
Theorem getCoordinates_in_range (index : Z) :
  0 <= index ->
  let '(chunkIndex, octetIndex, bitIndex) := BitBuf.getCoordinates index in
  0 <= chunkIndex /\
  0 <= octetIndex < BitBuf.CHUNK_SIZE /\
  0 <= bitIndex < BitBuf.OCTET_SIZE /\
  index = (chunkIndex * BitBuf.CHUNK_SIZE + octetIndex) * BitBuf.OCTET_SIZE + bitIndex.
Proof.
  intros Hi. rewrite getCoordinates_eq by assumption.
  unfold BitBuf.CHUNK_SIZE, BitBuf.OCTET_SIZE.
  split_and!; Z.to_euclidean_division_equations; lia.
Qed.

Lemma getCoordinates_in_range_8200 :
  0 <= 8200 /\
  let '(chunkIndex, octetIndex, bitIndex) := BitBuf.getCoordinates 8200 in
  0 <= chunkIndex /\
  0 <= octetIndex < BitBuf.CHUNK_SIZE /\
  0 <= bitIndex < BitBuf.OCTET_SIZE /\
  8200 = (chunkIndex * BitBuf.CHUNK_SIZE + octetIndex) * BitBuf.OCTET_SIZE + bitIndex.
Proof.
  split; [lia|]. apply (getCoordinates_in_range 8200). lia.
Defined.

(** X2: on a buffer built by the writers, [push(bit)] does not throw; it
    makes the buffer one bit longer and leaves the read position; [get] at
    the old length then returns [bit & 1], and [get] at every earlier index
    returns what it returned before. *)
Theorem push_then_get (bit : Z) (b : BitBuf.t) :
  wf b ->
  exists b',
    BitBuf.push bit b = (Js.Ok tt, b') /\ wf b' /\
    BitBuf.length b' = BitBuf.length b + 1 /\
    BitBuf.pos b' = BitBuf.pos b /\
    BitBuf.get (BitBuf.length b) b' = (Js.Ok (bit mod 2), b') /\
    forall j, 0 <= j < BitBuf.length b ->
      exists x, BitBuf.get j b = (Js.Ok x, b) /\ BitBuf.get j b' = (Js.Ok x, b').
Proof.
  intros Hwf. pose proof (wf_length b Hwf) as Hlen.
  destruct (push_spec bit b Hwf) as (b' & Hpush & Hwf' & Hl & Hp & Hbits).
  exists b'. split_and!; try assumption.
  - rewrite get_ok by (try apply wf_readable, Hwf'; lia).
    rewrite Hbits, Z.eqb_refl by lia. reflexivity.
  - intros j Hj. exists (bit_at b j). split.
    + apply get_ok; [now apply wf_readable|lia].
    + rewrite get_ok by (try apply wf_readable, Hwf'; lia).
      rewrite Hbits by lia.
      replace (j =? BitBuf.length b) with false
        by (symmetry; apply Z.eqb_neq; lia).
      reflexivity.
Qed.

Lemma push_then_get_new :
  wf BitBuf.new /\
  exists b',
    BitBuf.push 1 BitBuf.new = (Js.Ok tt, b') /\ wf b' /\
    BitBuf.length b' = BitBuf.length BitBuf.new + 1 /\
    BitBuf.pos b' = BitBuf.pos BitBuf.new /\
    BitBuf.get (BitBuf.length BitBuf.new) b' = (Js.Ok (1 mod 2), b') /\
    forall j, 0 <= j < BitBuf.length BitBuf.new ->
      exists x, BitBuf.get j BitBuf.new = (Js.Ok x, BitBuf.new) /\
                BitBuf.get j b' = (Js.Ok x, b').
Proof.
  split; [apply wf_new|]. exact (push_then_get 1 BitBuf.new wf_new).
Defined.

Lemma to_int32_testbit (v i : Z) :
  0 <= i < 32 -> Z.testbit (Js.to_int32 v) i = Z.testbit v i.
Proof.
  intros Hi.
  rewrite <- (Z.mod_pow2_bits_low (Js.to_int32 v) 32 i) by lia.
  rewrite <- (Z.mod_pow2_bits_low v 32 i) by lia.
  f_equal. unfold Js.to_int32.
  change (2 ^ 32) with 4294967296. change (2 ^ 31) with 2147483648.
  Z.to_euclidean_division_equations. lia.
Qed.

Lemma to_int32_range (v : Z) : - 2 ^ 31 <= Js.to_int32 v < 2 ^ 31.
Proof.
  unfold Js.to_int32.
  change (2 ^ 32) with 4294967296. change (2 ^ 31) with 2147483648.
  Z.to_euclidean_division_equations. lia.
Qed.

(** The bit [writeOctet] pushes at turn [i], for any integer. *)
Lemma shr_bit_any (v i : Z) :
  0 <= i < 8 -> Js.shr v i mod 2 = Z.b2z (Z.testbit (v mod 256) i).
Proof.
  intros Hi. unfold Js.shr.
  rewrite (to_int32_small i), land_31_small by lia.
  rewrite <- testbit_mod2, Z.shiftr_spec by lia.
  rewrite Z.add_0_l, to_int32_testbit by lia.
  change 256 with (2 ^ 8). now rewrite Z.mod_pow2_bits_low by lia.
Qed.

(** X3: [writeOctet] keeps the low eight bits of its argument: for every
    integer [v], [writeOctet(v)] followed by [readOctet()] at the written
    position returns [v] modulo 256. *)
Theorem writeOctet_wraps (b : BitBuf.t) (v : Z) :
  wf b -> BitBuf.pos b = BitBuf.length b ->
  exists b1,
    BitBuf.writeOctet v b = (Js.Ok tt, b1) /\
    BitBuf.length b1 = BitBuf.length b + 8 /\
    BitBuf.readOctet b1 = (Js.Ok (v mod 256), BitBuf.set_pos (BitBuf.pos b + 8) b1).
Proof.
  intros Hwf Hpos. pose proof (wf_length b Hwf) as Hlen.
  destruct (write_bits_spec v 8 0 b Hwf) as (b1 & Hw & Hwf1 & Hl1 & Hp1 & Hbits).
  exists b1. split_and!; [exact Hw|lia|].
  rewrite readOctet_ok by (try apply wf_readable, Hwf1; lia).
  rewrite Hp1. f_equal. f_equal.
  apply octet_of_bits; [Z.to_euclidean_division_equations; lia|].
  intros i Hi. rewrite Hbits by lia.
  destruct (BitBuf.length b <=? BitBuf.pos b + i) eqn:E1; [|blia].
  destruct (BitBuf.pos b + i <? BitBuf.length b + Z.of_nat 8) eqn:E2; [|blia].
  simpl andb. cbv iota.
  replace (0 + (BitBuf.pos b + i - BitBuf.length b)) with i by lia.
  now apply shr_bit_any.
Qed.

Lemma writeOctet_wraps_321 :
  wf BitBuf.new /\ BitBuf.pos BitBuf.new = BitBuf.length BitBuf.new /\
  exists b1,
    BitBuf.writeOctet 321 BitBuf.new = (Js.Ok tt, b1) /\
    BitBuf.length b1 = BitBuf.length BitBuf.new + 8 /\
    BitBuf.readOctet b1
    = (Js.Ok (321 mod 256), BitBuf.set_pos (BitBuf.pos BitBuf.new + 8) b1).
Proof.
  split; [apply wf_new|]. split; [reflexivity|].
  exact (writeOctet_wraps BitBuf.new 321 wf_new eq_refl).
Defined.

Lemma octet_at_spec (b : BitBuf.t) (p : Z) :
  0 <= octet_at b p < 256 /\
  forall i, 0 <= i < 8 -> Z.b2z (Z.testbit (octet_at b p) i) = bit_at b (p + i).
Proof.
  assert (Hbit : forall x m, 0 <= x <= 1 -> Z.testbit x m = (m =? 0) && (x =? 1))
    by (intros; now apply testbit_bit).
  assert (Hbits : forall t, 0 <= t ->
            Z.testbit (octet_at b p) t
            = (t <? 8) && (bit_at b (p + t) =? 1)).
  { intros t Ht. unfold octet_at. simpl seq. simpl fold_right.
    change (Z.of_nat 0) with 0; change (Z.of_nat 1) with 1;
      change (Z.of_nat 2) with 2; change (Z.of_nat 3) with 3;
      change (Z.of_nat 4) with 4; change (Z.of_nat 5) with 5;
      change (Z.of_nat 6) with 6; change (Z.of_nat 7) with 7.
    rewrite !Z.lor_spec, !Z.shiftl_spec, Z.bits_0 by lia.
    rewrite !Hbit by apply bit_at_range.
    destruct (Z.lt_ge_cases t 8) as [Hlt|Hge].
    - assert (t = 0 \/ t = 1 \/ t = 2 \/ t = 3 \/ t = 4 \/ t = 5 \/ t = 6 \/ t = 7)
        as Ht8 by lia.
      repeat (destruct Ht8 as [-> | Ht8]); try subst t; simpl;
        rewrite ?orb_false_r; reflexivity.
    - replace (t <? 8) with false by (symmetry; apply Z.ltb_ge; lia).
      repeat match goal with
      | |- context [(?a =? 0)] =>
          replace (a =? 0) with false by (symmetry; apply Z.eqb_neq; lia)
      end.
      reflexivity. }
  split.
  - assert (Hm : octet_at b p mod 2 ^ 8 = octet_at b p).
    { apply Z.bits_inj'. intros i Hi.
      destruct (Z.lt_ge_cases i 8) as [Hlt|Hge].
      - now rewrite Z.mod_pow2_bits_low by lia.
      - rewrite Z.mod_pow2_bits_high, Hbits by lia.
        replace (i <? 8) with false by (symmetry; apply Z.ltb_ge; lia).
        reflexivity. }
    rewrite <- Hm. apply Z.mod_pos_bound. reflexivity.
  - intros i Hi. rewrite Hbits by lia.
    replace (i <? 8) with true by (symmetry; apply Z.ltb_lt; lia).
    pose proof (bit_at_range b (p + i)) as Hr.
    assert (bit_at b (p + i) = 0 \/ bit_at b (p + i) = 1) as [-> | ->] by lia;
      reflexivity.
Qed.

(** X4: when at least eight unread bits remain, [readOctet] returns an
    integer from 0 to 255 whose bit [i] is the bit [get] returns at
    position plus [i], moves the position by eight and changes nothing
    else. *)
Theorem readOctet_reads_bits (b : BitBuf.t) :
  readable b -> BitBuf.pos b + 8 <= BitBuf.length b ->
  exists o,
    BitBuf.readOctet b = (Js.Ok o, BitBuf.set_pos (BitBuf.pos b + 8) b) /\
    0 <= o < 256 /\
    forall i, 0 <= i < 8 ->
      BitBuf.get (BitBuf.pos b + i) b = (Js.Ok (Z.b2z (Z.testbit o i)), b).
Proof.
  intros Hrd Hlen. pose proof (rd_pos b Hrd) as Hpos.
  destruct (octet_at_spec b (BitBuf.pos b)) as [Hr Hbits].
  exists (octet_at b (BitBuf.pos b)). split; [|split].
  - now apply readOctet_ok.
  - exact Hr.
  - intros i Hi. rewrite get_ok by (try assumption; lia). now rewrite Hbits.
Qed.

Lemma readOctet_reads_bits_65 :
  let b := (BitBuf.writeOctet 65 BitBuf.new).2 in
  readable b /\ BitBuf.pos b + 8 <= BitBuf.length b /\
  exists o,
    BitBuf.readOctet b = (Js.Ok o, BitBuf.set_pos (BitBuf.pos b + 8) b) /\
    0 <= o < 256 /\
    forall i, 0 <= i < 8 ->
      BitBuf.get (BitBuf.pos b + i) b = (Js.Ok (Z.b2z (Z.testbit o i)), b).
Proof.
  generalize (writeOctet_spec 65 BitBuf.new wf_new ltac:(lia)).
  intros (b' & Hw & Hwf & Hl & Hp & _ & _). rewrite Hw. cbv zeta. simpl snd.
  assert (H1 : readable b') by now apply wf_readable.
  assert (H2 : BitBuf.pos b' + 8 <= BitBuf.length b')
    by (rewrite Hl, Hp; simpl; lia).
  split; [exact H1|]. split; [exact H2|].
  exact (readOctet_reads_bits b' H1 H2).
Defined.

(** ** bitbuf.js: [toBuffer] and [fromBuffer] *)

Section Bytes.

Lemma fromBuffer_loop_concat (buf : list Z) (fuel : nat) :
  forall i, 0 <= i ->
  Z.of_nat (List.length buf) - i <= Z.of_nat fuel ->
  concat (BitBuf.fromBuffer_loop fuel i buf) = drop (Z.to_nat i) buf.
Proof.
  induction fuel as [|fuel IH]; intros i Hi Hfuel.
  - simpl. symmetry. apply drop_ge. lia.
  - cbn [BitBuf.fromBuffer_loop].
    destruct (i <? Z.of_nat (List.length buf)) eqn:E.
    + cbn [concat]. rewrite IH by (unfold BitBuf.CHUNK_SIZE; lia).
      unfold BitBuf.slice, BitBuf.CHUNK_SIZE.
      replace (Z.to_nat (i + 1024 - i)) with 1024%nat by lia.
      replace (Z.to_nat (i + 1024)) with (Z.to_nat i + 1024)%nat by lia.
      rewrite <- drop_drop. apply take_drop.
    + simpl. symmetry. apply drop_ge. blia.
Qed.

Lemma ceil_div_8 (n : Z) : BitBuf.ceil_div (n * 8) 8 = n.
Proof. unfold BitBuf.ceil_div. Z.to_euclidean_division_equations. lia. Qed.

Lemma fromBuffer_loop_lookup (buf : list Z) (fuel : nat) :
  forall (i : Z) (c : nat), 0 <= i ->
  Z.of_nat (List.length buf) - i <= Z.of_nat fuel ->
  BitBuf.fromBuffer_loop fuel i buf !! c
  = if i + 1024 * Z.of_nat c <? Z.of_nat (List.length buf)
    then Some (BitBuf.slice buf (i + 1024 * Z.of_nat c) (i + 1024 * Z.of_nat c + 1024))
    else None.
Proof.
  induction fuel as [|fuel IH]; intros i c Hi Hfuel.
  - simpl.
    destruct (i + 1024 * Z.of_nat c <? Z.of_nat (List.length buf)) eqn:E;
      [blia|reflexivity].
  - cbn [BitBuf.fromBuffer_loop].
    destruct (i <? Z.of_nat (List.length buf)) eqn:E.
    + destruct c as [|c].
      * simpl lookup. replace (i + 1024 * Z.of_nat 0) with i by lia.
        rewrite E. reflexivity.
      * simpl lookup. rewrite IH by (unfold BitBuf.CHUNK_SIZE; lia).
        unfold BitBuf.CHUNK_SIZE.
        replace (i + 1024 + 1024 * Z.of_nat c) with (i + 1024 * Z.of_nat (S c)) by lia.
        reflexivity.
    + rewrite lookup_nil.
      destruct (i + 1024 * Z.of_nat c <? Z.of_nat (List.length buf)) eqn:E';
        [blia|reflexivity].
Qed.

(** The octets a loaded buffer stores are those of the bytes given. *)
Lemma stored_octet_fromBuffer (buf : list Z) (k : Z) :
  0 <= k ->
  stored_octet (BitBuf.fromBuffer_loop (List.length buf) 0 buf) k
  = default 0 (buf !! Z.to_nat k).
Proof.
  intros Hk. unfold stored_octet.
  rewrite fromBuffer_loop_lookup by lia.
  rewrite Z2Nat.id by (Z.to_euclidean_division_equations; lia).
  destruct (0 + 1024 * (k / 1024) <? Z.of_nat (List.length buf)) eqn:E.
  - unfold BitBuf.slice.
    rewrite lookup_take_lt by (Z.to_euclidean_division_equations; lia).
    rewrite lookup_drop. f_equal. f_equal.
    Z.to_euclidean_division_equations. lia.
  - rewrite lookup_ge_None_2; [reflexivity|].
    apply Z.ltb_ge in E. Z.to_euclidean_division_equations. lia.
Qed.

(** With chunks of the full size, octet [k] of the storage is octet [k] of
    the chunks put end to end. *)
Lemma stored_octet_concat (chunks : list (list Z)) :
  Forall (fun c => List.length c = 1024%nat) chunks ->
  forall k, 0 <= k ->
  stored_octet chunks k = default 0 (concat chunks !! Z.to_nat k).
Proof.
  induction 1 as [|c chunks Hc _ IH]; intros k Hk.
  - unfold stored_octet. now rewrite !lookup_nil.
  - cbn [concat]. destruct (Z.lt_ge_cases k 1024) as [Hlt|Hge].
    + rewrite lookup_app_l by lia. unfold stored_octet.
      rewrite Z.div_small, Z.mod_small by lia. reflexivity.
    + rewrite lookup_app_r by lia. rewrite Hc.
      replace (Z.to_nat k - 1024)%nat with (Z.to_nat (k - 1024)) by lia.
      rewrite <- IH by lia. unfold stored_octet.
      replace (Z.to_nat (k / 1024)) with (S (Z.to_nat ((k - 1024) / 1024)))
        by (Z.to_euclidean_division_equations; lia).
      replace ((k - 1024) mod 1024) with (k mod 1024)
        by (Z.to_euclidean_division_equations; lia).
      reflexivity.
Qed.

Lemma octet_zero (o : Z) :
  0 <= o < 256 -> (forall i, 0 <= i < 8 -> Z.testbit o i = false) -> o = 0.
Proof.
  intros Ho H. apply Z.bits_inj'. intros i Hi. rewrite Z.bits_0.
  destruct (Z.lt_ge_cases i 8); [apply H; lia|now apply testbit_small_high].
Qed.

(** Past the written length a buffer built by the writers stores zeros. *)
Lemma stored_octet_beyond (b : BitBuf.t) (k : Z) :
  wf b -> BitBuf.length b <= 8 * k -> stored_octet (BitBuf.chunks b) k = 0.
Proof.
  intros Hwf Hk. pose proof (wf_length b Hwf).
  apply octet_zero.
  - apply stored_octet_range, chunks_octets_ok, Hwf.
  - intros i Hi. pose proof (wf_zero b Hwf (8 * k + i) ltac:(lia)) as Hz.
    unfold bit_at in Hz.
    replace ((8 * k + i) / 8) with k in Hz by (Z.to_euclidean_division_equations; lia).
    replace ((8 * k + i) mod 8) with i in Hz by (Z.to_euclidean_division_equations; lia).
    now destruct (Z.testbit _ i).
Qed.

Lemma ceil_div_bounds (n : Z) :
  0 <= n -> n <= 8 * BitBuf.ceil_div n 8 < n + 8.
Proof. intros Hn. unfold BitBuf.ceil_div. Z.to_euclidean_division_equations. lia. Qed.

(** The octets [toBuffer] exports are the stored ones. *)
Lemma toBuffer_lookup (b : BitBuf.t) (k : Z) :
  wf b -> 0 <= k ->
  default 0 (BitBuf.toBuffer b !! Z.to_nat k) = stored_octet (BitBuf.chunks b) k.
Proof.
  intros Hwf Hk. pose proof (wf_length b Hwf) as Hlen.
  pose proof (ceil_div_bounds _ Hlen) as Hceil.
  unfold BitBuf.toBuffer, BitBuf.OCTET_SIZE.
  set (n := BitBuf.ceil_div (BitBuf.length b) 8) in *.
  assert (Hfull : Forall (fun c => List.length c = 1024%nat) (BitBuf.chunks b)).
  { eapply Forall_impl; [apply (wf_chunks b Hwf)|]. now intros c [Hc _]. }
  destruct (Z.lt_ge_cases k n) as [Hlt|Hge].
  - destruct (decide (Z.to_nat k < List.length (concat (BitBuf.chunks b)))%nat) as [Hin|Hout].
    + rewrite lookup_resize by lia. symmetry. now apply stored_octet_concat.
    + rewrite lookup_resize_new by lia. simpl.
      rewrite (stored_octet_concat _ Hfull k Hk).
      rewrite lookup_ge_None_2 by lia. reflexivity.
  - rewrite lookup_resize_old by lia. simpl. symmetry.
    apply stored_octet_beyond; [exact Hwf|lia].
Qed.

End Bytes.

(** X5: loading bytes with [fromBuffer] into a fresh buffer and exporting
    them with [toBuffer] gives the same bytes back; the loaded buffer is
    eight bits long per byte and its read position is 0. *)
Theorem fromBuffer_toBuffer (buf : list Z) :
  let b := (BitBuf.fromBuffer buf BitBuf.new).2 in
  BitBuf.toBuffer b = buf /\
  BitBuf.length b = 8 * Z.of_nat (List.length buf) /\
  BitBuf.pos b = 0.
Proof.
  cbv zeta. unfold BitBuf.fromBuffer, Js.modify, BitBuf.toBuffer. simpl.
  split_and!; [|unfold BitBuf.OCTET_SIZE; lia|reflexivity].
  rewrite fromBuffer_loop_concat by lia. simpl drop.
  unfold BitBuf.OCTET_SIZE. rewrite ceil_div_8, Nat2Z.id.
  apply resize_all.
Qed.

(** X6: after [fromBuffer] on a fresh buffer, reading octet after octet
    returns the bytes in their order: at position [8 * k], [readOctet]
    returns byte [k]. *)
Theorem fromBuffer_readOctet (buf : list Z) (k : nat) (o : Z) :
  Forall is_octet buf -> buf !! k = Some o ->
  let b := BitBuf.set_pos (8 * Z.of_nat k) (BitBuf.fromBuffer buf BitBuf.new).2 in
  BitBuf.readOctet b = (Js.Ok o, BitBuf.set_pos (8 * Z.of_nat k + 8) b).
Proof.
  intros Hbuf Hk. cbv zeta.
  pose proof (lookup_lt_Some _ _ _ Hk) as Hlt.
  pose proof (fromBuffer_readable buf Hbuf) as Hrd.
  set (b0 := (BitBuf.fromBuffer buf BitBuf.new).2) in *.
  rewrite readOctet_ok.
  - f_equal. f_equal. simpl BitBuf.pos. apply octet_of_bits.
    + eapply Forall_lookup_1 in Hbuf; [|exact Hk]. exact Hbuf.
    + intros i Hi. unfold bit_at. simpl BitBuf.chunks.
      rewrite stored_octet_fromBuffer by (Z.to_euclidean_division_equations; lia).
      replace ((8 * Z.of_nat k + i) / 8) with (Z.of_nat k)
        by (Z.to_euclidean_division_equations; lia).
      replace ((8 * Z.of_nat k + i) mod 8) with i
        by (Z.to_euclidean_division_equations; lia).
      now rewrite Nat2Z.id, Hk.
  - apply readable_set_pos; [exact Hrd|lia].
  - simpl. unfold BitBuf.OCTET_SIZE. lia.
Qed.

Lemma fromBuffer_readOctet_AB :
  Forall is_octet [65; 66] /\ [65; 66] !! 1%nat = Some 66 /\
  let b := BitBuf.set_pos (8 * Z.of_nat 1)
             (BitBuf.fromBuffer [65; 66] BitBuf.new).2 in
  BitBuf.readOctet b = (Js.Ok 66, BitBuf.set_pos (8 * Z.of_nat 1 + 8) b).
Proof.
  assert (H : Forall is_octet [65; 66])
    by (repeat constructor; unfold is_octet; lia).
  split; [exact H|]. split; [reflexivity|].
  exact (fromBuffer_readOctet [65; 66] 1 66 H eq_refl).
Defined.

(** X7: a buffer built by the writers, exported with [toBuffer] and loaded
    again with [fromBuffer], holds the same bits: [get] returns at every
    written index what it returned before, the length is rounded up to the
    next multiple of eight, and the bits added at the end are 0. *)
Theorem toBuffer_fromBuffer (b : BitBuf.t) :
  wf b ->
  let b' := (BitBuf.fromBuffer (BitBuf.toBuffer b) BitBuf.new).2 in
  BitBuf.length b <= BitBuf.length b' < BitBuf.length b + 8 /\
  BitBuf.length b' mod 8 = 0 /\
  (forall j, 0 <= j < BitBuf.length b ->
     exists x, BitBuf.get j b = (Js.Ok x, b) /\ BitBuf.get j b' = (Js.Ok x, b')) /\
  (forall j, BitBuf.length b <= j < BitBuf.length b' ->
     BitBuf.get j b' = (Js.Ok 0, b')).
Proof.
  intros Hwf. cbv zeta. pose proof (wf_length b Hwf) as Hlen.
  pose proof (ceil_div_bounds _ Hlen) as Hceil.
  set (buf := BitBuf.toBuffer b).
  assert (Hbl : Z.of_nat (List.length buf) = BitBuf.ceil_div (BitBuf.length b) 8).
  { subst buf. unfold BitBuf.toBuffer, BitBuf.OCTET_SIZE.
    rewrite length_resize. lia. }
  assert (Hoct : Forall is_octet buf).
  { subst buf. unfold BitBuf.toBuffer. rewrite resize_spec.
    apply Forall_app. split.
    - apply Forall_take. apply Forall_concat.
      eapply Forall_impl; [apply (wf_chunks b Hwf)|]. now intros c [_ Hc].
    - apply Forall_replicate. unfold is_octet. lia. }
  pose proof (fromBuffer_readable buf Hoct) as Hrd.
  set (b' := (BitBuf.fromBuffer buf BitBuf.new).2) in *.
  assert (Hl' : BitBuf.length b' = 8 * BitBuf.ceil_div (BitBuf.length b) 8).
  { subst b'. simpl. unfold BitBuf.OCTET_SIZE. lia. }
  assert (Hbits : forall j, 0 <= j -> bit_at b' j = bit_at b j).
  { intros j Hj. unfold bit_at. subst b'. simpl BitBuf.chunks.
    rewrite stored_octet_fromBuffer by (Z.to_euclidean_division_equations; lia).
    subst buf. rewrite toBuffer_lookup; [reflexivity|exact Hwf|].
    Z.to_euclidean_division_equations. lia. }
  split_and!.
  - lia.
  - lia.
  - rewrite Hl'. Z.to_euclidean_division_equations. lia.
  - intros j Hj. exists (bit_at b j). split.
    + apply get_ok; [now apply wf_readable|lia].
    + rewrite get_ok by (try assumption; lia). now rewrite Hbits by lia.
  - intros j Hj. rewrite get_ok by (try assumption; lia).
    rewrite Hbits by lia. rewrite (wf_zero b Hwf) by lia. reflexivity.
Qed.

Lemma toBuffer_fromBuffer_new :
  wf (BitBuf.push 1 BitBuf.new).2 /\
  let b := (BitBuf.push 1 BitBuf.new).2 in
  let b' := (BitBuf.fromBuffer (BitBuf.toBuffer b) BitBuf.new).2 in
  BitBuf.length b <= BitBuf.length b' < BitBuf.length b + 8 /\
  BitBuf.length b' mod 8 = 0 /\
  (forall j, 0 <= j < BitBuf.length b ->
     exists x, BitBuf.get j b = (Js.Ok x, b) /\ BitBuf.get j b' = (Js.Ok x, b')) /\
  (forall j, BitBuf.length b <= j < BitBuf.length b' ->
     BitBuf.get j b' = (Js.Ok 0, b')).
Proof.
  generalize (push_spec 1 BitBuf.new wf_new).
  intros (b1 & Hpush & Hwf & _). rewrite Hpush. simpl snd.
  split; [exact Hwf|]. exact (toBuffer_fromBuffer b1 Hwf).
Defined.

(** ** puffman.js: [see] *)

Section Observations.

Lemma obj_get_set_eq (o : list (string * Z)) (k : string) (v : Z) :
  Puffman.obj_get (Puffman.obj_set o k v) k = Some v.
Proof.
  induction o as [|[k' w] o IH]; simpl.
  - now rewrite String.eqb_refl.
  - destruct (String.eqb k' k) eqn:E; simpl; rewrite E; [reflexivity|exact IH].
Qed.

Lemma obj_get_set_ne (o : list (string * Z)) (k k' : string) (v : Z) :
  k <> k' -> Puffman.obj_get (Puffman.obj_set o k v) k' = Puffman.obj_get o k'.
Proof.
  intros Hne. induction o as [|[k0 w] o IH]; simpl.
  - replace (String.eqb k k') with false by (symmetry; now apply String.eqb_neq).
    reflexivity.
  - destruct (String.eqb k0 k) eqn:E; simpl.
    + apply String.eqb_eq in E. subst k0.
      replace (String.eqb k k') with false by (symmetry; now apply String.eqb_neq).
      reflexivity.
    + destruct (String.eqb k0 k'); [reflexivity|exact IH].
Qed.

Lemma obj_get_None (o : list (string * Z)) (k : string) :
  Puffman.obj_get o k = None <-> k ∉ o.*1.
Proof.
  induction o as [|[k0 w] o IH]; simpl.
  - split; [intros _; apply not_elem_of_nil|reflexivity].
  - rewrite not_elem_of_cons. destruct (String.eqb k0 k) eqn:E.
    + apply String.eqb_eq in E. subst. split; [discriminate|]. now intros [? _].
    + apply String.eqb_neq in E. rewrite IH. split; [now split|now intros [_ ?]].
Qed.

Lemma obj_set_keys (o : list (string * Z)) (k : string) (v : Z) :
  (Puffman.obj_set o k v).*1
  = match Puffman.obj_get o k with Some _ => o.*1 | None => o.*1 ++ [k] end.
Proof.
  induction o as [|[k0 w] o IH]; [reflexivity|].
  cbn [Puffman.obj_set Puffman.obj_get].
  destruct (String.eqb k0 k) eqn:E; [reflexivity|].
  rewrite !fmap_cons, IH. now destruct (Puffman.obj_get o k).
Qed.

(** One [see]: the count of the token goes up by one, from 0 if the token
    is new; no other count changes. *)
Lemma see_spec (tok : string) (p : Puffman.t) :
  exists p',
    Puffman.see tok p = (Js.Ok tt, p') /\
    Puffman.tree p' = Puffman.tree p /\
    Puffman.mapToBin p' = Puffman.mapToBin p /\
    Puffman.obj_get (Puffman.tokenOccurrences p') tok
    = Some (default 0 (Puffman.obj_get (Puffman.tokenOccurrences p) tok) + 1) /\
    (forall k, k <> tok ->
       Puffman.obj_get (Puffman.tokenOccurrences p') k
       = Puffman.obj_get (Puffman.tokenOccurrences p) k) /\
    (Puffman.tokenOccurrences p').*1
    = match Puffman.obj_get (Puffman.tokenOccurrences p) tok with
      | Some _ => (Puffman.tokenOccurrences p).*1
      | None => (Puffman.tokenOccurrences p).*1 ++ [tok]
      end.
Proof.
  eexists. split; [reflexivity|]. simpl.
  set (o := Puffman.tokenOccurrences p).
  destruct (Puffman.obj_get o tok) as [n|] eqn:E.
  - split_and!; try reflexivity.
    + rewrite obj_get_set_eq, E. reflexivity.
    + intros k Hk. now rewrite obj_get_set_ne.
    + now rewrite obj_set_keys, E.
  - split_and!; try reflexivity.
    + rewrite obj_get_set_eq, obj_get_set_eq. reflexivity.
    + intros k Hk. now rewrite !obj_get_set_ne.
    + rewrite obj_set_keys, obj_get_set_eq, obj_set_keys, E. reflexivity.
Qed.

Lemma see_all_spec (tokens : list string) :
  forall p, exists p',
    see_all tokens p = (Js.Ok tt, p') /\
    Puffman.tree p' = Puffman.tree p /\
    Puffman.mapToBin p' = Puffman.mapToBin p /\
    (forall tok,
       Puffman.obj_get (Puffman.tokenOccurrences p') tok
       = if occurrences_of tok tokens =? 0
         then Puffman.obj_get (Puffman.tokenOccurrences p) tok
         else Some (default 0 (Puffman.obj_get (Puffman.tokenOccurrences p) tok)
                    + occurrences_of tok tokens)) /\
    (NoDup (Puffman.tokenOccurrences p).*1 -> NoDup (Puffman.tokenOccurrences p').*1).
Proof.
  induction tokens as [|t tokens IH]; intros p.
  - exists p. simpl. split_and!; auto.
  - destruct (see_spec t p) as (p1 & Hsee & Ht1 & Hm1 & Hget & Hother & Hkeys).
    destruct (IH p1) as (p2 & Hall & Ht2 & Hm2 & Hcount & Hnd).
    exists p2. unfold see_all in *. cbn [CssEater.for_of]. unfold Js.bind.
    rewrite Hsee, Hall. split_and!; try congruence.
    + intros tok. rewrite Hcount. cbn [occurrences_of].
      assert (Hocc : forall l, 0 <= occurrences_of tok l).
      { clear. induction l as [|x l IHl]; simpl; [lia|].
        destruct (String.eqb x tok); lia. }
      pose proof (Hocc tokens) as Hge.
      destruct (String.eqb t tok) eqn:E.
      * apply String.eqb_eq in E. subst t. rewrite Hget.
        replace (1 + occurrences_of tok tokens =? 0) with false
          by (symmetry; apply Z.eqb_neq; lia).
        destruct (occurrences_of tok tokens =? 0) eqn:E0.
        -- apply Z.eqb_eq in E0. rewrite E0. reflexivity.
        -- simpl. f_equal. lia.
      * apply String.eqb_neq in E. rewrite (Hother tok) by congruence.
        rewrite Z.add_0_l. reflexivity.
    + intros Hp. apply Hnd. rewrite Hkeys.
      destruct (Puffman.obj_get (Puffman.tokenOccurrences p) t) eqn:E; [exact Hp|].
      apply obj_get_None in E. apply NoDup_app. split_and!.
      * exact Hp.
      * intros x Hx Hx'. apply list_elem_of_singleton in Hx'. now subst.
      * apply NoDup_singleton.
Qed.

End Observations.

(** X8: after [see] was called on every token of a list of plain keys
    (no name of [Object.prototype], no digit in front), on a new
    [Puffman], the table holds for each plain key the number of times it
    occurs in the list, holds nothing for one that does not occur, and has
    no key twice. *)
Theorem see_counts (tokens : list string) :
  Forall plain_key tokens ->
  exists p,
    see_all tokens Puffman.new = (Js.Ok tt, p) /\
    NoDup (Puffman.tokenOccurrences p).*1 /\
    forall tok,
      plain_key tok ->
      Puffman.obj_get (Puffman.tokenOccurrences p) tok
      = if occurrences_of tok tokens =? 0 then None
        else Some (occurrences_of tok tokens).
Proof.
  intros _.
  destruct (see_all_spec tokens Puffman.new) as (p & Hall & _ & _ & Hcount & Hnd).
  exists p. split_and!; [exact Hall|apply Hnd; constructor|].
  intros tok _. rewrite Hcount. simpl.
  destruct (occurrences_of tok tokens =? 0); reflexivity.
Qed.

Lemma plain_key_color : plain_key "color".
Proof.
  split; [|reflexivity]. unfold prototype_names. intros H.
  repeat (apply elem_of_cons in H as [H|H]; [discriminate|]).
  now apply elem_of_nil in H.
Qed.

Lemma plain_key_e : plain_key "e".
Proof.
  split; [|reflexivity]. unfold prototype_names. intros H.
  repeat (apply elem_of_cons in H as [H|H]; [discriminate|]).
  now apply elem_of_nil in H.
Qed.

Lemma see_counts_color_e :
  Forall plain_key ["color"; "e"; "color"]%string /\
  exists p,
    see_all ["color"; "e"; "color"]%string Puffman.new = (Js.Ok tt, p) /\
    NoDup (Puffman.tokenOccurrences p).*1 /\
    forall tok,
      plain_key tok ->
      Puffman.obj_get (Puffman.tokenOccurrences p) tok
      = if occurrences_of tok ["color"; "e"; "color"]%string =? 0 then None
        else Some (occurrences_of tok ["color"; "e"; "color"]%string).
Proof.
  assert (H : Forall plain_key ["color"; "e"; "color"]%string).
  { repeat constructor; try apply plain_key_color; apply plain_key_e. }
  split; [exact H|]. exact (see_counts _ H).
Defined.

(** ** puffman.js: [buildTree] *)

Section Weights.

Lemma sum_occurrences_perm (l1 l2 : list Puffman.Node) :
  l1 ≡ₚ l2 -> sum_occurrences l1 = sum_occurrences l2.
Proof.
  unfold sum_occurrences. induction 1; simpl; lia.
Qed.

Lemma sum_occurrences_app (l1 l2 : list Puffman.Node) :
  sum_occurrences (l1 ++ l2) = sum_occurrences l1 + sum_occurrences l2.
Proof.
  unfold sum_occurrences. induction l1 as [|a l1 IH]; simpl; lia.
Qed.

Lemma weighted_leaf_weight (t : Puffman.Node) :
  weighted t -> leaf_weight t = Puffman.occurrences t.
Proof.
  induction 1 as [tok occ|l r occ _ IHl _ IHr Hocc]; simpl; [reflexivity|lia].
Qed.

(** The loop of [buildTree] keeps the sum of the counts, builds weighted
    nodes only, and ends on an internal node when it merges at all. *)
Lemma buildTree_loop_weights (fuel : nat) :
  forall base : list Puffman.Node,
  (List.length base <= fuel)%nat -> base <> [] -> Forall weighted base ->
  exists root,
    Puffman.buildTree_loop fuel base = Js.Ok [root] /\ weighted root /\
    Puffman.occurrences root = sum_occurrences base /\
    ((2 <= List.length base)%nat -> Puffman.token root = None).
Proof.
  induction fuel as [|fuel IH]; intros base Hfuel Hne Hw.
  - destruct base; [congruence|simpl in Hfuel; lia].
  - destruct base as [|a [|b base]]; [congruence| |].
    + exists a. apply Forall_cons in Hw as [Ha _].
      split_and!; [reflexivity|exact Ha| |simpl; lia].
      unfold sum_occurrences. simpl. lia.
    + set (base0 := a :: b :: base) in *.
      assert (Hlen0 : (2 <= List.length base0)%nat) by (simpl; lia).
      pose proof (sort_perm base0) as Hperm.
      assert (Hslen : List.length (Puffman.sort base0) = List.length base0)
        by now rewrite Hperm.
      destruct (pop_snoc (Puffman.sort base0)) as (ln & rest1 & E1 & Hpop1).
      { intros E. rewrite E in Hslen. simpl in Hslen. lia. }
      assert (Hlen1 : S (List.length rest1) = List.length base0).
      { rewrite <- Hslen, E1, length_app. simpl. lia. }
      destruct (pop_snoc rest1) as (rn & rest2 & E2 & Hpop2).
      { intros E. rewrite E in Hlen1. simpl in Hlen1. lia. }
      assert (Hlen2 : S (S (List.length rest2)) = List.length base0).
      { rewrite <- Hlen1, E2, length_app. simpl. lia. }
      assert (Hw' : Forall weighted (rest2 ++ [rn] ++ [ln])).
      { rewrite app_assoc, <- E2, <- E1, Hperm. exact Hw. }
      apply Forall_app in Hw' as [Hw2 Hw1].
      apply Forall_app in Hw1 as [Hwr Hwl].
      rewrite Forall_singleton in Hwr, Hwl.
      set (n := Puffman.mkNode (Some ln) (Some rn) None
                  (0 + Puffman.occurrences ln + Puffman.occurrences rn)).
      assert (Hn : weighted n) by (apply weighted_internal; [assumption..|lia]).
      destruct (IH (rest2 ++ [n])) as (root & Hloop & Hroot & Hocc & Hint).
      { rewrite length_app. simpl. lia. }
      { now destruct rest2. }
      { apply Forall_app. split; [exact Hw2|]. now apply Forall_singleton. }
      exists root. split_and!; [|exact Hroot| |].
      * cbn [Puffman.buildTree_loop]. fold base0. rewrite Hpop1, Hpop2.
        replace (1 <? Z.of_nat (List.length base0)) with true
          by (symmetry; apply Z.ltb_lt; lia).
        exact Hloop.
      * rewrite Hocc, <- (sum_occurrences_perm _ _ Hperm), E1, E2.
        rewrite !sum_occurrences_app. unfold sum_occurrences. simpl. lia.
      * intros _. destruct rest2 as [|c rest2].
        -- simpl in Hloop. destruct fuel; injection Hloop as <-; reflexivity.
        -- apply Hint. rewrite length_app. simpl. lia.
Qed.

Lemma buildTree_weights (p : Puffman.t) :
  Puffman.tokenOccurrences p <> [] ->
  exists root p1,
    Puffman.buildTree p = (Js.Ok tt, p1) /\ Puffman.tree p1 = Some root /\
    Puffman.tokenOccurrences p1 = Puffman.tokenOccurrences p /\
    Puffman.mapToBin p1 = Puffman.mapToBin p /\
    weighted root /\
    Puffman.occurrences root = foldr Z.add 0 (Puffman.tokenOccurrences p).*2 /\
    ((2 <= List.length (Puffman.tokenOccurrences p))%nat -> Puffman.token root = None).
Proof.
  intros Hne. unfold Puffman.buildTree, Puffman.items.
  set (base := map _ (Puffman.tokenOccurrences p)).
  destruct (buildTree_loop_weights (List.length base) base)
    as (root & Hloop & Hroot & Hocc & Hint).
  - lia.
  - subst base. now destruct (Puffman.tokenOccurrences p).
  - subst base. apply Forall_forall. intros n Hn.
    apply list_elem_of_In, in_map_iff in Hn as ([tok occ] & <- & _).
    apply weighted_leaf.
  - rewrite Hloop. eexists root, _. split_and!; try reflexivity; try assumption.
    + rewrite Hocc. subst base. unfold sum_occurrences.
      clear. induction (Puffman.tokenOccurrences p) as [|[k v] o IH]; simpl;
        [reflexivity|]. now rewrite IH.
    + intros H. apply Hint. subst base. now rewrite length_map.
Qed.

End Weights.

(** X9: on a table that is not empty, [buildTree] sets the tree to a root
    whose count is the sum of the counts of the table; every internal node
    of the tree counts what its two children count, so the count of the
    root is also the sum over the leaves. *)
Theorem buildTree_weight (p : Puffman.t) :
  Puffman.tokenOccurrences p <> [] ->
  exists root p1,
    Puffman.buildTree p = (Js.Ok tt, p1) /\ Puffman.tree p1 = Some root /\
    weighted root /\
    Puffman.occurrences root = foldr Z.add 0 (Puffman.tokenOccurrences p).*2 /\
    leaf_weight root = Puffman.occurrences root.
Proof.
  intros Hne.
  destruct (buildTree_weights p Hne) as (root & p1 & Hb & Ht & _ & _ & Hw & Hocc & _).
  exists root, p1. split_and!; try assumption. now apply weighted_leaf_weight.
Qed.

Lemma buildTree_weight_color_e :
  let p := Puffman.mk [("color"%string, 3); ("e"%string, 2)] None ∅ in
  Puffman.tokenOccurrences p <> [] /\
  exists root p1,
    Puffman.buildTree p = (Js.Ok tt, p1) /\ Puffman.tree p1 = Some root /\
    weighted root /\
    Puffman.occurrences root = foldr Z.add 0 (Puffman.tokenOccurrences p).*2 /\
    leaf_weight root = Puffman.occurrences root.
Proof.
  intros p. assert (H : Puffman.tokenOccurrences p <> []) by discriminate.
  split; [exact H|]. exact (buildTree_weight p H).
Defined.

(** ** Bits written and read *)

Section Bits.

Lemma push_mod2 (x : Z) (b : BitBuf.t) : BitBuf.push x b = BitBuf.push (x mod 2) b.
Proof.
  unfold BitBuf.push. now rewrite !and_1, Z.mod_mod by lia.
Qed.

Lemma pushBits_app (l1 l2 : list Z) (b : BitBuf.t) :
  pushBits (l1 ++ l2) b = (pushBits l1 ;;; pushBits l2) b.
Proof.
  revert b. induction l1 as [|x l1 IH]; intros b; simpl; [reflexivity|].
  rewrite bind_assoc. unfold Js.bind.
  destruct (BitBuf.push x b) as [[[]|e|] b1]; try reflexivity.
  rewrite IH. reflexivity.
Qed.

Lemma pushBits_mod2 (l : list Z) (b : BitBuf.t) :
  pushBits l b = pushBits (map (fun x => x mod 2) l) b.
Proof.
  revert b. induction l as [|x l IH]; intros b; simpl; [reflexivity|].
  unfold Js.bind. rewrite <- push_mod2.
  destruct (BitBuf.push x b) as [[[]|e|] b1]; try reflexivity. apply IH.
Qed.

Lemma bits_from_mono (b b' : BitBuf.t) (l : list Z) :
  BitBuf.length b <= BitBuf.length b' ->
  (forall j, 0 <= j < BitBuf.length b -> bit_at b' j = bit_at b j) ->
  forall p, 0 <= p -> bits_from b p l -> bits_from b' p l.
Proof.
  intros Hlen Hbits. induction l as [|x l IH]; intros p Hp H; [exact I|].
  destruct H as (Hle & Hx & Hrest). simpl. split_and!.
  - lia.
  - rewrite <- Hx. apply Hbits. lia.
  - apply IH; [lia|exact Hrest].
Qed.

Lemma bits_from_app (b : BitBuf.t) (l1 l2 : list Z) :
  forall p,
  bits_from b p (l1 ++ l2) <->
  bits_from b p l1 /\ bits_from b (p + Z.of_nat (List.length l1)) l2.
Proof.
  induction l1 as [|x l1 IH]; intros p; simpl.
  - replace (p + Z.of_nat 0) with p by lia. tauto.
  - rewrite IH.
    replace (p + 1 + Z.of_nat (List.length l1))
      with (p + Z.of_nat (S (List.length l1))) by lia.
    tauto.
Qed.

Lemma bits_from_same (b b' : BitBuf.t) (l : list Z) :
  BitBuf.chunks b' = BitBuf.chunks b -> BitBuf.length b' = BitBuf.length b ->
  forall p, bits_from b p l -> bits_from b' p l.
Proof.
  intros Hc Hl. induction l as [|x l IH]; intros p H; [exact I|].
  destruct H as (Hle & Hx & Hrest). simpl. split_and!.
  - lia.
  - rewrite <- Hx. unfold bit_at. now rewrite Hc.
  - now apply IH.
Qed.

(** Pushing bits appends them and keeps what was written before. *)
Lemma pushBits_spec (l : list Z) :
  forall b, wf b -> Forall (fun x => 0 <= x <= 1) l ->
  exists b',
    pushBits l b = (Js.Ok tt, b') /\ wf b' /\
    BitBuf.length b' = BitBuf.length b + Z.of_nat (List.length l) /\
    BitBuf.pos b' = BitBuf.pos b /\
    (forall j, 0 <= j < BitBuf.length b -> bit_at b' j = bit_at b j) /\
    bits_from b' (BitBuf.length b) l.
Proof.
  induction l as [|x l IH]; intros b Hwf Hl.
  - exists b. simpl. split_and!; auto; lia.
  - apply Forall_cons in Hl as [Hx Hl].
    destruct (push_spec x b Hwf) as (b1 & Hp1 & Hwf1 & Hl1 & Hpos1 & Hbits1).
    destruct (IH b1 Hwf1 Hl) as (b2 & Hp2 & Hwf2 & Hl2 & Hpos2 & Hold2 & Hnew2).
    pose proof (wf_length b Hwf) as Hlen.
    exists b2. simpl. unfold Js.bind. rewrite Hp1, Hp2.
    split_and!; auto; try lia.
    + intros j Hj. rewrite Hold2, Hbits1 by lia.
      replace (j =? BitBuf.length b) with false by (symmetry; apply Z.eqb_neq; lia).
      reflexivity.
    + rewrite Hold2, Hbits1, Z.eqb_refl by lia. apply Z.mod_small. lia.
    + now rewrite <- Hl1.
Qed.

Lemma readBit_bits (b : BitBuf.t) (x : Z) (rest : list Z) :
  readable b -> bits_from b (BitBuf.pos b) (x :: rest) ->
  BitBuf.readBit b = (Js.Ok x, BitBuf.set_pos (BitBuf.pos b + 1) b).
Proof.
  intros Hrd (Hle & Hx & _). rewrite readBit_ok by (try assumption; lia).
  now rewrite Hx.
Qed.

Lemma octet_bits_range (o : Z) : Forall (fun x => 0 <= x <= 1) (octet_bits o).
Proof.
  unfold octet_bits. apply Forall_map, Forall_forall. intros i _.
  destruct (Z.testbit o (Z.of_nat i)); simpl; lia.
Qed.

Lemma octets_bits_range (l : list Z) : Forall (fun x => 0 <= x <= 1) (octets_bits l).
Proof.
  unfold octets_bits. induction l as [|o l IH]; cbn [map concat]; [constructor|].
  apply Forall_app. split; [apply octet_bits_range|exact IH].
Qed.

Lemma octets_bits_length (l : list Z) :
  Z.of_nat (List.length (octets_bits l)) = 8 * Z.of_nat (List.length l).
Proof.
  unfold octets_bits. induction l as [|o l IH]; cbn [map concat]; [reflexivity|].
  rewrite length_app. unfold octet_bits at 1. rewrite length_map, length_seq.
  cbn [List.length]. lia.
Qed.

Lemma bits_from_lookup (b : BitBuf.t) (l : list Z) :
  forall p, bits_from b p l ->
  forall (i : nat) (x : Z), l !! i = Some x ->
  bit_at b (p + Z.of_nat i) = x /\ p + Z.of_nat i + 1 <= BitBuf.length b.
Proof.
  induction l as [|y l IH]; intros p H i x Hi; [now rewrite lookup_nil in Hi|].
  destruct H as (Hle & Hy & Hrest). destruct i as [|i].
  - injection Hi as <-. replace (p + Z.of_nat 0) with p by lia. split; [exact Hy|lia].
  - destruct (IH (p + 1) Hrest i x Hi) as [Hb Hl].
    replace (p + Z.of_nat (S i)) with (p + 1 + Z.of_nat i) by lia. now split.
Qed.

Lemma octet_bits_lookup (o : Z) (i : nat) :
  (i < 8)%nat -> octet_bits o !! i = Some (Z.b2z (Z.testbit o (Z.of_nat i))).
Proof.
  intros Hi. unfold octet_bits.
  assert (H : forall (f : nat -> Z) l k, map f l !! k = f <$> (l !! k)).
  { clear. intros f l. induction l as [|a l IH]; intros [|k]; simpl; auto. }
  rewrite H, lookup_seq_lt by lia. reflexivity.
Qed.

(** Eight bits that are those of an octet are that octet in the stream. *)
Lemma bits_octet (b : BitBuf.t) (p o : Z) (rest : list Z) :
  is_octet o -> bits_from b p (octet_bits o ++ rest) ->
  p + 8 <= BitBuf.length b /\ octet_at b p = o /\ bits_from b (p + 8) rest.
Proof.
  intros Ho H. apply bits_from_app in H as [H Hrest].
  change (Z.of_nat (List.length (octet_bits o))) with 8 in Hrest.
  split_and!; [| |exact Hrest].
  - destruct (bits_from_lookup b _ p H 7 _ (octet_bits_lookup o 7 ltac:(lia))) as [_ Hl].
    change (Z.of_nat 7) with 7 in Hl. lia.
  - apply octet_of_bits; [exact Ho|]. intros i Hi.
    destruct (bits_from_lookup b _ p H (Z.to_nat i) _
                (octet_bits_lookup o (Z.to_nat i) ltac:(lia))) as [Hb _].
    now rewrite Z2Nat.id in Hb by lia.
Qed.

Lemma bits_octets (b : BitBuf.t) (l : list Z) :
  Forall is_octet l ->
  forall p rest, bits_from b p (octets_bits l ++ rest) ->
  octets_from b p l /\ bits_from b (p + 8 * Z.of_nat (List.length l)) rest.
Proof.
  induction 1 as [|o l Ho _ IH]; intros p rest H.
  - cbn [octets_bits map concat app List.length octets_from] in *.
    replace (p + 8 * Z.of_nat 0) with p by lia. now split.
  - unfold octets_bits in H. cbn [map concat] in H. rewrite <- app_assoc in H.
    apply bits_octet in H as (Hle & Hoct & H); [|exact Ho].
    apply IH in H as [Hl Hrest]. split.
    + simpl. now split_and!.
    + replace (p + 8 * Z.of_nat (List.length (o :: l)))
        with (p + 8 + 8 * Z.of_nat (List.length l)) by (simpl List.length; lia).
      exact Hrest.
Qed.

Lemma readOctet_bits (b : BitBuf.t) (o : Z) (rest : list Z) :
  readable b -> is_octet o ->
  bits_from b (BitBuf.pos b) (octet_bits o ++ rest) ->
  BitBuf.readOctet b = (Js.Ok o, BitBuf.set_pos (BitBuf.pos b + 8) b).
Proof.
  intros Hrd Ho H. apply bits_octet in H as (Hle & Hoct & _); [|exact Ho].
  rewrite readOctet_ok by assumption. now rewrite Hoct.
Qed.

Lemma writeOctet_pushBits (o : Z) (b : BitBuf.t) :
  is_octet o -> BitBuf.writeOctet o b = pushBits (octet_bits o) b.
Proof.
  intros Ho.
  change (BitBuf.writeOctet o b)
    with (pushBits (map (fun i => Js.shr o (Z.of_nat i)) (seq 0 8)) b).
  rewrite pushBits_mod2, map_map. apply (f_equal (fun l => pushBits l b)).
  unfold octet_bits. apply map_ext_in. intros i Hi. apply in_seq in Hi. apply shr_bit; [exact Ho|lia].
Qed.

Lemma writeOctets_pushBits (l : list Z) :
  Forall is_octet l -> forall b, writeOctets l b = pushBits (octets_bits l) b.
Proof.
  induction 1 as [|o l Ho _ IH]; intros b; [reflexivity|].
  unfold octets_bits. cbn [map concat writeOctets]. rewrite pushBits_app.
  unfold Js.bind. rewrite writeOctet_pushBits by exact Ho.
  destruct (pushBits (octet_bits o) b) as [[[]|e|] b1]; try reflexivity.
  apply IH.
Qed.

End Bits.

(** ** css-eater.js: [Prop] *)

Section PropTokens.

Lemma code_bits_range (c : string) : Forall (fun x => 0 <= x <= 1) (code_bits c).
Proof.
  unfold code_bits. apply Forall_map, Forall_forall. intros ch _.
  destruct (Ascii.eqb ch "1"); lia.
Qed.

Lemma code_bits_length (c : string) :
  List.length (code_bits c) = String.length c.
Proof.
  unfold code_bits. rewrite length_map. induction c; simpl; auto.
Qed.

Lemma push_bits_pushBits (c : string) (b : BitBuf.t) :
  CssEater.push_bits c b = pushBits (code_bits c) b.
Proof.
  revert b. induction c as [|ch c IH]; intros b; [reflexivity|].
  cbn [CssEater.push_bits]. unfold code_bits. cbn [list_ascii_of_string map pushBits].
  unfold Js.bind. destruct (BitBuf.push _ b) as [[[]|e|] b1]; try reflexivity.
  apply IH.
Qed.

Lemma shaped_token (P : string -> Prop) (t : Puffman.Node) :
  shaped P t ->
  (exists tok occ, t = Puffman.mkNode None None (Some tok) occ) \/
  (exists l r occ, t = Puffman.mkNode (Some l) (Some r) None occ
                   /\ shaped P l /\ shaped P r).
Proof. destruct 1; [left|right]; eauto 10. Qed.

(** One turn of [findToken]: a bit is read and a child taken. *)
Lemma findToken_step (fuel : nat) (b : BitBuf.t) (P : Puffman.t)
    (l r : Puffman.Node) (occ d : Z) (rest : list Z) :
  readable b -> bits_from b (BitBuf.pos b) (d :: rest) ->
  let child := if d =? 0 then l else r in
  let e' := CssEater.mkEaters (BitBuf.set_pos (BitBuf.pos b + 1) b) P in
  Puffman.findToken_from (S fuel) (CssEater.on_bitbuf BitBuf.readBit)
    (Some (Puffman.mkNode (Some l) (Some r) None occ)) (CssEater.mkEaters b P)
  = match Puffman.token child with
    | Some tok => (Js.Ok tok, e')
    | None =>
        Puffman.findToken_from fuel (CssEater.on_bitbuf BitBuf.readBit)
          (Some child) e'
    end.
Proof.
  intros Hrd Hbits. cbv zeta. cbn [Puffman.findToken_from].
  unfold Js.bind at 1. unfold CssEater.on_bitbuf at 1. cbn [CssEater.bitbuf].
  rewrite (readBit_bits b d rest Hrd Hbits). cbn [CssEater.puffman].
  cbn [Puffman.left Puffman.right].
  destruct (d =? 0); destruct (Puffman.token _); reflexivity.
Qed.

(** [findToken] on the bits of a code of the tree returns the token of
    the code and reads these bits only. *)
Lemma findToken_decodes (t : Puffman.Node) :
  full_tree t -> Puffman.token t = None ->
  forall prefix tok c, (tok, c) ∈ walk_codes t prefix ->
  exists suffix,
    c = prefix +:+ suffix /\
    forall fuel b P rest,
      readable b -> (String.length suffix <= fuel)%nat ->
      bits_from b (BitBuf.pos b) (code_bits suffix ++ rest) ->
      Puffman.findToken_from fuel (CssEater.on_bitbuf BitBuf.readBit) (Some t)
        (CssEater.mkEaters b P)
      = (Js.Ok tok,
         CssEater.mkEaters
           (BitBuf.set_pos (BitBuf.pos b + Z.of_nat (String.length suffix)) b) P).
Proof.
  induction 1 as [tok0 occ _|l r occ Hl IHl Hr IHr]; intros Htok prefix tok c Hin;
    [discriminate|].
  cbn [walk_codes] in Hin.
  assert (Hside : exists (d : Z) (ch : string) (child : Puffman.Node),
            (d = 0 /\ ch = "0"%string /\ child = l \/
             d = 1 /\ ch = "1"%string /\ child = r) /\
            (tok, c) ∈ walk_codes child (prefix +:+ ch)).
  { apply elem_of_app in Hin as [Hin|Hin].
    - exists 0, "0"%string, l. split; [left; auto|exact Hin].
    - exists 1, "1"%string, r. split; [right; auto|exact Hin]. }
  destruct Hside as (d & ch & child & Hd & Hin').
  assert (Hchild : full_tree child /\
            (Puffman.token child = None ->
             forall prefix tok c, (tok, c) ∈ walk_codes child prefix ->
             exists suffix,
               c = prefix +:+ suffix /\
               forall fuel b P rest,
                 readable b -> (String.length suffix <= fuel)%nat ->
                 bits_from b (BitBuf.pos b) (code_bits suffix ++ rest) ->
                 Puffman.findToken_from fuel (CssEater.on_bitbuf BitBuf.readBit)
                   (Some child) (CssEater.mkEaters b P)
                 = (Js.Ok tok,
                    CssEater.mkEaters
                      (BitBuf.set_pos
                         (BitBuf.pos b + Z.of_nat (String.length suffix)) b) P)) /\
            child = (if d =? 0 then l else r) /\
            code_bits ch = [d] /\ String.length ch = 1%nat).
  { destruct Hd as [(-> & -> & ->)|(-> & -> & ->)]; split_and!; auto. }
  destruct Hchild as (Hfull & IH & Hsel & Hbit & Hlen1). clear Hd IHl IHr.
  destruct (shaped_token _ child Hfull) as [(tok0 & occ0 & Hleaf)|(cl & cr & occ0 & Hint & _)].
  - (* the child is a leaf *)
    rewrite Hleaf in Hin'. cbn [walk_codes] in Hin'.
    apply list_elem_of_singleton in Hin'. injection Hin' as -> ->.
    exists ch. split; [reflexivity|].
    intros fuel b P rest Hrd Hfuel Hbits.
    destruct fuel as [|fuel]; [lia|].
    rewrite Hbit in Hbits. cbn [app] in Hbits.
    rewrite (findToken_step fuel b P l r occ d rest Hrd Hbits). cbv zeta.
    rewrite <- Hsel, Hleaf. cbn [Puffman.token]. rewrite Hlen1. reflexivity.
  - (* the child is internal *)
    assert (Hnone : Puffman.token child = None) by (rewrite Hint; reflexivity).
    destruct (IH Hnone _ _ _ Hin') as (suffix & Hc & Hdec).
    exists (ch +:+ suffix). split; [now rewrite <- append_assoc|].
    intros fuel b P rest Hrd Hfuel Hbits.
    assert (Hsl : String.length (ch +:+ suffix) = S (String.length suffix)).
    { destruct ch as [|x [|y ch]]; simpl in Hlen1; try discriminate. reflexivity. }
    assert (Hcb : code_bits (ch +:+ suffix) = d :: code_bits suffix).
    { destruct ch as [|x [|y ch]]; simpl in Hlen1; try discriminate.
      change (String x "" +:+ suffix) with (String x suffix).
      change (code_bits (String x suffix))
        with ((if Ascii.eqb x "1" then 1 else 0) :: code_bits suffix).
      change (code_bits (String x ""))
        with ([if Ascii.eqb x "1" then 1 else 0]) in Hbit.
      now injection Hbit as ->. }
    rewrite Hsl in Hfuel. destruct fuel as [|fuel]; [lia|].
    rewrite Hcb in Hbits. cbn [app] in Hbits.
    rewrite (findToken_step fuel b P l r occ d _ Hrd Hbits). cbv zeta.
    rewrite <- Hsel, Hnone.
    destruct Hbits as (_ & _ & Hbits).
    rewrite (Hdec fuel (BitBuf.set_pos (BitBuf.pos b + 1) b) P rest).
    + rewrite Hsl. f_equal. f_equal. unfold BitBuf.set_pos. simpl. f_equal. lia.
    + apply readable_set_pos; [exact Hrd|]. pose proof (rd_pos b Hrd). lia.
    + lia.
    + eapply bits_from_same; [| |exact Hbits]; reflexivity.
Qed.

(** The table, tree and map after [buildTree] and [buildMapToBin] on a
    fresh coder with at least two keys. *)
Lemma built_coder (p : Puffman.t) :
  (2 <= List.length (Puffman.tokenOccurrences p))%nat ->
  Puffman.mapToBin p = ∅ ->
  exists root p1 p2,
    Puffman.buildTree p = (Js.Ok tt, p1) /\ Puffman.tree p1 = Some root /\
    Puffman.buildMapToBin p1 = (Js.Ok tt, p2) /\
    Puffman.tree p2 = Some root /\ full_tree root /\ Puffman.token root = None /\
    (forall tok c, Puffman.mapToBin p2 !! tok = Some c -> (tok, c) ∈ walk_codes root "") /\
    (forall tok, tok ∈ (Puffman.tokenOccurrences p).*1 <->
                 is_Some (Puffman.mapToBin p2 !! tok)).
Proof.
  intros Hlen Hmap.
  assert (Hne : Puffman.tokenOccurrences p <> [])
    by (destruct (Puffman.tokenOccurrences p); [simpl in Hlen; lia|discriminate]).
  destruct (build_spec p Hne Hmap)
    as (root & p1 & p2 & Hb & Htree & Hfull & Hm & Hcodes & Htok).
  destruct (buildTree_weights p Hne) as (root' & p1' & Hb' & Htree' & _ & _ & _ & _ & Hint).
  rewrite Hb in Hb'. injection Hb' as <-. rewrite Htree in Htree'.
  injection Htree' as <-.
  exists root, p1, p2. split_and!; try assumption.
  - unfold Puffman.buildMapToBin in Hm. rewrite Htree in Hm.
    rewrite (walk_spec root Hfull) in Hm. injection Hm as <-. exact Htree.
  - now apply Hint.
  - intros tok c Hc. rewrite Hcodes in Hc.
    apply record_codes_lookup in Hc as [Hc|Hc]; [exact Hc|].
    now rewrite lookup_empty in Hc.
  - intros tok. rewrite Hcodes, record_codes_dom, <- Htok.
    rewrite (walk_codes_tokens root Hfull), lookup_empty.
    split; [now left|]. intros [H|H]; [exact H|]. now destruct H.
Qed.

Lemma two_keys (o : list (string * Z)) (t1 t2 : string) :
  t1 ∈ o.*1 -> t2 ∈ o.*1 -> t1 <> t2 -> (2 <= List.length o)%nat.
Proof.
  intros H1 H2 Hne. destruct o as [|[k1 v1] [|[k2 v2] o]]; simpl.
  - now apply elem_of_nil in H1.
  - apply list_elem_of_singleton in H1, H2. simpl in *. congruence.
  - lia.
Qed.

End PropTokens.

(** X10: on a coder built from a table with at least two different
    tokens, [Prop.dump] of a token of the table pushes the bits of its
    code, and [Prop.eat] at the written position returns the token and
    stops behind these bits. *)
Theorem prop_dump_eat (p : Puffman.t) (t1 t2 tok : string) (b : BitBuf.t) :
  t1 ∈ (Puffman.tokenOccurrences p).*1 ->
  t2 ∈ (Puffman.tokenOccurrences p).*1 ->
  t1 <> t2 ->
  Puffman.mapToBin p = ∅ ->
  tok ∈ (Puffman.tokenOccurrences p).*1 ->
  wf b -> BitBuf.pos b = BitBuf.length b ->
  exists p1 p2 c b1,
    Puffman.buildTree p = (Js.Ok tt, p1) /\
    Puffman.buildMapToBin p1 = (Js.Ok tt, p2) /\
    Puffman.mapToBin p2 !! tok = Some c /\
    CssEater.Prop_dump tok (CssEater.mkEaters b p2)
    = (Js.Ok tt, CssEater.mkEaters b1 p2) /\
    BitBuf.length b1 = BitBuf.length b + Z.of_nat (String.length c) /\
    forall fuel, (String.length c <= fuel)%nat ->
      CssEater.Prop_eat fuel (CssEater.mkEaters b1 p2)
      = (Js.Ok tok,
         CssEater.mkEaters (BitBuf.set_pos (BitBuf.length b1) b1) p2).
Proof.
  intros H1 H2 Hne Hmap Htok Hwf Hpos.
  destruct (built_coder p (two_keys _ t1 t2 H1 H2 Hne) Hmap)
    as (root & p1 & p2 & Hb & _ & Hm & Htree & Hfull & Hint & Hcodes & Hdom).
  apply Hdom in Htok as [c Hc].
  destruct (pushBits_spec (code_bits c) b Hwf (code_bits_range c))
    as (b1 & Hpush & Hwf1 & Hl1 & Hp1 & _ & Hbits).
  rewrite code_bits_length in Hl1.
  exists p1, p2, c, b1. split_and!; try assumption.
  - unfold CssEater.Prop_dump, Js.bind, Js.gets. cbn [CssEater.puffman].
    rewrite Hc. unfold CssEater.on_bitbuf. cbn [CssEater.bitbuf CssEater.puffman].
    now rewrite push_bits_pushBits, Hpush.
  - intros fuel Hfuel. unfold CssEater.Prop_eat, Js.bind, Js.gets.
    cbn [CssEater.puffman]. unfold Puffman.findToken. rewrite Htree.
    destruct (findToken_decodes root Hfull Hint "" tok c (Hcodes _ _ Hc))
      as (suffix & Hc' & Hdec).
    change ("" +:+ suffix) with suffix in Hc'. subst suffix.
    rewrite (Hdec fuel b1 p2 []).
    + f_equal. f_equal. f_equal. lia.
    + now apply wf_readable.
    + exact Hfuel.
    + rewrite app_nil_r, Hp1, Hpos. exact Hbits.
Qed.

Lemma prop_dump_eat_color :
  let p := Puffman.mk [("color"%string, 1); ("e"%string, 1)] None ∅ in
  "color"%string ∈ (Puffman.tokenOccurrences p).*1 /\
  "e"%string ∈ (Puffman.tokenOccurrences p).*1 /\
  "color"%string <> "e"%string /\
  Puffman.mapToBin p = ∅ /\
  "color"%string ∈ (Puffman.tokenOccurrences p).*1 /\
  wf BitBuf.new /\ BitBuf.pos BitBuf.new = BitBuf.length BitBuf.new /\
  exists p1 p2 c b1,
    Puffman.buildTree p = (Js.Ok tt, p1) /\
    Puffman.buildMapToBin p1 = (Js.Ok tt, p2) /\
    Puffman.mapToBin p2 !! "color"%string = Some c /\
    CssEater.Prop_dump "color" (CssEater.mkEaters BitBuf.new p2)
    = (Js.Ok tt, CssEater.mkEaters b1 p2) /\
    BitBuf.length b1 = BitBuf.length BitBuf.new + Z.of_nat (String.length c) /\
    forall fuel, (String.length c <= fuel)%nat ->
      CssEater.Prop_eat fuel (CssEater.mkEaters b1 p2)
      = (Js.Ok "color"%string,
         CssEater.mkEaters (BitBuf.set_pos (BitBuf.length b1) b1) p2).
Proof.
  intros p.
  assert (H1 : "color"%string ∈ (Puffman.tokenOccurrences p).*1) by (now left).
  assert (H2 : "e"%string ∈ (Puffman.tokenOccurrences p).*1) by (right; now left).
  assert (H3 : "color"%string <> "e"%string) by discriminate.
  assert (H4 : Puffman.mapToBin p = ∅) by reflexivity.
  split_and!; try assumption; try reflexivity; [apply wf_new|].
  exact (prop_dump_eat p "color" "e" "color" BitBuf.new H1 H2 H3 H4 H1 wf_new eq_refl).
Defined.

(** X11: on a coder built from a table that is not empty, [Prop.dump] of a
    token that is not in the table throws a [TypeError] and pushes
    nothing. *)
Theorem prop_dump_unknown (p : Puffman.t) (tok : string) (b : BitBuf.t) :
  Puffman.tokenOccurrences p <> [] ->
  Puffman.mapToBin p = ∅ ->
  tok ∉ (Puffman.tokenOccurrences p).*1 ->
  exists p1 p2,
    Puffman.buildTree p = (Js.Ok tt, p1) /\
    Puffman.buildMapToBin p1 = (Js.Ok tt, p2) /\
    CssEater.Prop_dump tok (CssEater.mkEaters b p2)
    = (Js.Throw Js.TypeError, CssEater.mkEaters b p2).
Proof.
  intros Hne Hmap Htok.
  destruct (build_spec p Hne Hmap)
    as (root & p1 & p2 & Hb & Htree & Hfull & Hm & Hcodes & Hleaf).
  exists p1, p2. split_and!; try assumption.
  unfold CssEater.Prop_dump, Js.bind, Js.gets. cbn [CssEater.puffman].
  destruct (Puffman.mapToBin p2 !! tok) as [c|] eqn:E; [|reflexivity].
  exfalso. apply Htok. rewrite <- Hleaf, <- (walk_codes_tokens root Hfull "").
  rewrite Hcodes in E. apply record_codes_lookup in E as [E|E];
    [|now rewrite lookup_empty in E].
  apply list_elem_of_fmap. now exists (tok, c).
Qed.

Lemma prop_dump_unknown_width :
  let p := Puffman.mk [("color"%string, 1); ("e"%string, 1)] None ∅ in
  Puffman.tokenOccurrences p <> [] /\
  Puffman.mapToBin p = ∅ /\
  ("width"%string ∉ (Puffman.tokenOccurrences p).*1) /\
  exists p1 p2,
    Puffman.buildTree p = (Js.Ok tt, p1) /\
    Puffman.buildMapToBin p1 = (Js.Ok tt, p2) /\
    CssEater.Prop_dump "width" (CssEater.mkEaters BitBuf.new p2)
    = (Js.Throw Js.TypeError, CssEater.mkEaters BitBuf.new p2).
Proof.
  intros p.
  assert (H1 : Puffman.tokenOccurrences p <> []) by discriminate.
  assert (H2 : Puffman.mapToBin p = ∅) by reflexivity.
  assert (H3 : "width"%string ∉ (Puffman.tokenOccurrences p).*1).
  { intros H. repeat (apply elem_of_cons in H as [H|H]; [discriminate|]).
    now apply elem_of_nil in H. }
  split_and!; try assumption.
  exact (prop_dump_unknown p "width" BitBuf.new H1 H2 H3).
Defined.

(** ** css-eater.js: writers and readers *)

Section Codec.

Lemma emits_ext (P : Puffman.t) (m m' : Js.M CssEater.Eaters unit) (bits : list Z) :
  (forall e, m e = m' e) -> emits P m' bits -> emits P m bits.
Proof. intros E H b. rewrite E. apply H. Qed.

Lemma emits_ret (P : Puffman.t) : emits P (Js.ret tt) [].
Proof. intros b. reflexivity. Qed.

Lemma emits_bind (P : Puffman.t) (m1 m2 : Js.M CssEater.Eaters unit) (l1 l2 : list Z) :
  emits P m1 l1 -> emits P m2 l2 -> emits P (m1 ;;; m2) (l1 ++ l2).
Proof.
  intros H1 H2 b. rewrite pushBits_app. unfold Js.bind. rewrite H1.
  destruct (pushBits l1 b) as [[[]|e|] b1]; try reflexivity. apply H2.
Qed.

Lemma emits_on_bitbuf (P : Puffman.t) (m : Js.M BitBuf.t unit) (bits : list Z) :
  (forall b, m b = pushBits bits b) -> emits P (CssEater.on_bitbuf m) bits.
Proof.
  intros H b. unfold CssEater.on_bitbuf. cbn [CssEater.bitbuf CssEater.puffman].
  now rewrite H.
Qed.

Lemma emits_push (P : Puffman.t) (x : Z) :
  emits P (CssEater.on_bitbuf (BitBuf.push x)) [x].
Proof.
  apply emits_on_bitbuf. intros b. cbn [pushBits]. unfold Js.bind, Js.ret.
  now destruct (BitBuf.push x b) as [[[]|e|] b1].
Qed.

Lemma emits_BlockType_dump (P : Puffman.t) (type : CssEater.BlockKind) :
  emits P (CssEater.BlockType_dump type) (kind_bits type).
Proof.
  destruct type; apply (emits_bind P _ _ [_] [_]); apply emits_push.
Qed.

Lemma emits_StringEater_dump (P : Puffman.t) (s : string) :
  emits P (CssEater.StringEater_dump s) (octets_bits (codes s ++ [0])).
Proof.
  apply emits_on_bitbuf. intros b.
  assert (Hoct : Forall is_octet (codes s ++ [0])).
  { apply Forall_app. split; [apply codes_are_octets|].
    apply Forall_singleton. unfold is_octet. lia. }
  rewrite <- (writeOctets_pushBits _ Hoct).
  apply (writes_bind _ _ (codes s) [0]); [apply writes_string|apply writes_octet].
Qed.

Lemma emits_Prop_dump (P : Puffman.t) (tok c : string) :
  Puffman.mapToBin P !! tok = Some c ->
  emits P (CssEater.Prop_dump tok) (code_bits c).
Proof.
  intros Hc b. unfold CssEater.Prop_dump, Js.bind, Js.gets.
  cbn [CssEater.puffman]. rewrite Hc. unfold CssEater.on_bitbuf.
  cbn [CssEater.bitbuf CssEater.puffman]. now rewrite push_bits_pushBits.
Qed.

Lemma set_pos_same (b : BitBuf.t) : BitBuf.set_pos (BitBuf.pos b) b = b.
Proof. now destruct b. Qed.

Lemma parses_ret {A} (P : Puffman.t) (x : A) : parses P (Js.ret x) [] x.
Proof.
  intros b rest _ _. cbn [List.length]. unfold Js.ret.
  now rewrite Z.add_0_r, set_pos_same.
Qed.

Lemma parses_bind {A B} (P : Puffman.t) (m : Js.M CssEater.Eaters A)
    (k : A -> Js.M CssEater.Eaters B) (l1 l2 : list Z) (x : A) (y : B) :
  parses P m l1 x -> parses P (k x) l2 y ->
  parses P (v <- m ;; k v) (l1 ++ l2) y.
Proof.
  intros H1 H2 b rest Hrd Hbits. pose proof (rd_pos b Hrd) as Hpos.
  rewrite <- app_assoc in Hbits. unfold Js.bind.
  rewrite (H1 b (l2 ++ rest) Hrd Hbits).
  apply bits_from_app in Hbits as [_ Hbits].
  rewrite (H2 _ rest).
  - rewrite length_app. f_equal. f_equal. unfold BitBuf.set_pos. simpl. f_equal. lia.
  - apply readable_set_pos; [exact Hrd|lia].
  - eapply bits_from_same; [| |exact Hbits]; reflexivity.
Qed.

Lemma parses_readBit (P : Puffman.t) (x : Z) :
  parses P (CssEater.on_bitbuf BitBuf.readBit) [x] x.
Proof.
  intros b rest Hrd Hbits. unfold CssEater.on_bitbuf.
  cbn [CssEater.bitbuf CssEater.puffman app] in *.
  now rewrite (readBit_bits b x rest Hrd Hbits).
Qed.

Lemma parses_BlockType_eat (P : Puffman.t) (type : CssEater.BlockKind) :
  parses P CssEater.BlockType_eat (kind_bits type) type.
Proof.
  unfold CssEater.BlockType_eat.
  destruct type;
    (eapply (parses_bind P _ _ [_] [_]); [apply parses_readBit|];
     eapply (parses_bind P _ _ [_] []); [apply parses_readBit|];
     apply parses_ret).
Qed.

(** The loop of [StringEater.eat] on a string that lies in the stream
    with its terminator. *)
Lemma StringEater_eat_loop_spec (l : list Z) :
  forall (fuel : nat) (data : list Z) (b : BitBuf.t),
  readable b ->
  octets_from b (BitBuf.pos b) (l ++ [0]) ->
  Forall (fun o => o <> 0) l ->
  (List.length l < fuel)%nat ->
  CssEater.StringEater_eat_loop fuel data b
  = (Js.Ok (BitBuf.decode (data ++ l)),
     BitBuf.set_pos (BitBuf.pos b + 8 * (Z.of_nat (List.length l) + 1)) b).
Proof.
  induction l as [|o l IH]; intros fuel data b Hrd Hfrom Hne Hfuel;
    (destruct fuel as [|fuel]; [simpl in Hfuel; lia|]);
    pose proof (rd_pos b Hrd) as Hpos;
    destruct Hfrom as (Hle & Ho & Hrest);
    cbn [CssEater.StringEater_eat_loop]; unfold Js.bind;
    rewrite readOctet_ok by assumption; rewrite Ho.
  - rewrite Z.eqb_refl, app_nil_r. reflexivity.
  - apply Forall_cons in Hne as [Hod Hne].
    replace (o =? 0) with false by (symmetry; now apply Z.eqb_neq).
    cbn [negb]. rewrite IH; try assumption.
    + rewrite <- app_assoc. simpl. f_equal. unfold BitBuf.set_pos. simpl.
      f_equal. lia.
    + apply readable_set_pos; [assumption|lia].
    + now apply octets_from_set_pos.
    + simpl in Hfuel. lia.
Qed.

(** The loop of [StringEater.eat] on a stream that ends before a
    terminator. *)
Lemma StringEater_eat_loop_open (l : list Z) :
  forall (fuel : nat) (data : list Z) (b : BitBuf.t),
  readable b ->
  octets_from b (BitBuf.pos b) l ->
  Forall (fun o => o <> 0) l ->
  BitBuf.length b < BitBuf.pos b + 8 * Z.of_nat (List.length l) + 8 ->
  (List.length l < fuel)%nat ->
  let q := BitBuf.pos b + 8 * Z.of_nat (List.length l) in
  CssEater.StringEater_eat_loop fuel data b
  = (Js.Throw (Js.IndexError (Z.max q (BitBuf.length b))), BitBuf.set_pos q b).
Proof.
  induction l as [|o l IH]; intros fuel data b Hrd Hfrom Hne Hend Hfuel q;
    (destruct fuel as [|fuel]; [simpl in Hfuel; lia|]);
    pose proof (rd_pos b Hrd) as Hpos;
    cbn [CssEater.StringEater_eat_loop]; unfold Js.bind.
  - simpl in Hend. rewrite readOctet_fail by (try assumption; lia).
    subst q. cbn [List.length]. now rewrite Z.add_0_r, set_pos_same.
  - destruct Hfrom as (Hle & Ho & Hrest).
    apply Forall_cons in Hne as [Hod Hne].
    rewrite readOctet_ok by assumption. rewrite Ho.
    replace (o =? 0) with false by (symmetry; now apply Z.eqb_neq).
    cbn [negb]. rewrite IH; try assumption.
    + subst q. cbn [List.length BitBuf.pos BitBuf.set_pos BitBuf.length].
      unfold BitBuf.set_pos. simpl.
      replace (BitBuf.pos b + 8 + 8 * Z.of_nat (List.length l))
        with (BitBuf.pos b + 8 * Z.of_nat (S (List.length l))) by lia.
      reflexivity.
    + apply readable_set_pos; [assumption|lia].
    + now apply octets_from_set_pos.
    + simpl in *. lia.
    + simpl in Hfuel. lia.
Qed.

Lemma parses_StringEater_eat (P : Puffman.t) (s : string) :
  no_nul s -> parses P CssEater.StringEater_eat (octets_bits (codes s ++ [0])) s.
Proof.
  intros Hs b rest Hrd Hbits. pose proof (rd_pos b Hrd) as Hpos.
  assert (Hoct : Forall is_octet (codes s ++ [0])).
  { apply Forall_app. split; [apply codes_are_octets|].
    apply Forall_singleton. unfold is_octet. lia. }
  apply bits_octets in Hbits as [Hfrom _]; [|exact Hoct].
  unfold CssEater.StringEater_eat, CssEater.on_bitbuf.
  cbn [CssEater.bitbuf CssEater.puffman].
  rewrite (StringEater_eat_loop_spec (codes s)); try assumption.
  - cbn [app]. rewrite decode_codes, octets_bits_length, length_app.
    cbn [List.length]. do 3 f_equal. lia.
  - pose proof (octets_from_length b (codes s ++ [0]) _ Hfrom) as Hlen.
    rewrite length_app in Hlen. simpl in Hlen.
    specialize (Hlen ltac:(now destruct (codes s))).
    unfold BitBuf.octets_left, BitBuf.OCTET_SIZE.
    assert (Z.of_nat (List.length (codes s)) + 1
            <= (BitBuf.length b - BitBuf.pos b) / 8)
      by (Z.to_euclidean_division_equations; lia).
    lia.
Qed.

(** What a writer pushed at the end of a buffer, a reader reads from
    there. *)
Lemma emits_parses {A} (P P' : Puffman.t) (w : Js.M CssEater.Eaters unit)
    (r : Js.M CssEater.Eaters A) (bits : list Z) (x : A) (b : BitBuf.t) :
  emits P w bits -> Forall (fun x => 0 <= x <= 1) bits -> parses P' r bits x ->
  wf b -> BitBuf.pos b = BitBuf.length b ->
  exists b1,
    w (CssEater.mkEaters b P) = (Js.Ok tt, CssEater.mkEaters b1 P) /\
    wf b1 /\
    BitBuf.length b1 = BitBuf.length b + Z.of_nat (List.length bits) /\
    BitBuf.pos b1 = BitBuf.pos b /\
    r (CssEater.mkEaters b1 P')
    = (Js.Ok x, CssEater.mkEaters (BitBuf.set_pos (BitBuf.length b1) b1) P').
Proof.
  intros Hw Hbits Hr Hwf Hpos.
  destruct (pushBits_spec bits b Hwf Hbits) as (b1 & Hpush & Hwf1 & Hl1 & Hp1 & _ & Hfrom).
  exists b1. split_and!; try assumption.
  - now rewrite Hw, Hpush.
  - rewrite (Hr b1 []).
    + do 3 f_equal. lia.
    + now apply wf_readable.
    + now rewrite app_nil_r, Hp1, Hpos.
Qed.

End Codec.

(** X12: [BlockType.dump] pushes two bits, and [BlockType.eat] at the
    written position returns the type that was dumped, for each of the
    three types, and stops behind the two bits. *)
Theorem BlockType_dump_eat (type : CssEater.BlockKind) (b : BitBuf.t) (P : Puffman.t) :
  wf b -> BitBuf.pos b = BitBuf.length b ->
  exists b1,
    CssEater.BlockType_dump type (CssEater.mkEaters b P)
    = (Js.Ok tt, CssEater.mkEaters b1 P) /\
    BitBuf.length b1 = BitBuf.length b + 2 /\
    CssEater.BlockType_eat (CssEater.mkEaters b1 P)
    = (Js.Ok type, CssEater.mkEaters (BitBuf.set_pos (BitBuf.length b1) b1) P).
Proof.
  intros Hwf Hpos.
  destruct (emits_parses P P _ CssEater.BlockType_eat (kind_bits type) type b
              (emits_BlockType_dump P type)) as (b1 & Hw & _ & Hl & _ & Hr);
    try assumption.
  - destruct type; repeat constructor; lia.
  - apply parses_BlockType_eat.
  - exists b1. split_and!; try assumption. rewrite Hl. now destruct type.
Qed.

Lemma BlockType_dump_eat_media :
  wf BitBuf.new /\ BitBuf.pos BitBuf.new = BitBuf.length BitBuf.new /\
  exists b1,
    CssEater.BlockType_dump CssEater.KMedia (CssEater.mkEaters BitBuf.new Puffman.new)
    = (Js.Ok tt, CssEater.mkEaters b1 Puffman.new) /\
    BitBuf.length b1 = BitBuf.length BitBuf.new + 2 /\
    CssEater.BlockType_eat (CssEater.mkEaters b1 Puffman.new)
    = (Js.Ok CssEater.KMedia,
       CssEater.mkEaters (BitBuf.set_pos (BitBuf.length b1) b1) Puffman.new).
Proof.
  split; [apply wf_new|]. split; [reflexivity|].
  exact (BlockType_dump_eat CssEater.KMedia BitBuf.new Puffman.new wf_new eq_refl).
Defined.

(** X13: when the octets at the read position are ASCII octets that are
    not 0 (below 128, so that decoding them as UTF-8 gives one character
    for each) followed by a 0, [StringEater.eat] returns the string of
    the octets before the 0 and leaves the read position behind the 0. *)
Theorem StringEater_eat_terminated (b : BitBuf.t) (P : Puffman.t) (l : list Z) :
  readable b ->
  octets_from b (BitBuf.pos b) (l ++ [0]) ->
  Forall (fun o => o <> 0) l ->
  Forall ascii_octet l ->
  CssEater.StringEater_eat (CssEater.mkEaters b P)
  = (Js.Ok (BitBuf.decode l),
     CssEater.mkEaters
       (BitBuf.set_pos (BitBuf.pos b + 8 * (Z.of_nat (List.length l) + 1)) b) P).
Proof.
  intros Hrd Hfrom Hne _. pose proof (rd_pos b Hrd) as Hpos.
  unfold CssEater.StringEater_eat, CssEater.on_bitbuf.
  cbn [CssEater.bitbuf CssEater.puffman].
  rewrite (StringEater_eat_loop_spec l); try assumption; [reflexivity|].
  pose proof (octets_from_length b (l ++ [0]) _ Hfrom) as Hlen.
  rewrite length_app in Hlen. simpl in Hlen.
  specialize (Hlen ltac:(now destruct l)).
  unfold BitBuf.octets_left, BitBuf.OCTET_SIZE.
  assert (Z.of_nat (List.length l) + 1 <= (BitBuf.length b - BitBuf.pos b) / 8)
    by (Z.to_euclidean_division_equations; lia).
  lia.
Qed.

Lemma StringEater_eat_terminated_AB :
  let b := (BitBuf.fromBuffer [65; 66; 0; 67] BitBuf.new).2 in
  readable b /\
  octets_from b (BitBuf.pos b) ([65; 66] ++ [0]) /\
  Forall (fun o => o <> 0) [65; 66] /\
  Forall ascii_octet [65; 66] /\
  CssEater.StringEater_eat (CssEater.mkEaters b Puffman.new)
  = (Js.Ok (BitBuf.decode [65; 66]),
     CssEater.mkEaters
       (BitBuf.set_pos (BitBuf.pos b + 8 * (Z.of_nat (List.length [65; 66]) + 1)) b)
       Puffman.new).
Proof.
  intros b.
  assert (H1 : readable b).
  { apply fromBuffer_readable. repeat constructor; unfold is_octet; lia. }
  assert (H2 : octets_from b (BitBuf.pos b) ([65; 66] ++ [0])).
  { vm_compute. repeat split; discriminate. }
  assert (H3 : Forall (fun o => o <> 0) [65; 66]) by (repeat constructor; lia).
  assert (H4 : Forall ascii_octet [65; 66])
    by (repeat constructor; unfold ascii_octet; lia).
  split_and!; try assumption.
  exact (StringEater_eat_terminated b Puffman.new [65; 66] H1 H2 H3 H4).
Defined.

(** X14: when every octet from the read position to the end of the
    buffer is not 0, [StringEater.eat] throws the index error of the read
    past the end, and the read position stays behind the last whole
    octet. *)
Theorem StringEater_eat_unterminated (b : BitBuf.t) (P : Puffman.t) (l : list Z) :
  readable b ->
  octets_from b (BitBuf.pos b) l ->
  Forall (fun o => o <> 0) l ->
  BitBuf.length b < BitBuf.pos b + 8 * Z.of_nat (List.length l) + 8 ->
  let q := BitBuf.pos b + 8 * Z.of_nat (List.length l) in
  CssEater.StringEater_eat (CssEater.mkEaters b P)
  = (Js.Throw (Js.IndexError (Z.max q (BitBuf.length b))),
     CssEater.mkEaters (BitBuf.set_pos q b) P).
Proof.
  intros Hrd Hfrom Hne Hend q. pose proof (rd_pos b Hrd) as Hpos.
  unfold CssEater.StringEater_eat, CssEater.on_bitbuf.
  cbn [CssEater.bitbuf CssEater.puffman].
  rewrite (StringEater_eat_loop_open l); try assumption; [reflexivity|].
  unfold BitBuf.octets_left, BitBuf.OCTET_SIZE.
  destruct l as [|o l].
  - simpl. lia.
  - pose proof (octets_from_length b (o :: l) _ Hfrom ltac:(discriminate)) as Hlen.
    assert (Z.of_nat (List.length (o :: l)) <= (BitBuf.length b - BitBuf.pos b) / 8)
      by (Z.to_euclidean_division_equations; lia).
    lia.
Qed.

Lemma StringEater_eat_unterminated_AB :
  let b := (BitBuf.fromBuffer [65; 66] BitBuf.new).2 in
  readable b /\
  octets_from b (BitBuf.pos b) [65; 66] /\
  Forall (fun o => o <> 0) [65; 66] /\
  BitBuf.length b < BitBuf.pos b + 8 * Z.of_nat (List.length [65; 66]) + 8 /\
  let q := BitBuf.pos b + 8 * Z.of_nat (List.length [65; 66]) in
  CssEater.StringEater_eat (CssEater.mkEaters b Puffman.new)
  = (Js.Throw (Js.IndexError (Z.max q (BitBuf.length b))),
     CssEater.mkEaters (BitBuf.set_pos q b) Puffman.new).
Proof.
  intros b.
  assert (H1 : readable b).
  { apply fromBuffer_readable. repeat constructor; unfold is_octet; lia. }
  assert (H2 : octets_from b (BitBuf.pos b) [65; 66]).
  { vm_compute. repeat split; discriminate. }
  assert (H3 : Forall (fun o => o <> 0) [65; 66]) by (repeat constructor; lia).
  assert (H4 : BitBuf.length b
               < BitBuf.pos b + 8 * Z.of_nat (List.length [65; 66]) + 8)
    by (vm_compute; reflexivity).
  split_and!; try assumption.
  exact (StringEater_eat_unterminated b Puffman.new [65; 66] H1 H2 H3 H4).
Defined.

Lemma ascii_text_no_nul (s : string) : ascii_text s -> no_nul s.
Proof.
  unfold ascii_text, no_nul. intros H. eapply Forall_impl; [exact H|].
  now intros o [Ho _].
Qed.

(** X15: [StringEater.dump] of a text of ASCII characters without the
    character of code 0 writes one octet per character and a 0, and
    [StringEater.eat] at the written position returns the text and stops
    behind the 0.  ([writeString] is the helper modelled from the
    spec.) *)
Theorem StringEater_dump_eat (s : string) (b : BitBuf.t) (P : Puffman.t) :
  ascii_text s -> wf b -> BitBuf.pos b = BitBuf.length b ->
  exists b1,
    CssEater.StringEater_dump s (CssEater.mkEaters b P)
    = (Js.Ok tt, CssEater.mkEaters b1 P) /\
    BitBuf.length b1 = BitBuf.length b + 8 * (Z.of_nat (String.length s) + 1) /\
    CssEater.StringEater_eat (CssEater.mkEaters b1 P)
    = (Js.Ok s, CssEater.mkEaters (BitBuf.set_pos (BitBuf.length b1) b1) P).
Proof.
  intros Hs Hwf Hpos. apply ascii_text_no_nul in Hs.
  destruct (emits_parses P P _ CssEater.StringEater_eat
              (octets_bits (codes s ++ [0])) s b
              (emits_StringEater_dump P s)) as (b1 & Hw & _ & Hl & _ & Hr);
    try assumption.
  - apply octets_bits_range.
  - now apply parses_StringEater_eat.
  - exists b1. split_and!; try assumption.
    rewrite Hl, octets_bits_length, length_app. unfold codes.
    rewrite length_map. cbn [List.length].
    replace (List.length (list_ascii_of_string s)) with (String.length s);
      [lia|].
    clear. induction s; simpl; auto.
Qed.

Lemma StringEater_dump_eat_div :
  ascii_text "div" /\ wf BitBuf.new /\
  BitBuf.pos BitBuf.new = BitBuf.length BitBuf.new /\
  exists b1,
    CssEater.StringEater_dump "div" (CssEater.mkEaters BitBuf.new Puffman.new)
    = (Js.Ok tt, CssEater.mkEaters b1 Puffman.new) /\
    BitBuf.length b1
    = BitBuf.length BitBuf.new + 8 * (Z.of_nat (String.length "div") + 1) /\
    CssEater.StringEater_eat (CssEater.mkEaters b1 Puffman.new)
    = (Js.Ok "div"%string,
       CssEater.mkEaters (BitBuf.set_pos (BitBuf.length b1) b1) Puffman.new).
Proof.
  assert (H : ascii_text "div")
    by (repeat constructor; (discriminate || (vm_compute; reflexivity))).
  split_and!; [exact H|apply wf_new|reflexivity|].
  exact (StringEater_dump_eat "div" BitBuf.new Puffman.new H wf_new eq_refl).
Defined.

(** ** css-eater.js: [groupBlocks] *)

Section Blocks.

Variable ast : CssEater.Ast.
Hypothesis no_blank_media :
  forall i rules, ast !! i <> Some (CssEater.AMedia "" rules).

Let viewed (block : CssEater.Block) (v : CssEater.BlockView) : Prop :=
  CssEater.view ast block = Some v.

Lemma groupBlocks_step_view (i : nat) (node : CssEater.AstNode)
    (blocks : list CssEater.Block) (views : list CssEater.BlockView) :
  ast !! i = Some node -> Forall2 viewed blocks views ->
  exists blocks',
    CssEater.groupBlocks_step i (blocks, ast) = (blocks', ast) /\
    Forall2 viewed blocks' (group_step views node).
Proof.
  intros Hi Hv. unfold CssEater.groupBlocks_step. rewrite Hi.
  destruct node as [rule|media rules|contents].
  - (* a rule *)
    assert (Hnew : Forall2 viewed (blocks ++ [CssEater.BNew "" [rule]])
                     (views ++ [CssEater.VMedia "" [rule]])).
    { apply Forall2_app; [exact Hv|]. now repeat constructor. }
    destruct blocks as [|bl bs _] using rev_ind.
    + apply Forall2_nil_inv_l in Hv. subst views. eauto.
    + apply Forall2_app_inv_l in Hv as (vs & v1 & Hvs & Hv1 & ->).
      apply Forall2_cons_inv_l in Hv1 as (v & v2 & Hbl & Hnil & ->).
      apply Forall2_nil_inv_l in Hnil. subst v2.
      unfold CssEater.push_to_latest, group_step. rewrite !last_snoc.
      unfold viewed in Hbl. destruct bl as [media rules|j|contents].
      * injection Hbl as <-. destruct (String.eqb media ""); [|eauto].
        rewrite !removelast_last. eexists. split; [reflexivity|].
        apply Forall2_app; [exact Hvs|]. now repeat constructor.
      * cbn [CssEater.view] in Hbl.
        destruct (ast !! j) as [[r|media rules|c]|] eqn:Ej; try discriminate.
        injection Hbl as <-.
        destruct (String.eqb media "") eqn:Em; [|eauto].
        apply String.eqb_eq in Em. subst media. now apply no_blank_media in Ej.
      * injection Hbl as <-. eauto.
  - (* a media node *)
    eexists. split; [reflexivity|]. cbn [group_step].
    apply Forall2_app; [exact Hv|]. repeat constructor.
    unfold viewed. cbn [CssEater.view]. now rewrite Hi.
  - (* another node *)
    cbn [group_step]. destruct (String.eqb contents ""); [eauto|].
    eexists. split; [reflexivity|].
    apply Forall2_app; [exact Hv|]. now repeat constructor.
Qed.

(** [groupBlocks] returns the blocks of the tree and leaves the tree. *)
Lemma groupBlocks_views :
  exists blocks,
    CssEater.groupBlocks ast = (blocks, ast) /\ Forall2 viewed blocks (group ast).
Proof.
  unfold CssEater.groupBlocks, group.
  assert (H : forall k, (k <= List.length ast)%nat ->
            exists blocks,
              fold_left (fun st i => CssEater.groupBlocks_step i st) (seq 0 k) ([], ast)
              = (blocks, ast) /\
              Forall2 viewed blocks (fold_left group_step (take k ast) [])).
  { induction k as [|k IH]; intros Hk.
    - exists []. split; [reflexivity|constructor].
    - destruct (IH ltac:(lia)) as (blocks & Hfold & Hv).
      destruct (lookup_lt_is_Some_2 ast k ltac:(lia)) as [node Hnode].
      rewrite seq_S, fold_left_app, Hfold. cbn [fold_left Nat.add].
      rewrite (take_S_r _ _ _ Hnode), fold_left_app. cbn [fold_left].
      now apply groupBlocks_step_view. }
  destruct (H (List.length ast) ltac:(lia)) as (blocks & Hfold & Hv).
  rewrite firstn_all in Hv. eauto.
Qed.

End Blocks.

Section Groups.

Let plain (node : CssEater.AstNode) : Prop :=
  forall rules, node <> CssEater.AMedia "" rules.

Lemma separated_snoc (views : list CssEater.BlockView) (v : CssEater.BlockView) :
  separated (views ++ [v]) <->
  separated views /\
  match last views with
  | Some u => is_blank u && is_blank v = false
  | None => True
  end.
Proof.
  induction views as [|v1 [|v2 views] IH].
  - simpl. tauto.
  - simpl. tauto.
  - change (separated ((v1 :: v2 :: views) ++ [v]))
      with (is_blank v1 && is_blank v2 = false /\ separated ((v2 :: views) ++ [v])).
    change (separated (v1 :: v2 :: views))
      with (is_blank v1 && is_blank v2 = false /\ separated (v2 :: views)).
    rewrite IH. change (last (v1 :: v2 :: views)) with (last (v2 :: views)).
    tauto.
Qed.

Lemma group_step_nodes (views : list CssEater.BlockView) (node : CssEater.AstNode) :
  plain node ->
  flat_map nodes_of (group_step views node)
  = flat_map nodes_of views ++ (if kept node then [node] else []).
Proof.
  intros Hplain. destruct node as [rule|media rules|contents]; cbn [group_step kept].
  - destruct views as [|u vs _] using rev_ind; [reflexivity|].
    rewrite last_snoc. destruct u as [media rules|c].
    + destruct (String.eqb media "") eqn:Em.
      * rewrite removelast_last, !flat_map_app. cbn [flat_map nodes_of].
        rewrite Em, !app_nil_r, map_app, <- app_assoc. reflexivity.
      * now rewrite flat_map_app.
    + now rewrite flat_map_app.
  - rewrite flat_map_app. cbn [flat_map nodes_of].
    destruct (String.eqb media "") eqn:Em; [|reflexivity].
    apply String.eqb_eq in Em. subst media. now destruct (Hplain rules).
  - destruct (String.eqb contents ""); cbn [negb]; [now rewrite app_nil_r|].
    now rewrite flat_map_app.
Qed.

Lemma group_step_separated (views : list CssEater.BlockView) (node : CssEater.AstNode) :
  plain node -> separated views -> separated (group_step views node).
Proof.
  intros Hplain Hsep. destruct node as [rule|media rules|contents]; cbn [group_step].
  - destruct views as [|u vs _] using rev_ind; [simpl; tauto|].
    rewrite last_snoc. apply separated_snoc in Hsep as [Hvs Hu].
    destruct u as [media rules|c].
    + destruct (String.eqb media "") eqn:Em.
      * rewrite removelast_last. apply separated_snoc. split; [exact Hvs|].
        destruct (last vs); [|exact I]. cbn [is_blank] in *. exact Hu.
      * apply separated_snoc. rewrite last_snoc. cbn [is_blank]. rewrite Em.
        split; [|reflexivity]. apply separated_snoc. now split.
    + apply separated_snoc. rewrite last_snoc. cbn [is_blank].
      split; [|reflexivity]. apply separated_snoc. now split.
  - apply separated_snoc. split; [exact Hsep|].
    destruct (last views); [|exact I]. cbn [is_blank].
    destruct (String.eqb media "") eqn:Em; [|apply andb_false_r].
    apply String.eqb_eq in Em. subst media. now destruct (Hplain rules).
  - destruct (String.eqb contents ""); [exact Hsep|].
    apply separated_snoc. split; [exact Hsep|].
    destruct (last views); [|exact I]. apply andb_false_r.
Qed.

Lemma group_fold (l : list CssEater.AstNode) :
  Forall plain l -> forall views,
  separated views ->
  flat_map nodes_of (fold_left group_step l views)
  = flat_map nodes_of views ++ List.filter kept l /\
  separated (fold_left group_step l views).
Proof.
  induction 1 as [|node l Hnode _ IH]; intros views Hsep; cbn [fold_left List.filter].
  - now rewrite app_nil_r.
  - destruct (IH (group_step views node)) as [Hflat Hsep'];
      [now apply group_step_separated|].
    split; [|exact Hsep'].
    rewrite Hflat, group_step_nodes by exact Hnode.
    rewrite <- app_assoc. now destruct (kept node).
Qed.

Lemma group_spec (ast : CssEater.Ast) :
  (forall i rules, ast !! i <> Some (CssEater.AMedia "" rules)) ->
  flat_map nodes_of (group ast) = List.filter kept ast /\ separated (group ast).
Proof.
  intros Hno. apply (group_fold ast); [|exact I].
  apply Forall_forall. intros node Hin rules ->.
  apply list_elem_of_lookup in Hin as [i Hi]. now apply Hno in Hi.
Qed.

End Groups.

(** X16: when no media node of the tree has the empty query, [groupBlocks]
    leaves the tree as it was and returns blocks that lose and reorder
    nothing: the blocks, with every block of the empty query replaced by
    its rules, are the nodes of the tree without those rendered to the
    empty string; and no two blocks of the empty query follow each other,
    so consecutive rules share one block. *)
Theorem groupBlocks_groups (ast : CssEater.Ast) :
  (forall i rules, ast !! i <> Some (CssEater.AMedia "" rules)) ->
  exists blocks views,
    CssEater.groupBlocks ast = (blocks, ast) /\
    Forall2 (fun block v => CssEater.view ast block = Some v) blocks views /\
    flat_map nodes_of views = List.filter kept ast /\
    separated views.
Proof.
  intros Hno. destruct (groupBlocks_views ast Hno) as (blocks & Hg & Hv).
  destruct (group_spec ast Hno) as [Hflat Hsep].
  exists blocks, (group ast). now split_and!.
Qed.

Lemma groupBlocks_groups_print :
  let ast := [CssEater.ARule (CssEater.mkRule ["a"%string] []);
              CssEater.ARule (CssEater.mkRule ["b"%string] []);
              CssEater.AMedia "print" [];
              CssEater.AOther ""] in
  (forall i rules, ast !! i <> Some (CssEater.AMedia "" rules)) /\
  exists blocks views,
    CssEater.groupBlocks ast = (blocks, ast) /\
    Forall2 (fun block v => CssEater.view ast block = Some v) blocks views /\
    flat_map nodes_of views = List.filter kept ast /\
    separated views.
Proof.
  intros ast.
  assert (H : forall i rules, ast !! i <> Some (CssEater.AMedia "" rules)).
  { intros i rules. do 4 (destruct i as [|i]; [discriminate|]). discriminate. }
  split; [exact H|]. exact (groupBlocks_groups ast H).
Defined.

(** ** css-eater.js: [Prop.loadFromAst] *)

Section Loading.

Lemma for_of_views {S} (ast : CssEater.Ast) (body : CssEater.BlockView -> Js.M S unit)
    (blocks : list CssEater.Block) (views : list CssEater.BlockView) :
  Forall2 (fun block v => CssEater.view ast block = Some v) blocks views ->
  forall s,
    CssEater.for_of blocks
      (fun block =>
         match CssEater.view ast block with
         | None => Js.throw Js.TypeError
         | Some v => body v
         end) s
    = CssEater.for_of views body s.
Proof.
  induction 1 as [|block v blocks views Hv _ IH]; intros s; [reflexivity|].
  cbn [CssEater.for_of]. unfold Js.bind. rewrite Hv.
  destruct (body v s) as [[[]|e|] s1]; try reflexivity. apply IH.
Qed.

Lemma for_of_app {S A} (body : A -> Js.M S unit) (l1 l2 : list A) (s : S) :
  CssEater.for_of (l1 ++ l2) body s
  = (CssEater.for_of l1 body ;;; CssEater.for_of l2 body) s.
Proof.
  revert s. induction l1 as [|x l1 IH]; intros s; cbn [CssEater.for_of app].
  - unfold Js.bind, Js.ret. now destruct (CssEater.for_of l2 body s) as [[[]|e|] s1].
  - rewrite bind_assoc.
    change ((let '(r, s1) := body x s in
             match r with
             | Js.Ok _ => CssEater.for_of (l1 ++ l2) body s1
             | Js.Throw e => (Js.Throw e, s1)
             | Js.OutOfFuel => (Js.OutOfFuel, s1)
             end)
            = (let '(r, s1) := body x s in
               match r with
               | Js.Ok _ => (CssEater.for_of l1 body ;;; CssEater.for_of l2 body) s1
               | Js.Throw e => (Js.Throw e, s1)
               | Js.OutOfFuel => (Js.OutOfFuel, s1)
               end)).
    destruct (body x s) as [[[]|e|] s1]; try reflexivity. apply IH.
Qed.

Lemma see_all_snoc (tokens : list string) (tok : string) (p p1 : Puffman.t) :
  see_all tokens p = (Js.Ok tt, p1) ->
  see_all (tokens ++ [tok]) p = Puffman.see tok p1.
Proof.
  intros H. unfold see_all in *. rewrite for_of_app. unfold Js.bind at 1.
  rewrite H. cbn [CssEater.for_of]. unfold Js.bind, Js.ret.
  now destruct (Puffman.see tok p1) as [[[]|e|] p2].
Qed.

Lemma see_all_app (l1 l2 : list string) (p p1 : Puffman.t) :
  see_all l1 p = (Js.Ok tt, p1) ->
  see_all (l1 ++ l2) p = see_all l2 p1.
Proof.
  intros H. unfold see_all in *. rewrite for_of_app. unfold Js.bind.
  now rewrite H.
Qed.

Lemma on_puffman_see (tok : string) (b : BitBuf.t) (p : Puffman.t) :
  exists p1,
    Puffman.see tok p = (Js.Ok tt, p1) /\
    CssEater.on_puffman (Puffman.see tok) (CssEater.mkEaters b p)
    = (Js.Ok tt, CssEater.mkEaters b p1).
Proof.
  destruct (see_spec tok p) as (p1 & Hsee & _). exists p1. split; [exact Hsee|].
  unfold CssEater.on_puffman. cbn [CssEater.puffman CssEater.bitbuf].
  now rewrite Hsee.
Qed.

Lemma load_declarations (b : BitBuf.t) (declarations : list CssEater.Declaration) :
  forall p, exists p1,
    see_all (map fst (decl_props declarations)) p = (Js.Ok tt, p1) /\
    CssEater.for_of declarations
      (fun declaration =>
         match declaration with
         | CssEater.DeclOther => Js.ret tt
         | CssEater.Decl property _ => CssEater.on_puffman (Puffman.see property)
         end) (CssEater.mkEaters b p)
    = (Js.Ok tt, CssEater.mkEaters b p1).
Proof.
  induction declarations as [|[property value|] declarations IH]; intros p.
  - exists p. now split.
  - destruct (on_puffman_see property b p) as (p1 & Hsee & Hon).
    destruct (IH p1) as (p2 & Hall & Hfor). exists p2. split.
    + change (see_all ([property] ++ map fst (decl_props declarations)) p
              = (Js.Ok tt, p2)).
      rewrite (see_all_app [property] _ p p1); [exact Hall|].
      unfold see_all. cbn [CssEater.for_of]. unfold Js.bind. now rewrite Hsee.
    + cbn [CssEater.for_of]. unfold Js.bind at 1. now rewrite Hon.
  - destruct (IH p) as (p1 & Hall & Hfor). exists p1. split; [exact Hall|].
    cbn [CssEater.for_of]. unfold Js.bind at 1. exact Hfor.
Qed.

Lemma load_rules (b : BitBuf.t) (rules : list CssEater.Rule) :
  forall p, exists p1,
    see_all (flat_map rule_tokens rules) p = (Js.Ok tt, p1) /\
    CssEater.for_of rules
      (fun rule =>
         CssEater.for_of (CssEater.declarations rule)
           (fun declaration =>
              match declaration with
              | CssEater.DeclOther => Js.ret tt
              | CssEater.Decl property _ =>
                  CssEater.on_puffman (Puffman.see property)
              end) ;;;
         CssEater.on_puffman (Puffman.see CssEater.ESC))
      (CssEater.mkEaters b p)
    = (Js.Ok tt, CssEater.mkEaters b p1).
Proof.
  induction rules as [|rule rules IH]; intros p.
  - exists p. now split.
  - destruct (load_declarations b (CssEater.declarations rule) p)
      as (p1 & Hall1 & Hfor1).
    destruct (on_puffman_see CssEater.ESC b p1) as (p2 & Hsee & Hon).
    destruct (IH p2) as (p3 & Hall3 & Hfor3). exists p3. split.
    + cbn [flat_map]. unfold rule_tokens at 1, props.
      rewrite (see_all_app _ _ p p2); [exact Hall3|].
      now rewrite (see_all_snoc _ _ p p1).
    + cbn [CssEater.for_of]. unfold Js.bind at 1. unfold Js.bind at 1.
      now rewrite Hfor1, Hon.
Qed.

Lemma load_views (b : BitBuf.t) (views : list CssEater.BlockView) :
  forall p, exists p1,
    see_all (tokens_of views) p = (Js.Ok tt, p1) /\
    CssEater.for_of views
      (fun v =>
         match v with
         | CssEater.VMedia _ rules =>
             CssEater.for_of rules
               (fun rule =>
                  CssEater.for_of (CssEater.declarations rule)
                    (fun declaration =>
                       match declaration with
                       | CssEater.DeclOther => Js.ret tt
                       | CssEater.Decl property _ =>
                           CssEater.on_puffman (Puffman.see property)
                       end) ;;;
                  CssEater.on_puffman (Puffman.see CssEater.ESC))
         | CssEater.VRaw _ => Js.ret tt
         end) (CssEater.mkEaters b p)
    = (Js.Ok tt, CssEater.mkEaters b p1).
Proof.
  induction views as [|v views IH]; intros p.
  - exists p. now split.
  - unfold tokens_of. cbn [flat_map CssEater.for_of]. rewrite flat_map_app.
    destruct v as [media rules|contents]; cbn [view_rules].
    + destruct (load_rules b rules p) as (p1 & Hall1 & Hfor1).
      destruct (IH p1) as (p2 & Hall2 & Hfor2). exists p2. split.
      * now rewrite (see_all_app _ _ p p1).
      * unfold Js.bind at 1. now rewrite Hfor1.
    + destruct (IH p) as (p1 & Hall & Hfor). exists p1. split; [exact Hall|].
      unfold Js.bind at 1. exact Hfor.
Qed.

(** [loadFromAst] observes the tokens of the blocks, builds the tree and
    the map, and leaves the buffer and the tree of the style sheet. *)
Lemma Prop_loadFromAst_spec (ast : CssEater.Ast) (b : BitBuf.t) (p : Puffman.t) :
  (forall i rules, ast !! i <> Some (CssEater.AMedia "" rules)) ->
  exists p1,
    see_all (tokens_of (group ast)) p = (Js.Ok tt, p1) /\
    CssEater.Prop_loadFromAst ast (CssEater.mkEaters b p)
    = (CssEater.on_puffman Puffman.buildTree ;;;
       CssEater.on_puffman Puffman.buildMapToBin ;;;
       Js.ret ast) (CssEater.mkEaters b p1).
Proof.
  intros Hno. destruct (groupBlocks_views ast Hno) as (blocks & Hg & Hv).
  destruct (load_views b (group ast) p) as (p1 & Hall & Hfor).
  exists p1. split; [exact Hall|].
  unfold CssEater.Prop_loadFromAst. rewrite Hg. unfold Js.bind at 1.
  rewrite (for_of_views ast _ blocks (group ast) Hv), Hfor. reflexivity.
Qed.

Lemma occurrences_of_zero (tok : string) (tokens : list string) :
  0 <= occurrences_of tok tokens /\
  (occurrences_of tok tokens = 0 <-> tok ∉ tokens).
Proof.
  induction tokens as [|t tokens [IH0 IH]]; simpl.
  - split; [lia|]. split; [intros _; apply not_elem_of_nil|reflexivity].
  - rewrite not_elem_of_cons. destruct (String.eqb t tok) eqn:E.
    + apply String.eqb_eq in E. subst t. split; [lia|]. split; [lia|].
      now intros [? _].
    + apply String.eqb_neq in E. split; [lia|]. rewrite <- IH.
      split; [intros H; split; [congruence|lia]|intros [_ H]; lia].
Qed.

(** The keys of the table after the tokens of a list were observed. *)
Lemma see_all_keys (tokens : list string) (p : Puffman.t) :
  see_all tokens Puffman.new = (Js.Ok tt, p) ->
  Puffman.tree p = None /\ Puffman.mapToBin p = ∅ /\
  forall tok, tok ∈ (Puffman.tokenOccurrences p).*1 <-> tok ∈ tokens.
Proof.
  intros H. destruct (see_all_spec tokens Puffman.new) as (p' & H' & Ht & Hm & Hget & _).
  rewrite H in H'. injection H' as <-. split_and!; [exact Ht|exact Hm|].
  intros tok. specialize (Hget tok).
  destruct (occurrences_of_zero tok tokens) as [_ Hz].
  destruct (decide (tok ∈ (Puffman.tokenOccurrences p).*1)) as [Hin|Hout].
  - split; [intros _|now intros _].
    destruct (decide (tok ∈ tokens)) as [|Hnot]; [assumption|].
    apply Hz in Hnot. rewrite Hnot in Hget. cbn in Hget.
    apply obj_get_None in Hget. contradiction.
  - split; [contradiction|]. intros Hin. exfalso.
    apply obj_get_None in Hout. rewrite Hout in Hget.
    destruct (occurrences_of tok tokens =? 0) eqn:E; [|discriminate].
    apply Z.eqb_eq, Hz in E. contradiction.
Qed.

Lemma group_step_rules (views : list CssEater.BlockView) (node : CssEater.AstNode) :
  flat_map view_rules (group_step views node)
  = flat_map view_rules views ++ node_rules node.
Proof.
  destruct node as [rule|media rules|contents]; cbn [group_step node_rules].
  - destruct views as [|u vs _] using rev_ind; [reflexivity|].
    rewrite last_snoc. destruct u as [media rules|c].
    + destruct (String.eqb media "").
      * rewrite removelast_last, !flat_map_app. cbn [flat_map view_rules].
        now rewrite !app_nil_r, <- app_assoc.
      * now rewrite flat_map_app.
    + now rewrite flat_map_app.
  - rewrite flat_map_app. cbn [flat_map view_rules]. now rewrite app_nil_r.
  - destruct (String.eqb contents ""); [now rewrite app_nil_r|].
    now rewrite flat_map_app.
Qed.

(** The rules of the blocks are the rules of the tree, in their order. *)
Lemma group_rules (ast : CssEater.Ast) :
  flat_map view_rules (group ast) = ast_rules ast.
Proof.
  unfold group, ast_rules.
  assert (H : forall l views,
            flat_map view_rules (fold_left group_step l views)
            = flat_map view_rules views ++ flat_map node_rules l).
  { induction l as [|node l IH]; intros views; cbn [fold_left flat_map].
    - now rewrite app_nil_r.
    - now rewrite IH, group_step_rules, <- app_assoc. }
  apply (H ast []).
Qed.

End Loading.

(** X17: when the tree has no rule, neither at the top nor in a media
    node, [dump] throws a [TypeError] and writes nothing: the table of
    occurrences stays empty, [buildTree] leaves the tree undefined and
    [buildMapToBin] fails on it. *)
Theorem dump_without_rules (ast : CssEater.Ast) (b : BitBuf.t) :
  (forall i rules, ast !! i <> Some (CssEater.AMedia "" rules)) ->
  ast_rules ast = [] ->
  CssEater.dump ast b = (Js.Throw Js.TypeError, b).
Proof.
  intros Hno Hrules.
  destruct (Prop_loadFromAst_spec ast b Puffman.new Hno) as (p1 & Hall & Hload).
  unfold tokens_of in Hall. rewrite group_rules, Hrules in Hall.
  injection Hall as <-.
  unfold CssEater.dump, CssEater.dump_with, CssEater.buildEaters.
  unfold Js.bind at 1. rewrite Hload. reflexivity.
Qed.

Lemma dump_without_rules_charset :
  let ast := [CssEater.AOther "@charset utf-8;"; CssEater.AMedia "print" []] in
  (forall i rules, ast !! i <> Some (CssEater.AMedia "" rules)) /\
  ast_rules ast = [] /\
  CssEater.dump ast BitBuf.new = (Js.Throw Js.TypeError, BitBuf.new).
Proof.
  intros ast.
  assert (H : forall i rules, ast !! i <> Some (CssEater.AMedia "" rules)).
  { intros i rules. do 2 (destruct i as [|i]; [discriminate|]). discriminate. }
  split; [exact H|]. split; [reflexivity|].
  exact (dump_without_rules ast BitBuf.new H eq_refl).
Defined.

(** ** css-eater.js: what [dump] writes, [restore] reads *)

(** The two sides of a sequence, whatever the grouping. *)
Ltac bind_eq :=
  unfold Js.bind;
  repeat match goal with
  | |- context [let '(_, _) := ?m ?s in _] => destruct (m s) as [[[]|?|] ?]
  end;
  try reflexivity.

Section RoundTrip.

Variables P P' : Puffman.t.
Variable t : Puffman.Node.
Hypothesis tree_P' : Puffman.tree P' = Some t.
Hypothesis t_full : full_tree t.
Hypothesis t_internal : Puffman.token t = None.

Lemma parses_seq {A B} (m : Js.M CssEater.Eaters A)
    (k : A -> Js.M CssEater.Eaters B) (l1 l2 bits : list Z) (x : A) (y : B) :
  bits = l1 ++ l2 ->
  parses P' m l1 x -> parses P' (k x) l2 y ->
  parses P' (v <- m ;; k v) bits y.
Proof. intros ->. apply parses_bind. Qed.

Lemma parses_hasMore {B} (k : bool -> Js.M CssEater.Eaters B) (bits : list Z) (y : B) :
  bits <> [] -> parses P' (k true) bits y ->
  parses P'
    (more <- Js.gets (fun e => BitBuf.hasMore (CssEater.bitbuf e)) ;; k more)
    bits y.
Proof.
  intros Hne H b rest Hrd Hbits. unfold Js.bind at 1, Js.gets.
  cbn [CssEater.bitbuf].
  assert (Hmore : BitBuf.hasMore b = true).
  { destruct bits as [|x bits]; [congruence|]. destruct Hbits as (Hle & _).
    unfold BitBuf.hasMore. apply Z.ltb_lt. lia. }
  rewrite Hmore. now apply (H b rest).
Qed.

Lemma positive_length {A} (l : list A) (fuel : nat) :
  l <> [] -> (List.length l <= fuel)%nat -> exists fuel', fuel = S fuel'.
Proof.
  intros Hne Hle. destruct l; [congruence|]. destruct fuel; [simpl in Hle; lia|].
  eauto.
Qed.

Lemma rt_StringEater (s : string) :
  no_nul s ->
  round_trips P P' (CssEater.StringEater_dump s) (fun _ => CssEater.StringEater_eat) s.
Proof.
  intros Hs. exists (octets_bits (codes s ++ [0])). split_and!.
  - intros E. apply (f_equal (fun l => Z.of_nat (List.length l))) in E.
    rewrite octets_bits_length, length_app in E. simpl in E. lia.
  - apply octets_bits_range.
  - apply emits_StringEater_dump.
  - intros _ _. now apply parses_StringEater_eat.
Qed.

Lemma rt_BlockType (type : CssEater.BlockKind) :
  round_trips P P' (CssEater.BlockType_dump type) (fun _ => CssEater.BlockType_eat) type.
Proof.
  exists (kind_bits type). split_and!.
  - now destruct type.
  - destruct type; repeat constructor; lia.
  - apply emits_BlockType_dump.
  - intros _ _. apply parses_BlockType_eat.
Qed.

Lemma rt_Prop (tok : string) :
  coded P t tok -> round_trips P P' (CssEater.Prop_dump tok) CssEater.Prop_eat tok.
Proof.
  intros (c & Hc & Hin).
  destruct (findToken_decodes t t_full t_internal "" tok c Hin) as (suffix & Hs & Hdec).
  change ("" +:+ suffix) with suffix in Hs. subst suffix.
  exists (code_bits c). split_and!.
  - intros E. destruct c as [|ch c]; [|discriminate].
    specialize (Hdec 0%nat BitBuf.new P' [] readable_new (Nat.le_refl _) I).
    discriminate.
  - apply code_bits_range.
  - now apply emits_Prop_dump.
  - intros fuel Hfuel b rest Hrd Hbits. rewrite code_bits_length in *.
    unfold CssEater.Prop_eat, Js.bind, Js.gets. cbn [CssEater.puffman].
    unfold Puffman.findToken. rewrite tree_P'. now apply (Hdec fuel b P' rest).
Qed.

Lemma no_nul_ESC : no_nul CssEater.ESC.
Proof. repeat constructor. discriminate. Qed.

(** The selectors of a rule and their end. *)
Lemma rt_selectors (sels : list string) :
  Forall selector_ok sels -> forall acc,
  round_trips P P'
    (CssEater.for_of sels CssEater.StringEater_dump ;;;
     CssEater.StringEater_dump CssEater.ESC)
    (fun fuel => CssEater.restore_selectors fuel acc) (acc ++ sels).
Proof.
  induction 1 as [|sel sels [Hnul Hesc] _ IH]; intros acc.
  - destruct (rt_StringEater CssEater.ESC no_nul_ESC) as (bits & Hne & Hbits & Hw & Hr).
    exists bits. split; [exact Hne|]. split; [exact Hbits|]. split.
    + eapply emits_ext; [|exact Hw]. reflexivity.
    + intros fuel Hfuel. destruct (positive_length bits fuel Hne Hfuel) as [f ->].
      rewrite app_nil_r. cbn [CssEater.restore_selectors].
      eapply parses_seq; [symmetry; apply app_nil_r|apply (Hr (List.length bits) (Nat.le_refl _))|].
      cbv beta. rewrite String.eqb_refl. apply parses_ret.
  - destruct (rt_StringEater sel Hnul) as (b1 & Hne1 & Hb1 & Hw1 & Hr1).
    destruct (IH (acc ++ [sel])) as (b2 & Hne2 & Hb2 & Hw2 & Hr2).
    exists (b1 ++ b2).
    split; [destruct b1; [congruence|discriminate]|].
    split; [now apply Forall_app|]. split.
    + eapply emits_ext; [|apply emits_bind; [exact Hw1|exact Hw2]].
      intros e. cbn [CssEater.for_of]. apply bind_assoc.
    + intros fuel Hfuel. rewrite length_app in Hfuel.
      destruct (positive_length b1 fuel Hne1 ltac:(lia)) as [f ->].
      cbn [CssEater.restore_selectors].
      eapply parses_seq; [reflexivity|apply (Hr1 (List.length b1) (Nat.le_refl _))|].
      cbv beta.
      replace (String.eqb sel CssEater.ESC) with false
        by (symmetry; now apply String.eqb_neq).
      cbn [negb].
      replace (acc ++ sel :: sels) with ((acc ++ [sel]) ++ sels)
        by (now rewrite <- app_assoc).
      apply Hr2. destruct b1; [congruence|simpl in Hfuel; lia].
Qed.

(** The declarations of a rule and their end. *)
Lemma rt_props (declarations : list CssEater.Declaration) :
  Forall decl_ok declarations ->
  (forall tok, tok ∈ map fst (decl_props declarations) ++ [CssEater.ESC] ->
               coded P t tok) ->
  forall acc,
  round_trips P P'
    (CssEater.for_of declarations
       (fun declaration =>
          match declaration with
          | CssEater.DeclOther => Js.ret tt
          | CssEater.Decl property value =>
              CssEater.Prop_dump property ;;; CssEater.StringEater_dump value
          end) ;;;
     CssEater.Prop_dump CssEater.ESC)
    (fun fuel => CssEater.restore_props fuel acc) (acc ++ decl_props declarations).
Proof.
  induction 1 as [|[property value|] declarations Hd _ IH]; intros Hcoded acc.
  - destruct (rt_Prop CssEater.ESC) as (bits & Hne & Hbits & Hw & Hr).
    { apply Hcoded. now left. }
    exists bits. split; [exact Hne|]. split; [exact Hbits|]. split.
    + eapply emits_ext; [|exact Hw]. reflexivity.
    + intros fuel Hfuel. destruct (positive_length bits fuel Hne Hfuel) as [f ->].
      rewrite app_nil_r. cbn [CssEater.restore_props].
      eapply parses_seq; [symmetry; apply app_nil_r|now apply Hr|].
      cbv beta. rewrite String.eqb_refl. apply parses_ret.
  - destruct Hd as (_ & Hesc & Hnul).
    destruct (rt_Prop property) as (b1 & Hne1 & Hb1 & Hw1 & Hr1).
    { apply Hcoded. now left. }
    destruct (rt_StringEater value Hnul) as (b2 & Hne2 & Hb2 & Hw2 & Hr2).
    destruct (IH ltac:(intros tok Htok; apply Hcoded; now right)
                (acc ++ [(property, value)]))
      as (b3 & Hne3 & Hb3 & Hw3 & Hr3).
    exists (b1 ++ b2 ++ b3).
    split; [destruct b1; [congruence|discriminate]|].
    split; [now repeat (apply Forall_app; split)|]. split.
    + eapply emits_ext;
        [|apply emits_bind; [exact Hw1|apply emits_bind; [exact Hw2|exact Hw3]]].
      intros e. cbn [CssEater.for_of]. bind_eq.
    + intros fuel Hfuel. rewrite !length_app in Hfuel.
      destruct (positive_length b1 fuel Hne1 ltac:(lia)) as [f ->].
      cbn [CssEater.restore_props].
      eapply parses_seq; [reflexivity|apply Hr1; lia|].
      cbv beta.
      replace (String.eqb property CssEater.ESC) with false
        by (symmetry; now apply String.eqb_neq).
      cbn [negb].
      eapply parses_seq; [reflexivity|apply (Hr2 (List.length b2) (Nat.le_refl _))|].
      cbv beta.
      replace (acc ++ decl_props (CssEater.Decl property value :: declarations))
        with ((acc ++ [(property, value)]) ++ decl_props declarations)
        by (now rewrite <- app_assoc).
      apply Hr3. destruct b1; [congruence|simpl in Hfuel; lia].
  - destruct (IH Hcoded acc) as (bits & Hne & Hbits & Hw & Hr).
    exists bits. split; [exact Hne|]. split; [exact Hbits|]. split.
    + eapply emits_ext; [|exact Hw]. reflexivity.
    + exact Hr.
Qed.

(** The rules of a media block and their end. *)
Lemma rt_rules (rules : list CssEater.Rule) :
  Forall rule_ok rules ->
  (forall tok, tok ∈ flat_map rule_tokens rules -> coded P t tok) ->
  forall acc,
  round_trips P P'
    (CssEater.for_of rules CssEater.dump_rule ;;;
     CssEater.StringEater_dump CssEater.ESC)
    (fun fuel => CssEater.restore_rules fuel acc) (acc ++ map rule_css rules).
Proof.
  induction 1 as [|rule rules (Hsome & Hsels & Hdecls) _ IH]; intros Hcoded acc.
  - destruct (rt_selectors [] ltac:(constructor) []) as (bits & Hne & Hbits & Hw & Hr).
    exists bits. split; [exact Hne|]. split; [exact Hbits|]. split; [exact Hw|].
    intros fuel Hfuel. destruct (positive_length bits fuel Hne Hfuel) as [f ->].
    rewrite app_nil_r. cbn [CssEater.restore_rules].
    eapply parses_seq; [symmetry; apply app_nil_r|now apply Hr|].
    apply parses_ret.
  - destruct (rt_selectors (CssEater.selectors rule) Hsels [])
      as (b1 & Hne1 & Hb1 & Hw1 & Hr1).
    destruct (rt_props (CssEater.declarations rule) Hdecls) with (acc := @nil (string * string))
      as (b2 & Hne2 & Hb2 & Hw2 & Hr2).
    { intros tok Htok. apply Hcoded. cbn [flat_map]. apply elem_of_app. now left. }
    destruct (IH ltac:(intros tok Htok; apply Hcoded; cbn [flat_map];
                       apply elem_of_app; now right)
                (acc ++ [rule_css rule]))
      as (b3 & Hne3 & Hb3 & Hw3 & Hr3).
    exists (b1 ++ b2 ++ b3).
    split; [destruct b1; [congruence|discriminate]|].
    split; [now repeat (apply Forall_app; split)|]. split.
    + eapply emits_ext;
        [|apply emits_bind; [exact Hw1|apply emits_bind; [exact Hw2|exact Hw3]]].
      intros e. cbn [CssEater.for_of]. unfold CssEater.dump_rule. bind_eq.
    + intros fuel Hfuel. rewrite !length_app in Hfuel.
      destruct (positive_length b1 fuel Hne1 ltac:(lia)) as [f ->].
      cbn [CssEater.restore_rules].
      eapply parses_seq; [reflexivity|apply Hr1; lia|].
      cbv beta. cbn [app].
      replace (List.length (CssEater.selectors rule) =? 0)%nat with false
        by (symmetry; apply Nat.eqb_neq;
            destruct (CssEater.selectors rule); [congruence|discriminate]).
      eapply parses_seq; [reflexivity|apply Hr2; lia|].
      cbv beta. cbn [app].
      replace (acc ++ map rule_css (rule :: rules))
        with ((acc ++ [rule_css rule]) ++ map rule_css rules)
        by (now rewrite <- app_assoc).
      apply Hr3. destruct b1; [congruence|simpl in Hfuel; lia].
Qed.

(** The blocks of a style sheet and their end. *)
Lemma rt_blocks (views : list CssEater.BlockView) :
  Forall view_ok views ->
  (forall tok, tok ∈ tokens_of views -> coded P t tok) ->
  forall acc,
  round_trips P P'
    (CssEater.for_of views dump_view ;;; CssEater.BlockType_dump CssEater.KEnd)
    (fun fuel => CssEater.restore_blocks fuel acc) (acc ++ map block_css views).
Proof.
  induction 1 as [|v views Hv _ IH]; intros Hcoded acc.
  - destruct (rt_BlockType CssEater.KEnd) as (bits & Hne & Hbits & Hw & Hr).
    exists bits. split; [exact Hne|]. split; [exact Hbits|]. split.
    + eapply emits_ext; [|exact Hw]. reflexivity.
    + intros fuel Hfuel. destruct (positive_length bits fuel Hne Hfuel) as [f ->].
      rewrite app_nil_r. cbn [CssEater.restore_blocks].
      apply parses_hasMore; [exact Hne|].
      eapply parses_seq; [symmetry; apply app_nil_r|apply (Hr (List.length bits) (Nat.le_refl _))|].
      apply parses_ret.
  - assert (Hrest : forall tok, tok ∈ tokens_of views -> coded P t tok).
    { intros tok Htok. apply Hcoded. unfold tokens_of in *. cbn [flat_map].
      rewrite flat_map_app. apply elem_of_app. now right. }
    destruct (IH Hrest (acc ++ [block_css v])) as (b4 & Hne4 & Hb4 & Hw4 & Hr4).
    destruct v as [media rules|contents].
    + destruct Hv as [Hnul Hrules].
      destruct (rt_BlockType CssEater.KMedia) as (b1 & Hne1 & Hb1 & Hw1 & Hr1).
      destruct (rt_StringEater media Hnul) as (b2 & Hne2 & Hb2 & Hw2 & Hr2).
      destruct (rt_rules rules Hrules) with (acc := @nil string)
        as (b3 & Hne3 & Hb3 & Hw3 & Hr3).
      { intros tok Htok. apply Hcoded. unfold tokens_of. cbn [flat_map view_rules].
        rewrite flat_map_app. apply elem_of_app. now left. }
      exists (b1 ++ b2 ++ b3 ++ b4).
      split; [destruct b1; [congruence|discriminate]|].
      split; [now repeat (apply Forall_app; split)|]. split.
      * eapply emits_ext;
          [|apply emits_bind;
             [exact Hw1|apply emits_bind;
                          [exact Hw2|apply emits_bind; [exact Hw3|exact Hw4]]]].
        intros e. cbn [CssEater.for_of]. unfold dump_view. bind_eq.
      * intros fuel Hfuel. rewrite !length_app in Hfuel.
        destruct (positive_length b1 fuel Hne1 ltac:(lia)) as [f ->].
        cbn [CssEater.restore_blocks].
        apply parses_hasMore; [destruct b1; [congruence|discriminate]|].
        eapply parses_seq; [reflexivity|apply (Hr1 (List.length b1) (Nat.le_refl _))|].
        cbv beta iota.
        eapply parses_seq; [reflexivity|apply (Hr2 (List.length b2) (Nat.le_refl _))|].
        cbv beta.
        eapply parses_seq; [reflexivity|apply Hr3; lia|].
        cbv beta. cbn [app].
        replace (acc ++ map block_css (CssEater.VMedia media rules :: views))
          with ((acc ++ [block_css (CssEater.VMedia media rules)])
                  ++ map block_css views)
          by (now rewrite <- app_assoc).
        apply Hr4. destruct b1; [congruence|simpl in Hfuel; lia].
    + destruct (rt_BlockType CssEater.KRaw) as (b1 & Hne1 & Hb1 & Hw1 & Hr1).
      destruct (rt_StringEater contents Hv) as (b2 & Hne2 & Hb2 & Hw2 & Hr2).
      exists (b1 ++ b2 ++ b4).
      split; [destruct b1; [congruence|discriminate]|].
      split; [now repeat (apply Forall_app; split)|]. split.
      * eapply emits_ext;
          [|apply emits_bind; [exact Hw1|apply emits_bind; [exact Hw2|exact Hw4]]].
        intros e. cbn [CssEater.for_of]. unfold dump_view. bind_eq.
      * intros fuel Hfuel. rewrite !length_app in Hfuel.
        destruct (positive_length b1 fuel Hne1 ltac:(lia)) as [f ->].
        cbn [CssEater.restore_blocks].
        apply parses_hasMore; [destruct b1; [congruence|discriminate]|].
        eapply parses_seq; [reflexivity|apply (Hr1 (List.length b1) (Nat.le_refl _))|].
        cbv beta iota.
        eapply parses_seq; [reflexivity|apply (Hr2 (List.length b2) (Nat.le_refl _))|].
        cbv beta.
        replace (acc ++ map block_css (CssEater.VRaw contents :: views))
          with ((acc ++ [block_css (CssEater.VRaw contents)])
                  ++ map block_css views)
          by (now rewrite <- app_assoc).
        apply Hr4. destruct b1; [congruence|simpl in Hfuel; lia].
Qed.

End RoundTrip.

Section Pipeline.

Lemma depth_preamble (P : string -> Prop) (t : Puffman.Node) :
  shaped P t -> (depth t < List.length (preamble t))%nat.
Proof.
  induction 1 as [tok occ _|l r occ _ IHl _ IHr]; cbn [depth preamble];
    rewrite !length_app; cbn [List.length]; lia.
Qed.

Lemma emits_serializePreamble (P : Puffman.t) (root : Puffman.Node) :
  Puffman.tree P = Some root -> full_tree root ->
  emits P CssEater.Prop_serializePreamble (octets_bits (preamble root)).
Proof.
  intros Htree Hfull b. unfold CssEater.Prop_serializePreamble, Js.bind, Js.gets.
  cbn [CssEater.puffman]. rewrite Htree. unfold CssEater.on_bitbuf.
  cbn [CssEater.bitbuf CssEater.puffman].
  unfold Puffman.serialize, Puffman.buildString.
  rewrite (serialize_writes _ root Hfull b).
  now rewrite (writeOctets_pushBits _ (preamble_octets root Hfull)).
Qed.

Lemma group_step_ok (views : list CssEater.BlockView) (node : CssEater.AstNode) :
  Forall view_ok views -> node_ok node -> Forall view_ok (group_step views node).
Proof.
  intros Hviews Hnode.
  destruct node as [rule|media rules|contents]; cbn [group_step node_ok] in *.
  - assert (Hnew : Forall view_ok (views ++ [CssEater.VMedia "" [rule]])).
    { apply Forall_app. split; [exact Hviews|]. apply Forall_singleton.
      split; [constructor|now apply Forall_singleton]. }
    destruct views as [|u vs _] using rev_ind; [exact Hnew|].
    rewrite last_snoc. destruct u as [media rules|c]; [|exact Hnew].
    destruct (String.eqb media ""); [|exact Hnew].
    rewrite removelast_last. apply Forall_app in Hviews as [Hvs Hu].
    rewrite Forall_singleton in Hu. destruct Hu as [Hm Hrules].
    apply Forall_app. split; [exact Hvs|]. apply Forall_singleton.
    split; [exact Hm|]. apply Forall_app. split; [exact Hrules|].
    now apply Forall_singleton.
  - apply Forall_app. split; [exact Hviews|]. now apply Forall_singleton.
  - destruct (String.eqb contents ""); [exact Hviews|].
    apply Forall_app. split; [exact Hviews|]. now apply Forall_singleton.
Qed.

Lemma group_ok (ast : CssEater.Ast) :
  Forall node_ok ast -> Forall view_ok (group ast).
Proof.
  unfold group.
  assert (H : forall views,
            Forall view_ok views -> Forall node_ok ast ->
            Forall view_ok (fold_left group_step ast views)).
  { induction ast as [|node ast IH]; intros views Hviews Hast; [exact Hviews|].
    apply Forall_cons in Hast as [Hnode Hast]. cbn [fold_left].
    apply IH; [now apply group_step_ok|exact Hast]. }
  intros Hast. apply H; [constructor|exact Hast].
Qed.

Lemma views_rules_ok (views : list CssEater.BlockView) :
  Forall view_ok views -> Forall rule_ok (flat_map view_rules views).
Proof.
  induction 1 as [|[media rules|contents] views Hv _ IH]; cbn [flat_map view_rules].
  - constructor.
  - apply Forall_app. split; [apply Hv|exact IH].
  - exact IH.
Qed.

Lemma decl_props_elem (declarations : list CssEater.Declaration) (property : string) :
  property ∈ map fst (decl_props declarations) <->
  exists value, CssEater.Decl property value ∈ declarations.
Proof.
  induction declarations as [|[p v|] declarations IH]; cbn [decl_props flat_map app map].
  - split; [intros H; now apply elem_of_nil in H|].
    intros [value H]. now apply elem_of_nil in H.
  - rewrite elem_of_cons. cbn [fst]. fold (decl_props declarations). rewrite IH.
    split.
    + intros [->|[value H]]; [exists v; now left|exists value; now right].
    + intros [value H]. apply elem_of_cons in H as [H|H]; [left; congruence|].
      right. now exists value.
  - fold (decl_props declarations). rewrite IH. split.
    + intros [value H]. exists value. now right.
    + intros [value H]. apply elem_of_cons in H as [H|H]; [discriminate|].
      now exists value.
Qed.

Lemma rule_tokens_ok (rule : CssEater.Rule) :
  rule_ok rule ->
  Forall (fun tok => token_ok tok /\ (tok = CssEater.ESC \/ tok <> CssEater.ESC))
         (rule_tokens rule) /\
  forall property value,
    CssEater.Decl property value ∈ CssEater.declarations rule ->
    property <> CssEater.ESC.
Proof.
  intros (_ & _ & Hdecls). split.
  - apply Forall_forall. intros tok Htok. unfold rule_tokens, props in Htok.
    apply elem_of_app in Htok as [Htok|Htok].
    + apply decl_props_elem in Htok as [value Hin].
      rewrite Forall_forall in Hdecls. destruct (Hdecls _ Hin) as (Hok & Hesc & _).
      split; [exact Hok|now right].
    + apply list_elem_of_singleton in Htok. subst tok.
      split; [apply token_ok_e|now left].
  - intros property value Hin. rewrite Forall_forall in Hdecls.
    now destruct (Hdecls _ Hin) as (_ & Hesc & _).
Qed.

Lemma flat_map_elem {A B} (f : A -> list B) (l : list A) (y : B) :
  y ∈ flat_map f l <-> exists x, x ∈ l /\ y ∈ f x.
Proof.
  rewrite list_elem_of_In, in_flat_map. split; intros (x & Hx & Hy); exists x.
  - now rewrite !list_elem_of_In.
  - now rewrite <- !list_elem_of_In.
Qed.

Lemma load_result (ast : CssEater.Ast) (b : BitBuf.t) (p p1 p2 : Puffman.t) :
  Puffman.buildTree p = (Js.Ok tt, p1) ->
  Puffman.buildMapToBin p1 = (Js.Ok tt, p2) ->
  (CssEater.on_puffman Puffman.buildTree ;;;
   CssEater.on_puffman Puffman.buildMapToBin ;;;
   Js.ret ast) (CssEater.mkEaters b p)
  = (Js.Ok ast, CssEater.mkEaters b p2).
Proof.
  intros Hb Hm. unfold Js.bind, CssEater.on_puffman.
  cbn [CssEater.puffman CssEater.bitbuf]. rewrite Hb.
  cbn [CssEater.puffman CssEater.bitbuf]. now rewrite Hm.
Qed.

(** The bits [dump] writes for a style sheet the codec carries, and what
    [restore] makes of them wherever they lie. *)
Lemma dump_stream (ast : CssEater.Ast) :
  (forall i rules, ast !! i <> Some (CssEater.AMedia "" rules)) ->
  Forall node_ok ast ->
  (exists rule property value,
     rule ∈ ast_rules ast /\
     CssEater.Decl property value ∈ CssEater.declarations rule) ->
  exists bits,
    Forall (fun x => 0 <= x <= 1) bits /\
    (forall b b',
       pushBits bits b = (Js.Ok tt, b') -> CssEater.dump ast b = (Js.Ok ast, b')) /\
    (forall fuel b rest,
       (List.length bits <= fuel)%nat ->
       readable b -> bits_from b (BitBuf.pos b) (bits ++ rest) ->
       CssEater.restore fuel b
       = (Js.Ok (stylesheet_css ast),
          BitBuf.set_pos (BitBuf.pos b + Z.of_nat (List.length bits)) b)).
Proof.
  intros Hno Hok (rule & property & value & Hrule & Hdecl).
  pose proof (group_ok ast Hok) as Hviews.
  pose proof (views_rules_ok _ Hviews) as Hrules. rewrite group_rules in Hrules.
  destruct (see_all_spec (tokens_of (group ast)) Puffman.new) as (p1 & Hall & _).
  destruct (see_all_keys _ _ Hall) as (_ & Hm1 & Hkeys).
  assert (Htokens : forall tok,
            tok ∈ tokens_of (group ast) <->
            exists r, r ∈ ast_rules ast /\ tok ∈ rule_tokens r).
  { intros tok. unfold tokens_of. rewrite group_rules. apply flat_map_elem. }
  assert (Hrule_ok : rule_ok rule) by (rewrite Forall_forall in Hrules; auto).
  assert (Hprop : property ∈ (Puffman.tokenOccurrences p1).*1).
  { apply Hkeys, Htokens. exists rule. split; [exact Hrule|].
    unfold rule_tokens. apply elem_of_app. left. apply decl_props_elem. eauto. }
  assert (Hesc : CssEater.ESC ∈ (Puffman.tokenOccurrences p1).*1).
  { apply Hkeys, Htokens. exists rule. split; [exact Hrule|].
    unfold rule_tokens. apply elem_of_app. right. now left. }
  assert (Hdiff : property <> CssEater.ESC).
  { destruct (rule_tokens_ok rule Hrule_ok) as [_ H]. eapply H, Hdecl. }
  assert (Htok_ok : Forall token_ok (Puffman.tokenOccurrences p1).*1).
  { apply Forall_forall. intros tok Htok. apply Hkeys, Htokens in Htok as (r & Hr & Htok).
    rewrite Forall_forall in Hrules.
    destruct (rule_tokens_ok r (Hrules _ Hr)) as [H _].
    rewrite Forall_forall in H. now destruct (H _ Htok). }
  destruct (built_coder p1 (two_keys _ _ _ Hprop Hesc Hdiff) Hm1)
    as (root & p1' & p2 & Hb & Htree1 & Hm & Htree2 & Hfull & Hint & Hcodes & Hdom).
  assert (Hhuff : huffman_tree root).
  { destruct (buildTree_shaped token_ok p1) as (root' & q & Hb' & Htree' & Hs);
      [intros E; rewrite E in Hesc; now apply elem_of_nil in Hesc|exact Htok_ok|].
    rewrite Hb in Hb'. injection Hb' as <-. rewrite Htree1 in Htree'.
    now injection Htree' as <-. }
  destruct (forget_occurrences_shape _ root Hfull) as [Hfull' Hwalk].
  set (P' := Puffman.set_tree (Some (forget_occurrences root)) Puffman.new).
  assert (Hint' : Puffman.token (forget_occurrences root) = None).
  { destruct root as [l r tok occ]. exact Hint. }
  destruct (rt_blocks p2 P' (forget_occurrences root) eq_refl Hfull' Hint'
              (group ast) Hviews) with (acc := @nil string)
    as (body & Hne & Hbody & Hw & Hr).
  { intros tok Htok. apply Hkeys, Hdom in Htok as [c Hc]. exists c.
    split; [exact Hc|]. rewrite Hwalk. now apply Hcodes. }
  exists (octets_bits (preamble root) ++ body). split_and!.
  - apply Forall_app. split; [apply octets_bits_range|exact Hbody].
  - intros b b' Hpush. rewrite pushBits_app in Hpush.
    apply bind_ok_inv in Hpush as ([] & b1 & Hp1 & Hp2).
    destruct (Prop_loadFromAst_spec ast b Puffman.new Hno) as (q & Hall' & Hload).
    rewrite Hall in Hall'. injection Hall' as <-.
    rewrite (load_result ast b p1 p1' p2 Hb Hm) in Hload.
    destruct (groupBlocks_views ast Hno) as (blocks & Hg & Hv).
    pose proof (emits_serializePreamble p2 root Htree2 Hfull b) as Hpre.
    rewrite Hp1 in Hpre.
    specialize (Hw b1). rewrite Hp2 in Hw.
    apply bind_ok_inv in Hw as ([] & e1 & Hf & He).
    unfold CssEater.dump, CssEater.dump_with, CssEater.buildEaters.
    unfold Js.bind at 1. rewrite Hload.
    unfold Js.bind at 1. rewrite Hpre, Hg.
    unfold Js.bind at 1.
    change (CssEater.dump_block ast)
      with (fun block =>
              match CssEater.view ast block with
              | None => Js.throw Js.TypeError
              | Some v => dump_view v
              end).
    rewrite (for_of_views ast dump_view blocks (group ast) Hv), Hf.
    unfold Js.bind at 1. rewrite He. reflexivity.
  - intros fuel b rest Hfuel Hrd Hbits. pose proof (rd_pos b Hrd) as Hpos.
    rewrite <- app_assoc in Hbits.
    destruct (bits_octets b (preamble root) (preamble_octets root Hfull) _ _ Hbits)
      as [Hoct Hrest].
    pose proof (depth_preamble _ root Hfull) as Hdepth.
    pose proof (octets_bits_length (preamble root)) as Hlen.
    rewrite length_app in Hfuel.
    unfold CssEater.restore, CssEater.restore_with, CssEater.buildEaters.
    unfold Js.bind at 1. unfold CssEater.Prop_loadFromPreamble.
    cbn [CssEater.puffman CssEater.bitbuf].
    unfold Puffman.unserialize, Puffman.Node_unserialize. unfold Js.bind at 1.
    rewrite (unserialize_preamble root Hhuff fuel b []);
      [|lia|exact Hrd|now rewrite app_nil_r].
    unfold Js.ret at 1. fold P'.
    unfold Js.bind at 1.
    rewrite (Hr fuel ltac:(lia) _ rest).
    + unfold Js.ret. cbn [CssEater.bitbuf app]. unfold stylesheet_css.
      f_equal. unfold BitBuf.set_pos. cbn [BitBuf.chunks BitBuf.length BitBuf.pos].
      f_equal. rewrite length_app. lia.
    + apply readable_set_pos; [exact Hrd|lia].
    + eapply bits_from_same; [| |exact Hrest]; reflexivity.
Qed.

End Pipeline.

Section Reload.

(** A buffer exported and loaded again holds the bits it held. *)
Lemma reload_bits (b : BitBuf.t) :
  wf b ->
  let b' := (BitBuf.fromBuffer (BitBuf.toBuffer b) BitBuf.new).2 in
  readable b' /\ BitBuf.pos b' = 0 /\ BitBuf.length b <= BitBuf.length b' /\
  forall j, 0 <= j -> bit_at b' j = bit_at b j.
Proof.
  intros Hwf. cbv zeta. pose proof (wf_length b Hwf) as Hlen.
  pose proof (ceil_div_bounds _ Hlen) as Hceil.
  assert (Hbl : Z.of_nat (List.length (BitBuf.toBuffer b))
                = BitBuf.ceil_div (BitBuf.length b) 8).
  { unfold BitBuf.toBuffer, BitBuf.OCTET_SIZE. rewrite length_resize. lia. }
  assert (Hoct : Forall is_octet (BitBuf.toBuffer b)).
  { unfold BitBuf.toBuffer. rewrite resize_spec.
    apply Forall_app. split.
    - apply Forall_take. apply Forall_concat.
      eapply Forall_impl; [apply (wf_chunks b Hwf)|]. now intros c [_ Hc].
    - apply Forall_replicate. unfold is_octet. lia. }
  split_and!.
  - now apply fromBuffer_readable.
  - reflexivity.
  - simpl. unfold BitBuf.OCTET_SIZE. lia.
  - intros j Hj. unfold bit_at. simpl BitBuf.chunks.
    rewrite stored_octet_fromBuffer by (Z.to_euclidean_division_equations; lia).
    rewrite toBuffer_lookup; [reflexivity|exact Hwf|].
    Z.to_euclidean_division_equations. lia.
Qed.

End Reload.

Section PlainSheets.

Lemma plain_rule_ok (rule : CssEater.Rule) : plain_rule rule -> rule_ok rule.
Proof.
  intros (Hsome & Hsels & Hdecls). split_and!; [exact Hsome| |].
  - eapply Forall_impl; [exact Hsels|]. intros s [Hs Hesc].
    split; [now apply ascii_text_no_nul|exact Hesc].
  - eapply Forall_impl; [exact Hdecls|]. intros [property value|]; [|trivial].
    intros (Htok & _ & _ & Hesc & Hval).
    split_and!; [exact Htok|exact Hesc|now apply ascii_text_no_nul].
Qed.

(** A style sheet without media nodes is one the codec carries. *)
Lemma plain_sheet (ast : CssEater.Ast) :
  Forall plain_node ast ->
  (exists rule property value,
     CssEater.ARule rule ∈ ast /\
     CssEater.Decl property value ∈ CssEater.declarations rule) ->
  (forall i rules, ast !! i <> Some (CssEater.AMedia "" rules)) /\
  Forall node_ok ast /\
  (exists rule property value,
     rule ∈ ast_rules ast /\
     CssEater.Decl property value ∈ CssEater.declarations rule).
Proof.
  intros Hplain (rule & property & value & Hrule & Hdecl). split_and!.
  - intros i rules Hi. apply list_elem_of_lookup_2 in Hi.
    rewrite Forall_forall in Hplain. exact (Hplain _ Hi).
  - eapply Forall_impl; [exact Hplain|].
    intros [r|media rules|contents]; cbn [plain_node node_ok].
    + apply plain_rule_ok.
    + contradiction.
    + apply ascii_text_no_nul.
  - exists rule, property, value. split; [|exact Hdecl].
    unfold ast_rules. apply flat_map_elem.
    exists (CssEater.ARule rule). split; [exact Hrule|now left].
Qed.

End PlainSheets.


Lemma ascii_text_a : ascii_text "a".
Proof. repeat constructor; (discriminate || (vm_compute; reflexivity)). Qed.

Lemma ascii_text_color : ascii_text "color".
Proof. repeat constructor; (discriminate || (vm_compute; reflexivity)). Qed.

Lemma ascii_text_red : ascii_text "red".
Proof. repeat constructor; (discriminate || (vm_compute; reflexivity)). Qed.

Lemma plain_node_a_color :
  Forall plain_node
    [CssEater.ARule (CssEater.mkRule ["a"%string] [CssEater.Decl "color" "red"])].
Proof.
  apply Forall_singleton. split; [discriminate|]. split.
  - apply Forall_singleton. split; [apply ascii_text_a|discriminate].
  - apply Forall_singleton.
    split; [apply token_ok_color|]. split; [apply plain_key_color|].
    split; [apply ascii_text_color|]. split; [discriminate|apply ascii_text_red].
Qed.




(** ** css-eater.js: [restore] on any input *)

(** The buffer stays readable when the read position moves forward. *)
Ltac moved :=
  repeat (apply readable_set_pos; [|simpl in *; lia]); assumption.

Section Termination.

Lemma reads_weaken {A} (k k' : Z) (b : BitBuf.t) (out : Js.Res A * BitBuf.t) :
  k' <= k -> reads k b out -> reads k' b out.
Proof.
  intros Hk [Hne Hok]. split; [exact Hne|]. intros x Hx.
  destruct (Hok x Hx) as (q & E & Hq). exists q. split; [exact E|lia].
Qed.

Lemma reads_ret {A} (b : BitBuf.t) (x : A) :
  BitBuf.pos b <= BitBuf.length b -> reads 0 b (Js.ret x b).
Proof.
  intros Hle. split; [discriminate|]. intros y _. exists (BitBuf.pos b).
  split; [now rewrite set_pos_same|lia].
Qed.

Lemma reads_bind {A B} (k1 k2 : Z) (m : Js.M BitBuf.t A) (f : A -> Js.M BitBuf.t B)
    (b : BitBuf.t) :
  reads k1 b (m b) ->
  (forall x q, BitBuf.pos b + k1 <= q <= BitBuf.length b ->
               reads k2 (BitBuf.set_pos q b) (f x (BitBuf.set_pos q b))) ->
  reads (k1 + k2) b ((x <- m ;; f x) b).
Proof.
  intros [Hne Hok] Hf. unfold Js.bind.
  destruct (m b) as [[x|e|] b1]; cbn [fst snd] in *.
  - destruct (Hok x eq_refl) as (q & -> & Hq).
    destruct (Hf x q Hq) as [Hne2 Hok2]. split; [exact Hne2|].
    intros y Hy. destruct (Hok2 y Hy) as (q' & E & Hq'). exists q'.
    split; [exact E|]. cbn [BitBuf.pos BitBuf.length BitBuf.set_pos] in Hq'. lia.
  - split; [discriminate|]. intros y Hy. discriminate.
  - now contradiction Hne.
Qed.

Lemma reads_on_weaken {A} (k k' : Z) (b : BitBuf.t) (P : Puffman.t)
    (out : Js.Res A * CssEater.Eaters) :
  k' <= k -> reads_on k b P out -> reads_on k' b P out.
Proof.
  intros Hk [Hne Hok]. split; [exact Hne|]. intros x Hx.
  destruct (Hok x Hx) as (q & E & Hq). exists q. split; [exact E|lia].
Qed.

Lemma reads_on_ret {A} (b : BitBuf.t) (P : Puffman.t) (x : A) :
  BitBuf.pos b <= BitBuf.length b ->
  reads_on 0 b P (Js.ret x (CssEater.mkEaters b P)).
Proof.
  intros Hle. split; [discriminate|]. intros y _. exists (BitBuf.pos b).
  split; [now rewrite set_pos_same|lia].
Qed.

Lemma reads_on_throw {A} (k : Z) (b : BitBuf.t) (P : Puffman.t) (e : Js.Err) :
  reads_on (A := A) k b P (Js.throw e (CssEater.mkEaters b P)).
Proof. split; [discriminate|]. intros y Hy. discriminate. Qed.

Lemma reads_on_bind {A B} (k1 k2 : Z) (m : Js.M CssEater.Eaters A)
    (f : A -> Js.M CssEater.Eaters B) (b : BitBuf.t) (P : Puffman.t) :
  reads_on k1 b P (m (CssEater.mkEaters b P)) ->
  (forall x q, BitBuf.pos b + k1 <= q <= BitBuf.length b ->
               reads_on k2 (BitBuf.set_pos q b) P
                 (f x (CssEater.mkEaters (BitBuf.set_pos q b) P))) ->
  reads_on (k1 + k2) b P ((x <- m ;; f x) (CssEater.mkEaters b P)).
Proof.
  intros [Hne Hok] Hf. unfold Js.bind.
  destruct (m (CssEater.mkEaters b P)) as [[x|e|] e1]; cbn [fst snd] in *.
  - destruct (Hok x eq_refl) as (q & -> & Hq).
    destruct (Hf x q Hq) as [Hne2 Hok2]. split; [exact Hne2|].
    intros y Hy. destruct (Hok2 y Hy) as (q' & E & Hq'). exists q'.
    split; [exact E|]. cbn [BitBuf.pos BitBuf.length BitBuf.set_pos] in Hq'. lia.
  - split; [discriminate|]. intros y Hy. discriminate.
  - now contradiction Hne.
Qed.

Lemma reads_on_bitbuf {A} (k : Z) (m : Js.M BitBuf.t A) (b : BitBuf.t) (P : Puffman.t) :
  reads k b (m b) -> reads_on k b P (CssEater.on_bitbuf m (CssEater.mkEaters b P)).
Proof.
  intros [Hne Hok]. unfold CssEater.on_bitbuf.
  cbn [CssEater.bitbuf CssEater.puffman].
  destruct (m b) as [r b1]; cbn [fst snd] in *. split; [exact Hne|].
  intros x Hx. destruct (Hok x Hx) as (q & -> & Hq). now exists q.
Qed.

Lemma reads_readOctet (b : BitBuf.t) : readable b -> reads 8 b (BitBuf.readOctet b).
Proof.
  intros Hrd. destruct (Z.le_gt_cases (BitBuf.pos b + 8) (BitBuf.length b)) as [Hle|Hgt].
  - rewrite readOctet_ok by assumption. split; [discriminate|].
    intros x _. exists (BitBuf.pos b + 8). split; [reflexivity|lia].
  - rewrite readOctet_fail by (try assumption; lia).
    split; [discriminate|]. intros x Hx. discriminate.
Qed.

Lemma reads_readBit (b : BitBuf.t) : readable b -> reads 1 b (BitBuf.readBit b).
Proof.
  intros Hrd. destruct (Z.lt_ge_cases (BitBuf.pos b) (BitBuf.length b)) as [Hlt|Hge].
  - rewrite readBit_ok by assumption. split; [discriminate|].
    intros x _. exists (BitBuf.pos b + 1). split; [reflexivity|lia].
  - rewrite readBit_fail by lia. split; [discriminate|]. intros x Hx. discriminate.
Qed.

Lemma octets_left_after (b : BitBuf.t) (q : Z) (fuel : nat) :
  BitBuf.pos b + 8 <= q <= BitBuf.length b ->
  (BitBuf.octets_left b < S fuel)%nat ->
  (BitBuf.octets_left (BitBuf.set_pos q b) < fuel)%nat.
Proof.
  unfold BitBuf.octets_left, BitBuf.OCTET_SIZE. simpl. intros Hq Hlt.
  assert ((BitBuf.length b - q) / 8 <= (BitBuf.length b - BitBuf.pos b) / 8 - 1)
    by (Z.to_euclidean_division_equations; lia).
  assert (0 <= (BitBuf.length b - q) / 8)
    by (Z.to_euclidean_division_equations; lia).
  lia.
Qed.

Lemma enough_after (b : BitBuf.t) (q : Z) (fuel : nat) :
  BitBuf.pos b + 1 <= q <= BitBuf.length b ->
  enough (S fuel) b -> enough fuel (BitBuf.set_pos q b).
Proof. unfold enough. simpl. lia. Qed.

Lemma enough_later (b : BitBuf.t) (q : Z) (fuel : nat) :
  BitBuf.pos b <= q -> enough fuel b -> enough fuel (BitBuf.set_pos q b).
Proof. unfold enough. simpl. lia. Qed.

Lemma reads_StringEater_eat_loop (fuel : nat) :
  forall (data : list Z) (b : BitBuf.t),
  readable b -> (BitBuf.octets_left b < fuel)%nat ->
  reads 8 b (CssEater.StringEater_eat_loop fuel data b).
Proof.
  induction fuel as [|fuel IH]; intros data b Hrd Hfuel; [lia|].
  pose proof (rd_pos b Hrd) as Hpos.
  cbn [CssEater.StringEater_eat_loop].
  apply (reads_bind 8 0); [now apply reads_readOctet|].
  intros octet q Hq. destruct (negb (octet =? 0)).
  - apply (reads_weaken 8); [lia|]. apply IH.
    + moved.
    + now apply octets_left_after.
  - apply reads_ret. simpl. lia.
Qed.

Lemma reads_StringEater_eat (b : BitBuf.t) (P : Puffman.t) :
  readable b -> reads_on 8 b P (CssEater.StringEater_eat (CssEater.mkEaters b P)).
Proof.
  intros Hrd. unfold CssEater.StringEater_eat.
  apply (reads_on_bitbuf 8 (fun b => CssEater.StringEater_eat_loop _ [] b)).
  apply reads_StringEater_eat_loop; [exact Hrd|lia].
Qed.

Lemma reads_readString (d : Z) (b : BitBuf.t) :
  readable b -> reads 8 b (BitBuf.readString d b).
Proof.
  intros Hrd. unfold BitBuf.readString.
  assert (H : forall fuel data b, readable b -> (BitBuf.octets_left b < fuel)%nat ->
            reads 8 b (BitBuf.readString_loop fuel d data b)).
  { clear. induction fuel as [|fuel IH]; intros data b Hrd Hfuel; [lia|].
    pose proof (rd_pos b Hrd) as Hpos.
    cbn [BitBuf.readString_loop].
    apply (reads_bind 8 0); [now apply reads_readOctet|].
    intros octet q Hq. destruct (octet =? d).
    - apply reads_ret. simpl. lia.
    - apply (reads_weaken 8); [lia|]. apply IH.
      + moved.
      + now apply octets_left_after. }
  apply H; [exact Hrd|lia].
Qed.

(** [Node.unserialize] reads an octet at least on every level, so its
    recursion ends on any buffer. *)
Lemma reads_unserialize (fuel : nat) :
  forall b, readable b -> enough fuel b ->
  reads 8 b (Puffman.unserialize_buildTree fuel b).
Proof.
  induction fuel as [|fuel IH]; intros b Hrd Hfuel; [unfold enough in Hfuel; lia|].
  pose proof (rd_pos b Hrd) as Hpos.
  cbn [Puffman.unserialize_buildTree].
  apply (reads_bind 8 0); [now apply reads_readString|].
  intros val q Hq.
  destruct (Puffman.first_code_is val Puffman.NULL_NODE);
    [apply reads_ret; simpl; lia|].
  apply (reads_weaken (8 + (8 + 0))); [lia|].
  apply reads_bind.
  { apply IH; [moved|].
    apply enough_after; [lia|exact Hfuel]. }
  intros l q1 Hq1. cbn [BitBuf.pos BitBuf.length BitBuf.set_pos] in Hq1.
  apply reads_bind.
  { apply IH; [moved|].
    unfold enough in *. simpl. lia. }
  intros r q2 Hq2. cbn [BitBuf.pos BitBuf.length BitBuf.set_pos] in Hq2.
  apply reads_ret. simpl. lia.
Qed.

(** [findToken] reads a bit on every turn. *)
Lemma reads_findToken (P : Puffman.t) (fuel : nat) :
  forall node b, readable b -> enough fuel b ->
  reads_on 1 b P
    (Puffman.findToken_from fuel (CssEater.on_bitbuf BitBuf.readBit) node
       (CssEater.mkEaters b P)).
Proof.
  induction fuel as [|fuel IH]; intros node b Hrd Hfuel; [unfold enough in Hfuel; lia|].
  pose proof (rd_pos b Hrd) as Hpos.
  cbn [Puffman.findToken_from].
  apply (reads_on_bind 1 0); [now apply reads_on_bitbuf, reads_readBit|].
  intros dir q Hq. destruct node as [n|]; [|apply reads_on_throw].
  cbv zeta. destruct (if dir =? 0 then Puffman.left n else Puffman.right n) as [n'|];
    [|apply reads_on_throw].
  destruct (Puffman.token n').
  - apply reads_on_ret. simpl. lia.
  - apply (reads_on_weaken 1); [lia|]. apply IH.
    + moved.
    + now apply enough_after.
Qed.

Lemma reads_Prop_eat (P : Puffman.t) (fuel : nat) (b : BitBuf.t) :
  readable b -> enough fuel b ->
  reads_on 1 b P (CssEater.Prop_eat fuel (CssEater.mkEaters b P)).
Proof.
  intros Hrd Hfuel.
  change (CssEater.Prop_eat fuel (CssEater.mkEaters b P))
    with (Puffman.findToken_from fuel (CssEater.on_bitbuf BitBuf.readBit)
            (Puffman.tree P) (CssEater.mkEaters b P)).
  now apply reads_findToken.
Qed.

Lemma reads_restore_selectors (P : Puffman.t) (fuel : nat) :
  forall acc b, readable b -> enough fuel b ->
  reads_on 8 b P (CssEater.restore_selectors fuel acc (CssEater.mkEaters b P)).
Proof.
  induction fuel as [|fuel IH]; intros acc b Hrd Hfuel; [unfold enough in Hfuel; lia|].
  pose proof (rd_pos b Hrd) as Hpos.
  cbn [CssEater.restore_selectors].
  apply (reads_on_bind 8 0); [now apply reads_StringEater_eat|].
  intros sel q Hq. destruct (negb (String.eqb sel CssEater.ESC)).
  - apply (reads_on_weaken 8); [lia|]. apply IH.
    + moved.
    + apply enough_after; [lia|exact Hfuel].
  - apply reads_on_ret. simpl. lia.
Qed.

Lemma reads_restore_props (P : Puffman.t) (fuel : nat) :
  forall acc b, readable b -> enough fuel b ->
  reads_on 1 b P (CssEater.restore_props fuel acc (CssEater.mkEaters b P)).
Proof.
  induction fuel as [|fuel IH]; intros acc b Hrd Hfuel; [unfold enough in Hfuel; lia|].
  pose proof (rd_pos b Hrd) as Hpos.
  cbn [CssEater.restore_props].
  apply (reads_on_bind 1 0); [now apply reads_Prop_eat|].
  intros p q Hq. destruct (negb (String.eqb p CssEater.ESC)).
  - apply (reads_on_weaken (8 + 1)); [lia|]. apply reads_on_bind.
    { apply reads_StringEater_eat. moved. }
    intros v q1 Hq1. cbn [BitBuf.pos BitBuf.length BitBuf.set_pos] in Hq1.
    apply IH; [moved|].
    unfold enough in *. simpl. lia.
  - apply reads_on_ret. simpl. lia.
Qed.

Lemma reads_restore_rules (P : Puffman.t) (fuel : nat) :
  forall acc b, readable b -> enough fuel b ->
  reads_on 8 b P (CssEater.restore_rules fuel acc (CssEater.mkEaters b P)).
Proof.
  induction fuel as [|fuel IH]; intros acc b Hrd Hfuel; [unfold enough in Hfuel; lia|].
  pose proof (rd_pos b Hrd) as Hpos.
  cbn [CssEater.restore_rules].
  apply (reads_on_bind 8 0); [now apply reads_restore_selectors|].
  intros selectors q Hq. destruct (List.length selectors =? 0)%nat.
  - apply reads_on_ret. simpl. lia.
  - apply (reads_on_weaken (1 + 8)); [lia|]. apply reads_on_bind.
    { apply reads_restore_props; [moved|].
      apply enough_later; [lia|exact Hfuel]. }
    intros props q1 Hq1. cbn [BitBuf.pos BitBuf.length BitBuf.set_pos] in Hq1.
    apply IH; [moved|].
    unfold enough in *. simpl. lia.
Qed.

Lemma reads_BlockType_eat (P : Puffman.t) (b : BitBuf.t) :
  readable b -> reads_on 2 b P (CssEater.BlockType_eat (CssEater.mkEaters b P)).
Proof.
  intros Hrd. pose proof (rd_pos b Hrd) as Hpos. unfold CssEater.BlockType_eat.
  apply (reads_on_bind 1 1); [now apply reads_on_bitbuf, reads_readBit|].
  intros b1 q Hq. apply (reads_on_bind 1 0).
  { apply reads_on_bitbuf, reads_readBit. moved. }
  intros b2 q1 Hq1. cbn [BitBuf.pos BitBuf.length BitBuf.set_pos] in Hq1.
  destruct (negb (b1 =? 0)); [|destruct (negb (b2 =? 0))];
    apply reads_on_ret; simpl; lia.
Qed.

(** A reader that advances, followed by a reader that ends, ends. *)
Lemma ends_bind {A B} (k : Z) (m : Js.M CssEater.Eaters A)
    (f : A -> Js.M CssEater.Eaters B) (b : BitBuf.t) (P : Puffman.t) :
  reads_on k b P (m (CssEater.mkEaters b P)) ->
  (forall x q, BitBuf.pos b + k <= q <= BitBuf.length b ->
               (f x (CssEater.mkEaters (BitBuf.set_pos q b) P)).1 <> Js.OutOfFuel) ->
  ((x <- m ;; f x) (CssEater.mkEaters b P)).1 <> Js.OutOfFuel.
Proof.
  intros [Hne Hok] Hf. unfold Js.bind.
  destruct (m (CssEater.mkEaters b P)) as [[x|e|] e1]; cbn [fst snd] in *.
  - destruct (Hok x eq_refl) as (q & -> & Hq). now apply Hf.
  - discriminate.
  - now contradiction Hne.
Qed.

Lemma restore_blocks_ends (P : Puffman.t) (fuel : nat) :
  forall acc b, readable b -> enough fuel b ->
  (CssEater.restore_blocks fuel acc (CssEater.mkEaters b P)).1 <> Js.OutOfFuel.
Proof.
  induction fuel as [|fuel IH]; intros acc b Hrd Hfuel; [unfold enough in Hfuel; lia|].
  pose proof (rd_pos b Hrd) as Hpos.
  cbn [CssEater.restore_blocks]. unfold Js.bind at 1, Js.gets.
  cbn [CssEater.bitbuf]. destruct (BitBuf.hasMore b); [|discriminate].
  apply (ends_bind 2); [now apply reads_BlockType_eat|].
  intros type q Hq.
  assert (Hrd1 : readable (BitBuf.set_pos q b))
    by (moved).
  destruct type; [discriminate| |].
  - apply (ends_bind 8); [now apply reads_StringEater_eat|].
    intros media q1 Hq1. cbn [BitBuf.pos BitBuf.length BitBuf.set_pos] in Hq1.
    apply (ends_bind 8).
    { apply reads_restore_rules; [moved|].
      unfold enough in *. simpl. lia. }
    intros rules q2 Hq2. cbn [BitBuf.pos BitBuf.length BitBuf.set_pos] in Hq2.
    apply IH; [moved|]. unfold enough in *. simpl. lia.
  - apply (ends_bind 8); [now apply reads_StringEater_eat|].
    intros contents q1 Hq1. cbn [BitBuf.pos BitBuf.length BitBuf.set_pos] in Hq1.
    apply IH; [moved|]. unfold enough in *. simpl. lia.
Qed.

End Termination.

(** X20: [restore] ends on every input, damaged or not: on any readable
    buffer, with more turns allowed to each loop than the buffer has
    unread bits, it returns or throws and never needs another turn; every
    turn of every loop of [restore], [findToken] and [Node.unserialize]
    reads a bit at least. *)
Theorem restore_ends (fuel : nat) (b : BitBuf.t) :
  readable b -> (0 < fuel)%nat ->
  BitBuf.length b - BitBuf.pos b < Z.of_nat fuel ->
  (CssEater.restore fuel b).1 <> Js.OutOfFuel.
Proof.
  intros Hrd Hpos Hfuel. pose proof (rd_pos b Hrd) as Hp.
  assert (Henough : enough fuel b) by (unfold enough; lia).
  unfold CssEater.restore, CssEater.restore_with, CssEater.buildEaters.
  unfold Js.bind at 1. unfold CssEater.Prop_loadFromPreamble.
  cbn [CssEater.bitbuf CssEater.puffman].
  unfold Puffman.unserialize, Puffman.Node_unserialize. unfold Js.bind at 1.
  destruct (reads_unserialize fuel b Hrd Henough) as [Hne Hok].
  destruct (Puffman.unserialize_buildTree fuel b) as [[n|e|] b1];
    cbn [fst snd] in *; [|discriminate|now contradiction Hne].
  destruct (Hok n eq_refl) as (q & -> & Hq). unfold Js.ret at 1.
  pose proof (restore_blocks_ends (Puffman.set_tree n Puffman.new) fuel []
                (BitBuf.set_pos q b)) as Hends.
  unfold Js.bind.
  destruct (CssEater.restore_blocks fuel [] _) as [[blocks|e|] e1];
    cbn [fst snd] in *; [discriminate|discriminate|].
  exfalso. apply Hends; [moved| |reflexivity].
  apply enough_later; [lia|exact Henough].
Qed.

Lemma restore_ends_noise :
  let b := (BitBuf.fromBuffer [255; 0; 17] BitBuf.new).2 in
  readable b /\ (0 < 25)%nat /\
  BitBuf.length b - BitBuf.pos b < Z.of_nat 25 /\
  (CssEater.restore 25 b).1 <> Js.OutOfFuel.
Proof.
  intros b.
  assert (H1 : readable b).
  { apply fromBuffer_readable. repeat constructor; unfold is_octet; lia. }
  assert (H2 : (0 < 25)%nat) by lia.
  assert (H3 : BitBuf.length b - BitBuf.pos b < Z.of_nat 25) by (vm_compute; reflexivity).
  split_and!; try assumption.
  exact (restore_ends 25 b H1 H2 H3).
Defined.

(** ** bitbuf.js: [hasMore], and [fromBuffer] on a buffer in use *)

(** X21: [hasMore] tells whether [readBit] will succeed: when it is true,
    [readBit] returns a bit and moves the read position by one; when it
    is false, [readBit] throws the index error of the read position and
    changes nothing. *)
Theorem hasMore_readBit (b : BitBuf.t) :
  readable b ->
  (BitBuf.hasMore b = true ->
   exists x, 0 <= x <= 1 /\
     BitBuf.readBit b = (Js.Ok x, BitBuf.set_pos (BitBuf.pos b + 1) b)) /\
  (BitBuf.hasMore b = false ->
   BitBuf.readBit b = (Js.Throw (Js.IndexError (BitBuf.pos b)), b)).
Proof.
  intros Hrd. unfold BitBuf.hasMore. split; intros Hmore.
  - apply Z.ltb_lt in Hmore. exists (bit_at b (BitBuf.pos b)).
    split; [apply bit_at_range|now apply readBit_ok].
  - apply Z.ltb_ge in Hmore. now apply readBit_fail.
Qed.

Lemma hasMore_readBit_new :
  readable BitBuf.new /\
  (BitBuf.hasMore BitBuf.new = true ->
   exists x, 0 <= x <= 1 /\
     BitBuf.readBit BitBuf.new
     = (Js.Ok x, BitBuf.set_pos (BitBuf.pos BitBuf.new + 1) BitBuf.new)) /\
  (BitBuf.hasMore BitBuf.new = false ->
   BitBuf.readBit BitBuf.new
   = (Js.Throw (Js.IndexError (BitBuf.pos BitBuf.new)), BitBuf.new)).
Proof.
  split; [exact readable_new|]. exact (hasMore_readBit BitBuf.new readable_new).
Defined.

(** X22: [fromBuffer] adds its chunks behind those the buffer has: on a
    buffer that already holds bits, the bits read below the old length
    are still the old ones, not those of the loaded bytes. *)
Theorem fromBuffer_keeps_old (b : BitBuf.t) (buf : list Z) (j : Z) :
  readable b -> Forall is_octet buf ->
  0 <= j < BitBuf.length b -> j < 8 * Z.of_nat (List.length buf) ->
  let b' := (BitBuf.fromBuffer buf b).2 in
  exists x, BitBuf.get j b = (Js.Ok x, b) /\ BitBuf.get j b' = (Js.Ok x, b').
Proof.
  intros Hrd Hbuf Hj Hj' b'. exists (bit_at b j).
  destruct Hrd as [Hp Hoct Hcov].
  assert (Hrd' : readable b').
  { split; simpl.
    - exact Hp.
    - apply Forall_app. split; [exact Hoct|now apply fromBuffer_loop_octets].
    - pose proof (fromBuffer_loop_cover buf (List.length buf) 0 ltac:(lia) ltac:(lia)).
      rewrite length_app. unfold BitBuf.OCTET_SIZE. lia. }
  split; [apply get_ok; [now split|lia]|].
  rewrite get_ok; [|exact Hrd'|simpl; unfold BitBuf.OCTET_SIZE; lia].
  do 2 f_equal. unfold bit_at, stored_octet. simpl BitBuf.chunks.
  rewrite lookup_app_l; [reflexivity|].
  apply Nat2Z.inj_lt. rewrite Z2Nat.id by (Z.to_euclidean_division_equations; lia).
  Z.to_euclidean_division_equations. lia.
Qed.

Lemma fromBuffer_keeps_old_A :
  let b := (BitBuf.writeOctet 65 BitBuf.new).2 in
  readable b /\ Forall is_octet [255] /\
  0 <= 1 < BitBuf.length b /\ 1 < 8 * Z.of_nat (List.length [255]) /\
  let b' := (BitBuf.fromBuffer [255] b).2 in
  exists x, BitBuf.get 1 b = (Js.Ok x, b) /\ BitBuf.get 1 b' = (Js.Ok x, b').
Proof.
  generalize (writeOctet_spec 65 BitBuf.new wf_new ltac:(lia)).
  intros (b & Hw & Hwf & Hl & _). rewrite Hw. cbn [snd].
  change (BitBuf.length BitBuf.new) with 0 in Hl.
  assert (H1 : readable b) by now apply wf_readable.
  assert (H2 : Forall is_octet [255]) by (repeat constructor; unfold is_octet; lia).
  assert (H3 : 0 <= 1 < BitBuf.length b) by lia.
  assert (H4 : 1 < 8 * Z.of_nat (List.length [255])) by (simpl; lia).
  split_and!; try assumption; try lia.
  exact (fromBuffer_keeps_old b [255] 1 H1 H2 H3 H4).
Defined.

(** ** css-eater.js: the tree under [dump] *)

(** X23: when no media node of the tree has the empty query, a [dump]
    that returns has left the tree as the caller gave it, on any
    buffer. *)
Theorem dump_leaves_tree (ast ast' : CssEater.Ast) (b b' : BitBuf.t) :
  (forall i rules, ast !! i <> Some (CssEater.AMedia "" rules)) ->
  CssEater.dump ast b = (Js.Ok ast', b') -> ast' = ast.
Proof. intros Hno Hdump. exact (dump_keeps_ast ast Hno b b' ast' Hdump). Qed.

Lemma dump_leaves_tree_a_color :
  let ast := [CssEater.ARule
                (CssEater.mkRule ["a"%string] [CssEater.Decl "color" "red"])] in
  (forall i rules, ast !! i <> Some (CssEater.AMedia "" rules)) /\
  CssEater.dump ast BitBuf.new
  = (Js.Ok ast, (CssEater.dump ast BitBuf.new).2) /\
  ast = ast.
Proof.
  intros ast.
  assert (H1 : forall i rules, ast !! i <> Some (CssEater.AMedia "" rules)).
  { intros i rules. destruct i as [|i]; discriminate. }
  assert (H2 : CssEater.dump ast BitBuf.new
               = (Js.Ok ast, (CssEater.dump ast BitBuf.new).2))
    by (vm_compute; reflexivity).
  split; [exact H1|]. split; [exact H2|].
  exact (dump_leaves_tree ast ast BitBuf.new _ H1 H2).
Defined.

(** ** css-eater.js: [groupBlocks] on an empty-query media node *)

Section Aliasing.

Variable i : nat.
Variable rules : list CssEater.Rule.

(** The media node at [i] keeps the rules it has and may gain some. *)
Lemma groupBlocks_step_grows (idx : nat) (blocks : list CssEater.Block)
    (ast : CssEater.Ast) (more : list CssEater.Rule) :
  ast !! i = Some (CssEater.AMedia "" (rules ++ more)) ->
  exists extra,
    (CssEater.groupBlocks_step idx (blocks, ast)).2 !! i
    = Some (CssEater.AMedia "" (rules ++ more ++ extra)).
Proof.
  intros Hi.
  assert (Hsame : exists extra,
            ast !! i = Some (CssEater.AMedia "" (rules ++ more ++ extra))).
  { exists []. now rewrite app_nil_r. }
  unfold CssEater.groupBlocks_step, CssEater.push_to_latest.
  unfold CssEater.Ast in *.
  destruct (ast !! idx) as [[rule|media rs|contents]|]; try exact Hsame.
  - destruct (last blocks) as [[media rs|j|contents]|]; try exact Hsame.
    + destruct (String.eqb media ""); exact Hsame.
    + destruct (ast !! j) as [[r|media rs|c]|] eqn:Ej; try exact Hsame.
      destruct (String.eqb media "") eqn:Em; [|exact Hsame].
      apply String.eqb_eq in Em. subst media. cbn [snd].
      destruct (decide (j = i)) as [->|Hne].
      * rewrite Hi in Ej. injection Ej as <-. exists [rule].
        rewrite list_lookup_insert_eq by (now apply lookup_lt_Some in Hi).
        now rewrite <- app_assoc.
      * rewrite list_lookup_insert_ne by exact Hne. exact Hsame.
  - destruct (String.eqb contents ""); exact Hsame.
Qed.

(** A rule of the tree stays the rule it is. *)
Lemma groupBlocks_step_rule (idx j : nat) (blocks : list CssEater.Block)
    (ast : CssEater.Ast) (rule : CssEater.Rule) :
  ast !! j = Some (CssEater.ARule rule) ->
  (CssEater.groupBlocks_step idx (blocks, ast)).2 !! j = Some (CssEater.ARule rule).
Proof.
  intros Hj. unfold CssEater.groupBlocks_step, CssEater.push_to_latest.
  unfold CssEater.Ast in *.
  destruct (ast !! idx) as [[r|media rs|contents]|]; try exact Hj.
  - destruct (last blocks) as [[media rs|k|contents]|]; try exact Hj.
    + destruct (String.eqb media ""); exact Hj.
    + destruct (ast !! k) as [[r'|media rs|c]|] eqn:Ek; try exact Hj.
      destruct (String.eqb media ""); [|exact Hj]. cbn [snd].
      rewrite list_lookup_insert_ne; [exact Hj|]. intros ->. congruence.
  - destruct (String.eqb contents ""); exact Hj.
Qed.

Lemma groupBlocks_fold_grows (l : list nat) :
  forall blocks ast more,
  ast !! i = Some (CssEater.AMedia "" (rules ++ more)) ->
  exists extra,
    (fold_left (fun st idx => CssEater.groupBlocks_step idx st) l (blocks, ast)).2 !! i
    = Some (CssEater.AMedia "" (rules ++ more ++ extra)).
Proof.
  induction l as [|idx l IH]; intros blocks ast more Hi; cbn [fold_left].
  - exists []. now rewrite app_nil_r.
  - destruct (groupBlocks_step_grows idx blocks ast more Hi) as (e1 & H1).
    destruct (CssEater.groupBlocks_step idx (blocks, ast)) as [blocks1 ast1].
    cbn [snd] in H1. rewrite app_assoc in H1.
    destruct (IH blocks1 ast1 (more ++ e1)) as (e2 & H2); [now rewrite app_assoc|].
    exists (e1 ++ e2). now rewrite !app_assoc in *.
Qed.

Lemma groupBlocks_fold_rule (l : list nat) (j : nat) (rule : CssEater.Rule) :
  forall blocks ast,
  ast !! j = Some (CssEater.ARule rule) ->
  (fold_left (fun st idx => CssEater.groupBlocks_step idx st) l (blocks, ast)).2 !! j
  = Some (CssEater.ARule rule).
Proof.
  induction l as [|idx l IH]; intros blocks ast Hj; cbn [fold_left]; [exact Hj|].
  pose proof (groupBlocks_step_rule idx j blocks ast rule Hj) as H1.
  destruct (CssEater.groupBlocks_step idx (blocks, ast)) as [blocks1 ast1].
  now apply IH.
Qed.

End Aliasing.

(** X24: whenever a media node with the empty query is directly followed
    by a top-level rule, [groupBlocks] changes the tree it was given: it
    pushes the rule to the rules of that media node, which is the
    caller's own object.  The media node of the returned tree holds its
    old rules followed by others, the rule among them. *)
Theorem groupBlocks_changes_tree (pre post : list CssEater.AstNode)
    (rules : list CssEater.Rule) (rule : CssEater.Rule) :
  let ast := pre ++ CssEater.AMedia "" rules :: CssEater.ARule rule :: post in
  (exists more,
     (CssEater.groupBlocks ast).2 !! List.length pre
     = Some (CssEater.AMedia "" (rules ++ more)) /\ rule ∈ more) /\
  (CssEater.groupBlocks ast).2 <> ast.
Proof.
  intros ast. set (i := List.length pre).
  assert (Hi : ast !! i = Some (CssEater.AMedia "" rules)).
  { subst ast i. now rewrite lookup_app_r, Nat.sub_diag by lia. }
  assert (Hi1 : ast !! S i = Some (CssEater.ARule rule)).
  { subst ast i. rewrite lookup_app_r by lia.
    now replace (S (List.length pre) - List.length pre)%nat with 1%nat by lia. }
  assert (Hgrown : exists more,
            (CssEater.groupBlocks ast).2 !! i
            = Some (CssEater.AMedia "" (rules ++ more)) /\ rule ∈ more).
  { unfold CssEater.groupBlocks.
    assert (Hlen : List.length ast = (i + (2 + List.length post))%nat).
    { subst ast i. rewrite length_app. simpl. lia. }
    rewrite Hlen, seq_app, fold_left_app. cbn [Nat.add].
    destruct (groupBlocks_fold_grows i rules (seq 0 i) [] ast [])
      as (m0 & H0); [now rewrite app_nil_r|].
    pose proof (groupBlocks_fold_rule (seq 0 i) (S i) rule [] ast Hi1) as H1.
    destruct (fold_left _ (seq 0 i) _) as [blocks1 ast1]. cbn [snd app] in H0, H1.
    assert (E1 : CssEater.groupBlocks_step i (blocks1, ast1)
                 = (blocks1 ++ [CssEater.BAst i], ast1)).
    { unfold CssEater.groupBlocks_step. now rewrite H0. }
    assert (E2 : CssEater.groupBlocks_step (S i) (blocks1 ++ [CssEater.BAst i], ast1)
                 = (blocks1 ++ [CssEater.BAst i],
                    <[i := CssEater.AMedia "" ((rules ++ m0) ++ [rule])]> ast1)).
    { unfold CssEater.groupBlocks_step, CssEater.push_to_latest.
      now rewrite H1, last_snoc, H0. }
    cbn [seq fold_left]. rewrite E1, E2. unfold CssEater.Ast in *.
    destruct (groupBlocks_fold_grows i rules (seq (S (S i)) (List.length post))
                (blocks1 ++ [CssEater.BAst i])
                (<[i := CssEater.AMedia "" ((rules ++ m0) ++ [rule])]> ast1)
                (m0 ++ [rule])) as (m1 & H2).
    { unfold CssEater.Ast in *.
      rewrite list_lookup_insert_eq by (now apply lookup_lt_Some in H0).
      now rewrite app_assoc. }
    exists ((m0 ++ [rule]) ++ m1). split; [exact H2|].
    apply elem_of_app. left. apply elem_of_app. right. now left. }
  split; [exact Hgrown|].
  destruct Hgrown as (more & Hm & Hin). intros E. rewrite E in Hm.
  unfold CssEater.Ast in *. rewrite Hi in Hm. injection Hm as Hm. apply (f_equal (@List.length _)) in Hm.
  rewrite length_app in Hm. destruct more; [now apply elem_of_nil in Hin|].
  simpl in Hm. lia.
Qed.

(** ** puffman.js: the leaves of the tree *)

Section Leaves.

Lemma leaf_tokens_perm (l1 l2 : list Puffman.Node) :
  l1 ≡ₚ l2 -> flat_map leaf_tokens l1 ≡ₚ flat_map leaf_tokens l2.
Proof.
  induction 1 as [|x l1 l2 _ IH|x y l|l1 l2 l3 _ IH1 _ IH2]; cbn [flat_map].
  - reflexivity.
  - now rewrite IH.
  - rewrite !app_assoc. f_equiv. apply Permutation_app_comm.
  - now rewrite IH1.
Qed.

(** The loop of [buildTree] keeps every leaf, as often as it is there. *)
Lemma buildTree_loop_leaves (fuel : nat) :
  forall base root : list Puffman.Node,
  (List.length base <= fuel)%nat ->
  Puffman.buildTree_loop fuel base = Js.Ok root ->
  flat_map leaf_tokens root ≡ₚ flat_map leaf_tokens base.
Proof.
  induction fuel as [|fuel IH]; intros base root Hfuel Hloop.
  - destruct base; [|simpl in Hfuel; lia]. now injection Hloop as <-.
  - destruct base as [|a [|b base]]; [now injection Hloop as <-..|].
    set (base0 := a :: b :: base) in *.
    assert (Hlen0 : (2 <= List.length base0)%nat) by (simpl; lia).
    pose proof (sort_perm base0) as Hperm.
    assert (Hslen : List.length (Puffman.sort base0) = List.length base0)
      by now rewrite Hperm.
    destruct (pop_snoc (Puffman.sort base0)) as (ln & rest1 & E1 & Hpop1).
    { intros E. rewrite E in Hslen. simpl in Hslen. lia. }
    assert (Hlen1 : S (List.length rest1) = List.length base0).
    { rewrite <- Hslen, E1, length_app. simpl. lia. }
    destruct (pop_snoc rest1) as (rn & rest2 & E2 & Hpop2).
    { intros E. rewrite E in Hlen1. simpl in Hlen1. lia. }
    assert (Hlen2 : S (S (List.length rest2)) = List.length base0).
    { rewrite <- Hlen1, E2, length_app. simpl. lia. }
    cbn [Puffman.buildTree_loop] in Hloop. fold base0 in Hloop.
    rewrite Hpop1, Hpop2 in Hloop.
    replace (1 <? Z.of_nat (List.length base0)) with true in Hloop
      by (symmetry; apply Z.ltb_lt; lia).
    apply IH in Hloop; [|rewrite length_app; simpl; lia].
    rewrite Hloop, <- (leaf_tokens_perm _ _ Hperm), E1, E2.
    rewrite !flat_map_app. cbn [flat_map leaf_tokens]. rewrite !app_nil_r.
    rewrite <- !app_assoc. f_equiv. apply Permutation_app_comm.
Qed.

End Leaves.

(** X25: on a table that is not empty, the leaves of the tree [buildTree]
    makes are the tokens of the table, each as often as the table lists
    it: when no token is listed twice, as after [see], every token is the
    token of one leaf and of one only. *)
Theorem buildTree_leaves (p : Puffman.t) :
  Puffman.tokenOccurrences p <> [] ->
  exists root p1,
    Puffman.buildTree p = (Js.Ok tt, p1) /\ Puffman.tree p1 = Some root /\
    leaf_tokens root ≡ₚ (Puffman.tokenOccurrences p).*1 /\
    (NoDup (Puffman.tokenOccurrences p).*1 -> NoDup (leaf_tokens root)).
Proof.
  intros Hne. unfold Puffman.buildTree, Puffman.items.
  set (base := map _ (Puffman.tokenOccurrences p)).
  destruct (buildTree_loop_weights (List.length base) base) as (root & Hloop & _).
  - lia.
  - subst base. now destruct (Puffman.tokenOccurrences p).
  - subst base. apply Forall_forall. intros n Hn.
    apply list_elem_of_In, in_map_iff in Hn as ([tok occ] & <- & _).
    apply weighted_leaf.
  - rewrite Hloop. exists root, (Puffman.set_tree (Some root) p).
    assert (Hperm : leaf_tokens root ≡ₚ (Puffman.tokenOccurrences p).*1).
    { apply buildTree_loop_leaves in Hloop; [|lia].
      cbn [flat_map] in Hloop. rewrite app_nil_r in Hloop. rewrite Hloop.
      subst base. clear.
      induction (Puffman.tokenOccurrences p) as [|[k v] o IH]; [reflexivity|].
      cbn [map flat_map leaf_tokens Puffman.newNode app fmap list_fmap fst].
      now rewrite IH. }
    split_and!; [reflexivity|reflexivity|exact Hperm|].
    intros Hnd. now rewrite Hperm.
Qed.

Lemma buildTree_leaves_color_e :
  let p := Puffman.mk [("color"%string, 3); ("e"%string, 2)] None ∅ in
  Puffman.tokenOccurrences p <> [] /\
  exists root p1,
    Puffman.buildTree p = (Js.Ok tt, p1) /\ Puffman.tree p1 = Some root /\
    leaf_tokens root ≡ₚ (Puffman.tokenOccurrences p).*1 /\
    (NoDup (Puffman.tokenOccurrences p).*1 -> NoDup (leaf_tokens root)).
Proof.
  intros p. assert (H : Puffman.tokenOccurrences p <> []) by discriminate.
  split; [exact H|]. exact (buildTree_leaves p H).
Defined.

(** ** css-eater.js: [restore] on a buffer that is too short *)

(** X26: on a buffer with fewer than eight unread bits, an empty file for
    one, [restore] throws the index error of the first read of the
    preamble and leaves the buffer as it was. *)
Theorem restore_short (fuel : nat) (b : BitBuf.t) :
  readable b -> (0 < fuel)%nat ->
  BitBuf.length b < BitBuf.pos b + 8 ->
  CssEater.restore fuel b
  = (Js.Throw (Js.IndexError (Z.max (BitBuf.pos b) (BitBuf.length b))), b).
Proof.
  intros Hrd Hfuel Hshort. destruct fuel as [|fuel]; [lia|].
  unfold CssEater.restore, CssEater.restore_with, CssEater.buildEaters.
  unfold Js.bind at 1. unfold CssEater.Prop_loadFromPreamble.
  cbn [CssEater.bitbuf CssEater.puffman].
  unfold Puffman.unserialize, Puffman.Node_unserialize. unfold Js.bind at 1.
  cbn [Puffman.unserialize_buildTree]. unfold Js.bind at 1.
  unfold BitBuf.readString. cbn [BitBuf.readString_loop]. unfold Js.bind at 1.
  now rewrite readOctet_fail by assumption.
Qed.

Lemma restore_short_new :
  readable BitBuf.new /\ (0 < 1)%nat /\
  BitBuf.length BitBuf.new < BitBuf.pos BitBuf.new + 8 /\
  CssEater.restore 1 BitBuf.new
  = (Js.Throw (Js.IndexError
                 (Z.max (BitBuf.pos BitBuf.new) (BitBuf.length BitBuf.new))),
     BitBuf.new).
Proof.
  assert (H2 : (0 < 1)%nat) by lia.
  assert (H3 : BitBuf.length BitBuf.new < BitBuf.pos BitBuf.new + 8)
    by (vm_compute; reflexivity).
  split_and!; [exact readable_new|exact H2|exact H3|].
  exact (restore_short 1 BitBuf.new readable_new H2 H3).
Defined.
